(** * NxtIRFcore: coverage blocks and fragment maps

    A shallow embedding of [src/ReadBlockProcessor_CoverageBlocks.cpp]:
    the [FragmentsMap] coverage engine (ingest, compaction, finalisation,
    merge, histogram query), the histogram statistics of [CoverageBlocks]
    and the warning classification of [CoverageBlocksIRFinder::WriteOutput].

    Conventions.
    - [unsigned int] values are integers in [0, 2^32); every unsigned
      operation of the source is followed by [wrap32].  [unsigned long long]
      accumulators use [wrap64].
    - [int] values (deltas and depths) are mathematical integers: signed
      overflow is undefined behaviour in C++, so the embedding describes the
      executions in which no [int] overflows.
    - A [std::vector] is a list, [.at(i)] out of range (which throws
      [std::out_of_range]) makes the operation return [None].
    - A [std::map<unsigned,unsigned>] is an association list in ascending key
      order, the order in which the source iterates over it. *)

From Stdlib Require Import String.
From Stdlib Require Import ZArith List Lia Bool Permutation.
From Stdlib Require Import Sorted Orders Mergesort.
From Stdlib Require Import PrimFloat Uint63.
Import ListNotations.
Open Scope Z_scope.

(** ** Machine integers *)

Definition two32 : Z := 4294967296.
Definition two64 : Z := 18446744073709551616.
Definition wrap32 (x : Z) : Z := x mod two32.
Definition wrap64 (x : Z) : Z := x mod two64.

(** ** Buffers of [std::pair<unsigned int, int>] *)

Definition entry : Type := (Z * Z)%type.
Definition buf : Type := list entry.
Definition chrvec : Type := list buf.

(** [std::sort] with the default [operator<] of [std::pair]: lexicographic,
    position first, then the signed second component.  The order is total and
    antisymmetric, so the sorted vector is unique whatever algorithm is used. *)
Module PairOrder <: TotalLeBool.
Definition t : Type := entry.
Definition leb (a b : t) : bool :=
  (fst a <? fst b) || ((fst a =? fst b) && (snd a <=? snd b)).
Theorem leb_total : forall a b, leb a b = true \/ leb b a = true.
Proof.
  intros [p d] [q e]; unfold leb; simpl.
  destruct (Z.ltb_spec p q); simpl; auto.
  destruct (Z.ltb_spec q p); simpl; auto.
  replace (p =? q) with true by (symmetry; apply Z.eqb_eq; lia).
  replace (q =? p) with true by (symmetry; apply Z.eqb_eq; lia).
  simpl. destruct (Z.leb_spec d e); auto.
  right. apply Z.leb_le. lia.
Qed.
End PairOrder.

Module PairSort := Sort PairOrder.

Definition std_sort (v : buf) : buf := PairSort.sort v.

(** ** The three strand channels

    [chrName_vec_final], [chrName_vec_new] and [temp_chrName_vec_new] are
    arrays of three vectors: index 0 and 1 are the two strands
    ([blocks.direction], [direction ? 1 : 0]), index 2 is unstranded. *)

Inductive channel : Type := Ch0 | Ch1 | Ch2.

Record arr3 (A : Type) : Type := Arr3 { at0 : A; at1 : A; at2 : A }.
Arguments Arr3 {A} _ _ _.
Arguments at0 {A} _.
Arguments at1 {A} _.
Arguments at2 {A} _.

Definition sel {A : Type} (j : channel) (a : arr3 A) : A :=
  match j with Ch0 => at0 a | Ch1 => at1 a | Ch2 => at2 a end.

Definition upd {A : Type} (j : channel) (x : A) (a : arr3 A) : arr3 A :=
  match j with
  | Ch0 => Arr3 x (at1 a) (at2 a)
  | Ch1 => Arr3 (at0 a) x (at2 a)
  | Ch2 => Arr3 (at0 a) (at1 a) x
  end.

Definition dir_channel (direction : bool) : channel :=
  if direction then Ch1 else Ch0.

(** ** FragmentsMap *)

(** The fields of [chr_entry] that the source file reads. *)
Record chr_entry : Type := {
  refID : nat;
  chr_name : string;
  chr_len : Z
}.

(** The members of [FragmentsMap] that the source file uses.  The class is
    declared in a header that is not among the sources: [frag_count] is taken
    as an integer, and the theorems hold whatever its value. *)
Record FragmentsMap : Type := {
  chrs : list chr_entry;
  chrName_vec_final : arr3 chrvec;
  chrName_vec_new : arr3 chrvec;
  temp_chrName_vec_new : arr3 chrvec;
  frag_count : Z;
  final_is_sorted : bool
}.

(** A fragment as [ProcessBlocks] reads it ([FragmentBlocks] is declared in
    a header that is not among the sources): [readCount] reads, each with
    its [readStart] and its blocks [(rStarts[index][j], rLens[index][j])]. *)
Record FragmentBlocks : Type := {
  chr_id : nat;
  direction : bool;
  reads : list (Z * list (Z * Z))
}.

(** *** ChrMapUpdate *)

Definition empty_vector : buf := [(0, 0)].

Definition ChrMapUpdate (chrmap : list chr_entry) (s : FragmentsMap) : FragmentsMap :=
  let v := repeat empty_vector (length chrmap) in
  {| chrs := chrs s ++ chrmap;
     chrName_vec_final := Arr3 v v v;
     chrName_vec_new := Arr3 v v v;
     temp_chrName_vec_new := Arr3 v v v;
     frag_count := frag_count s;
     final_is_sorted := final_is_sorted s |}.

(** Modelled from the spec: the constructor of [FragmentsMap] is in the
    header, which is not among the sources.  A map is created in
    accumulating mode (section 3), here with no chromosome yet; the initial
    fragment counter is the parameter [fc]. *)
Definition fresh_map (fc : Z) : FragmentsMap :=
  {| chrs := [];
     chrName_vec_final := Arr3 [] [] [];
     chrName_vec_new := Arr3 [] [] [];
     temp_chrName_vec_new := Arr3 [] [] [];
     frag_count := fc;
     final_is_sorted := false |}.

(** *** ProcessBlocks *)

(** The two events of one block. *)
Definition block_events (readStart : Z) (b : Z * Z) : buf :=
  [ (wrap32 (readStart + fst b), 1);
    (wrap32 (readStart + fst b + snd b), -1) ].

Definition frag_events (blocks : FragmentBlocks) : buf :=
  flat_map (fun r => flat_map (block_events (fst r)) (snd r)) (reads blocks).

(** [v.at(i)] followed by [push_back] of each element of [es]. *)
Fixpoint vec_push (v : chrvec) (i : nat) (es : buf) : option chrvec :=
  match v, i with
  | [], _ => None
  | x :: v', O => Some ((x ++ es) :: v')
  | x :: v', S i' => option_map (cons x) (vec_push v' i' es)
  end.

(** The two nested loops of [ProcessBlocks].  With no block at all nothing is
    accessed; otherwise the first [.at(blocks.chr_id)] throws when the index
    is out of range. *)
Definition push_blocks (s : FragmentsMap) (blocks : FragmentBlocks) : option FragmentsMap :=
  match frag_events blocks with
  | [] => Some s
  | es =>
    let t := temp_chrName_vec_new s in
    let j := dir_channel (direction blocks) in
    match vec_push (sel j t) (chr_id blocks) es with
    | None => None
    | Some vj =>
      let t1 := upd j vj t in
      match vec_push (sel Ch2 t1) (chr_id blocks) es with
      | None => None
      | Some v2 =>
        Some {| chrs := chrs s;
                chrName_vec_final := chrName_vec_final s;
                chrName_vec_new := chrName_vec_new s;
                temp_chrName_vec_new := upd Ch2 v2 t1;
                frag_count := frag_count s;
                final_is_sorted := final_is_sorted s |}
      end
    end
  end.

(** *** sort_and_collapse_temp *)

(** One iteration of the walk over a sorted ingest buffer; the state is
    [(loci, accum, pushed)]. *)
Definition collapse_step (st : Z * Z * buf) (it_pos : entry) : Z * Z * buf :=
  let '(loci, accum, out) := st in
  if negb (fst it_pos =? loci) then
    ((fst it_pos), (snd it_pos),
     if negb (accum =? 0) then out ++ [(loci, accum)] else out)
  else (loci, accum + snd it_pos, out).

(** What one non-empty ingest buffer appends to [chrName_vec_new]. *)
Definition collapse_temp_buf (itChr : buf) : buf :=
  let '(loci, accum, out) := fold_left collapse_step (std_sort itChr) (0, 0, []) in
  out ++ [(loci, accum)].

Definition compact_into (new temp : buf) : buf :=
  match temp with
  | [] => new
  | _ :: _ => new ++ collapse_temp_buf temp
  end.

(** The loop over the chromosomes of one channel: [refID] counts the ingest
    buffers, and [chrName_vec_new[j].at(refID)] is accessed only for a
    non-empty one.  Returns the new ingest and accumulated vectors. *)
Fixpoint collapse_chan (temp new : chrvec) : option (chrvec * chrvec) :=
  match temp with
  | [] => Some ([], new)
  | itChr :: ts =>
    match itChr, new with
    | [], [] =>
      option_map (fun r => ([] :: fst r, snd r)) (collapse_chan ts [])
    | [], n :: ns =>
      option_map (fun r => ([] :: fst r, n :: snd r)) (collapse_chan ts ns)
    | _ :: _, [] => None
    | _ :: _, n :: ns =>
      option_map (fun r => ([] :: fst r, compact_into n itChr :: snd r))
                 (collapse_chan ts ns)
    end
  end.

Definition sort_and_collapse_temp (s : FragmentsMap) : option FragmentsMap :=
  let t := temp_chrName_vec_new s in
  let n := chrName_vec_new s in
  match collapse_chan (at0 t) (at0 n),
        collapse_chan (at1 t) (at1 n),
        collapse_chan (at2 t) (at2 n) with
  | Some r0, Some r1, Some r2 =>
    Some {| chrs := chrs s;
            chrName_vec_final := chrName_vec_final s;
            chrName_vec_new := Arr3 (snd r0) (snd r1) (snd r2);
            temp_chrName_vec_new := Arr3 (fst r0) (fst r1) (fst r2);
            frag_count := frag_count s;
            final_is_sorted := final_is_sorted s |}
  | _, _, _ => None
  end.

Definition ProcessBlocks (s : FragmentsMap) (blocks : FragmentBlocks) : option FragmentsMap :=
  match push_blocks s blocks with
  | None => None
  | Some s1 =>
    let s2 := {| chrs := chrs s1;
                 chrName_vec_final := chrName_vec_final s1;
                 chrName_vec_new := chrName_vec_new s1;
                 temp_chrName_vec_new := temp_chrName_vec_new s1;
                 frag_count := frag_count s1 + 1;
                 final_is_sorted := final_is_sorted s1 |} in
    if (frag_count s2) mod 1000000 =? 0 then sort_and_collapse_temp s2
    else Some s2
  end.

(** *** sort_and_collapse_final *)

Record progressors : Type := {
  loci : Z;
  old_loci : Z;
  depth : Z;
  old_depth : Z;
  itDest : buf
}.

(** One iteration of the loop over the sorted accumulated-delta buffer. *)
Definition final_step (st : progressors) (it_pos : entry) : progressors :=
  let st1 :=
    if negb (fst it_pos =? loci st) then
      let st0 :=
        if negb (depth st =? old_depth st) then
          {| loci := loci st; old_loci := loci st;
             depth := depth st; old_depth := depth st;
             itDest := itDest st ++ [(old_loci st, old_depth st)] |}
        else st in
      {| loci := fst it_pos; old_loci := old_loci st0;
         depth := depth st0; old_depth := old_depth st0;
         itDest := itDest st0 |}
    else st in
  let d := depth st1 + snd it_pos in
  {| loci := loci st1; old_loci := old_loci st1;
     depth := d;
     old_depth := if fst it_pos =? 0 then d else old_depth st1;
     itDest := itDest st1 |}.

Definition final_start : progressors :=
  {| loci := 0; old_loci := 0; depth := 0; old_depth := 0; itDest := [] |}.

(** The two pushes after the loop. *)
Definition final_flush (st : progressors) : buf :=
  (itDest st ++ [(old_loci st, old_depth st)]) ++
  (if negb (depth st =? old_depth st) then [(loci st, depth st)] else []).

(** The finalised run-length sequence of one accumulated-delta buffer. *)
Definition final_buf (itChr : buf) : buf :=
  final_flush (fold_left final_step (std_sort itChr) final_start).

(** The iterations [k] of one channel: [i] runs over [chrs.size()]
    chromosomes, both vectors are accessed with [.at(i)]. *)
Fixpoint final_chan (n : nat) (new final : chrvec) : option (chrvec * chrvec) :=
  match n with
  | O => Some (new, final)
  | S n' =>
    match new, final with
    | itChr :: ns, _ :: fs =>
      option_map (fun r => ([] :: fst r, final_buf itChr :: snd r))
                 (final_chan n' ns fs)
    | _, _ => None
    end
  end.

Definition sort_and_collapse_final (s : FragmentsMap) : option FragmentsMap :=
  if final_is_sorted s then Some s
  else
    match sort_and_collapse_temp s with
    | None => None
    | Some s1 =>
      let k := length (chrs s1) in
      let n := chrName_vec_new s1 in
      let f := chrName_vec_final s1 in
      match final_chan k (at0 n) (at0 f),
            final_chan k (at1 n) (at1 f),
            final_chan k (at2 n) (at2 f) with
      | Some r0, Some r1, Some r2 =>
        Some {| chrs := chrs s1;
                chrName_vec_final := Arr3 (snd r0) (snd r1) (snd r2);
                chrName_vec_new := Arr3 (fst r0) (fst r1) (fst r2);
                temp_chrName_vec_new := temp_chrName_vec_new s1;
                frag_count := frag_count s1;
                final_is_sorted := true |}
      | _, _, _ => None
      end
    end.

(** *** Combine *)

(** [a.at(i).insert(a.at(i).end(), b.at(i).begin(), b.at(i).end())] for
    [i < n]. *)
Fixpoint append_chan (n : nat) (a b : chrvec) : option chrvec :=
  match n with
  | O => Some a
  | S n' =>
    match a, b with
    | x :: a', y :: b' => option_map (cons (x ++ y)) (append_chan n' a' b')
    | _, _ => None
    end
  end.

Definition append_arr (n : nat) (a b : arr3 chrvec) : option (arr3 chrvec) :=
  match append_chan n (at0 a) (at0 b),
        append_chan n (at1 a) (at1 b),
        append_chan n (at2 a) (at2 b) with
  | Some v0, Some v1, Some v2 => Some (Arr3 v0 v1 v2)
  | _, _, _ => None
  end.

(** Returns the parent and the child, which is compacted as well. *)
Definition Combine (s child : FragmentsMap) : option (FragmentsMap * FragmentsMap) :=
  match sort_and_collapse_temp s, sort_and_collapse_temp child with
  | Some s1, Some c1 =>
    if negb (final_is_sorted s1) && negb (final_is_sorted c1) then
      match append_arr (length (chrs s1)) (chrName_vec_new s1) (chrName_vec_new c1) with
      | Some n =>
        Some ({| chrs := chrs s1;
                 chrName_vec_final := chrName_vec_final s1;
                 chrName_vec_new := n;
                 temp_chrName_vec_new := temp_chrName_vec_new s1;
                 frag_count := frag_count s1;
                 final_is_sorted := final_is_sorted s1 |}, c1)
      | None => None
      end
    else if final_is_sorted s1 && final_is_sorted c1 then
      match append_arr (length (chrs s1)) (chrName_vec_final s1) (chrName_vec_final c1) with
      | Some f =>
        Some ({| chrs := chrs s1;
                 chrName_vec_final := f;
                 chrName_vec_new := chrName_vec_new s1;
                 temp_chrName_vec_new := temp_chrName_vec_new s1;
                 frag_count := frag_count s1;
                 final_is_sorted := false |}, c1)
      | None => None
      end
    else Some (s1, c1)
  | _, _ => None
  end.

(** ** Histograms: [std::map<unsigned int, unsigned int>] *)

Definition hist : Type := list (Z * Z).

(** [hist[k] += n]: [operator[]] creates the bin with count 0 when the key is
    absent; the addition is unsigned. *)
Fixpoint hist_add (k n : Z) (h : hist) : hist :=
  match h with
  | [] => [(k, wrap32 n)]
  | (k', v) :: t =>
    if k <? k' then (k, wrap32 n) :: h
    else if k =? k' then (k, wrap32 (v + n)) :: t
    else (k', v) :: hist_add k n t
  end.

(** [hist.insert({k, v})]: no effect when the key is present. *)
Fixpoint hist_insert (k v : Z) (h : hist) : hist :=
  match h with
  | [] => [(k, v)]
  | (k', v') :: t =>
    if k <? k' then (k, v) :: h
    else if k =? k' then h
    else (k', v') :: hist_insert k v t
  end.

(** The count of a depth, 0 when the histogram has no such bin. *)
Fixpoint hist_count (k : Z) (h : hist) : Z :=
  match h with
  | [] => 0
  | (k', v) :: t => if k =? k' then v else hist_count k t
  end.

(** The number of bases of a histogram, as a mathematical sum. *)
Definition hist_total (h : hist) : Z :=
  fold_right (fun e acc => snd e + acc) 0 h.

(** *** updateCoverageHist *)

(** [std::upper_bound] with the comparison on positions.  The standard fixes
    its result only on a sequence that is partitioned by position at
    [start], as every sequence that finalisation produces is.  On any other
    sequence, such as the concatenated ones that [Combine] of two finalised
    maps leaves, the program runs the bisection of the library, which is
    what is modelled: [first] and [len] are the variables of its loop
    [while (len > 0)], with [half = len >> 1] and [middle = first + half];
    the test is the comparator of the call on [(start, 0)] and [*middle];
    the search goes on in [first, middle) or in [middle + 1, first + len).
    [len] decreases at every iteration, so that [fuel = len] never runs
    out (lemma [upper_bound_loop_fuel]). *)
Fixpoint upper_bound_loop (fuel : nat) (it_chr : buf) (start : Z)
    (first len : nat) : nat :=
  match fuel with
  | O => first
  | S fuel' =>
    match len with
    | O => first
    | S _ =>
      let half := Nat.div2 len in
      let middle := (first + half)%nat in
      if start <? fst (nth middle it_chr (0, 0)) then
        upper_bound_loop fuel' it_chr start first half
      else
        upper_bound_loop fuel' it_chr start (S middle) (len - half - 1)%nat
    end
  end.

Definition upper_bound (it_chr : buf) (start : Z) : nat :=
  upper_bound_loop (List.length it_chr) it_chr start 0 (List.length it_chr).

(** [while(it_pos->first > start && it_pos != it_chr->begin()) it_pos--;] on
    the index of [it_pos]. *)
Fixpoint walk_back (it_chr : buf) (start : Z) (k : nat) : nat :=
  match k with
  | O => O
  | S k' =>
    if start <? fst (nth k it_chr (0, 0)) then walk_back it_chr start k'
    else k
  end.

(** The loop [while(cursor < end)], on the segments from [it_pos] on.  The
    inner loop skips the segments at or before the cursor; the first one
    beyond it closes the current span, becomes the cursor and is skipped by
    the inner loop of the next iteration, hence the recursion on the tail.
    The inner loop tests [it_pos->first] before [it_pos != end]; whatever
    that read yields at the end, the conjunction is false there.  Lemma
    [walk_forward_iteration] below states the loop iteration by iteration. *)
Fixpoint walk_forward (segs : buf) (cursor d end_ : Z) (h : hist) : hist :=
  if cursor <? end_ then
    match segs with
    | [] => hist_add (wrap32 d) (wrap32 (end_ - cursor)) h
    | it_pos :: rest =>
      if fst it_pos <=? cursor then walk_forward rest cursor d end_ h
      else walk_forward rest (fst it_pos) (snd it_pos) end_
             (hist_add (wrap32 d) (wrap32 (Z.min (fst it_pos) end_ - cursor)) h)
    end
  else h.

(** The inner loop alone:
    [while(it_pos->first <= cursor && it_pos != it_chr->end()) it_pos++;]. *)
Fixpoint skip_upto (segs : buf) (cursor : Z) : buf :=
  match segs with
  | [] => []
  | it_pos :: rest => if fst it_pos <=? cursor then skip_upto rest cursor else segs
  end.

Definition updateCoverageHist (s : FragmentsMap) (h : hist) (start end_ : Z)
    (dir : channel) (refID : nat) : hist :=
  match nth_error (sel dir (chrName_vec_final s)) refID with
  | None => hist_insert 0 0 h
  | Some it_chr =>
    let k := upper_bound it_chr start in
    if (k =? List.length it_chr)%nat then
      hist_add 0 (wrap32 (end_ - start)) h
    else
      let k' := walk_back it_chr start k in
      walk_forward (skipn k' it_chr) start (snd (nth k' it_chr (0, 0))) end_ h
  end.

(** [CoverageBlocks::fillHist], unstranded and stranded. *)
Definition fillHist (s : FragmentsMap) (h : hist) (refID : nat)
    (blocks : list (Z * Z)) (dir : channel) : hist :=
  fold_left (fun acc b => updateCoverageHist s acc (fst b) (snd b) dir refID)
            blocks h.

(** ** Histogram statistics of [CoverageBlocks] *)

(** A [double] result, by the expression that computes it. *)
Inductive dbl : Type :=
| of_unsigned (n : Z)
    (* an unsigned value converted to double *)
| quotient (num den : Z)
    (* (double)num / (double)den *)
| interpolated (d0 d1 n p : Z)
    (* d0 - frac*d0 + frac*d1, frac the fractional part of n*p/100 *)
| quiet_NaN.

Inductive outcome : Type :=
| Returns (r : dbl)
| ReadsPastEnd.   (* dereferences [hist.end()]: undefined behaviour *)

Definition hist_size (h : hist) : Z :=
  fold_left (fun size e => wrap32 (size + snd e)) h 0.

(** [total += h.first * h.second]: the product is an [unsigned int]. *)
Definition meanFromHist (h : hist) : dbl :=
  let total := fold_left (fun total e => wrap64 (total + wrap32 (fst e * snd e))) h 0 in
  let count := fold_left (fun count e => wrap32 (count + snd e)) h 0 in
  quotient total count.

(** The second loop of [percentileFromHist]. *)
Fixpoint percentile_walk (h : hist) (count index : Z) (frac_is_zero : bool)
    (n p : Z) : outcome :=
  match h with
  | [] => Returns quiet_NaN
  | e :: rest =>
    let count := wrap32 (count + snd e) in
    if index <=? count then
      if (index <? count) || frac_is_zero then Returns (of_unsigned (fst e))
      else
        match rest with
        | [] => ReadsPastEnd
        | e' :: _ => Returns (interpolated (fst e) (fst e') n p)
        end
    else percentile_walk rest count index frac_is_zero n p
  end.

(** [percentile_frac = (size + 1)*(double)percentile/100] for
    [percentile <= 100]: the product is below 2^39, hence exact, and the
    quotient is either an integer or at least 1/100 away from one, so its
    rounding changes neither [percentile_index] nor whether the fractional
    part is zero. *)
Definition percentileFromHist (h : hist) (percentile : Z) : outcome :=
  let n := wrap32 (hist_size h + 1) in
  let percentile_index := (n * percentile) / 100 in
  let frac_is_zero := (n * percentile) mod 100 =? 0 in
  percentile_walk h 0 percentile_index frac_is_zero n percentile.

(** The second loop of [trimmedMeanFromHist]: [inl total] is the exit of the
    loop (at its end or through [break]) with that total, [inr first] the
    [return h.first] inside it. *)
Fixpoint trimmed_walk (h : hist) (size skip total count : Z) : Z + Z :=
  match h with
  | [] => inl total
  | e :: rest =>
    if wrap32 (size - skip) <? wrap32 (count + snd e) then
      if skip <? count then
        inl (wrap64 (total + wrap32 (fst e * wrap32 (size - skip - count))))
      else inr (fst e)
    else
      let total :=
        if skip <? count then wrap64 (total + wrap32 (fst e * snd e))
        else if skip <? wrap32 (count + snd e) then
          wrap64 (total + wrap32 (fst e * wrap32 (count + snd e - skip)))
        else total in
      trimmed_walk rest size skip total (wrap32 (count + snd e))
  end.

(** [skip_d = size * ((100 - centerPercent)/2) / 100] for
    [centerPercent <= 100]: as above the floor of the rounded quotient is the
    floor of the exact one. *)
Definition trimmedMeanFromHist (h : hist) (centerPercent : Z) : dbl :=
  let size := hist_size h in
  let skip := (size * (100 - centerPercent)) / 200 in
  match trimmed_walk h size skip 0 0 with
  | inl total => quotient total (wrap32 (size - 2 * skip))
  | inr first => of_unsigned first
  end.

(** *** The value of a [dbl] as an IEEE binary64 number *)

Definition u2d (n : Z) : float := PrimFloat.of_uint63 (Uint63.of_Z n).

(** Conversion of an [unsigned long long]: above 2^63 the halved value with a
    sticky low bit is converted and doubled, which rounds as the direct
    conversion does. *)
Definition ull2d (n : Z) : float :=
  if n <? 9223372036854775808 then u2d n
  else PrimFloat.mul (u2d (Z.lor (n / 2) (n mod 2))) (u2d 2).

Definition dbl_value (r : dbl) : float :=
  match r with
  | of_unsigned n => u2d n
  | quotient num den => PrimFloat.div (ull2d num) (u2d den)
  | interpolated d0 d1 n p =>
    let f := PrimFloat.div (PrimFloat.mul (u2d n) (u2d p)) (u2d 100) in
    let frac := PrimFloat.sub f (u2d ((n * p) / 100)) in
    PrimFloat.add (PrimFloat.sub (u2d d0) (PrimFloat.mul frac (u2d d0)))
                  (PrimFloat.mul frac (u2d d1))
  | quiet_NaN => PrimFloat.nan
  end.

(** ** The warning column of [CoverageBlocksIRFinder::WriteOutput] *)

#[warnings="-inexact-float"]
Definition warning (intronTrimmedMean : float)
    (JCleft JCright JCexact SPleft SPright : Z) : string :=
  let maxJC := u2d (Z.max JCleft JCright) in
  let maxSP := u2d (Z.max SPleft SPright) in
  let minSP := Z.min SPleft SPright in
  if PrimFloat.ltb (PrimFloat.add (u2d JCexact) intronTrimmedMean) (u2d 10) then
    "LowCover"%string
  else if JCexact <? 4 then "LowSplicing"%string
  else if PrimFloat.ltb (PrimFloat.mul (u2d JCexact) 1.33333333%float) maxJC then
    "MinorIsoform"%string
  else if (PrimFloat.ltb (PrimFloat.add intronTrimmedMean (u2d 2)) maxSP
           && PrimFloat.ltb (PrimFloat.mul intronTrimmedMean 1.5%float) maxSP)
          || (PrimFloat.ltb (u2d (wrap32 (minSP + 2))) intronTrimmedMean
              && PrimFloat.ltb (PrimFloat.mul (u2d minSP) 1.5%float) intronTrimmedMean)
  then "NonUniformIntronCover"%string
  else "-"%string.

(** ** Specification vocabulary *)

(** The depth that a buffer of deltas gives to position [q]: the sum of the
    deltas at positions up to [q]. *)
Definition delta_upto (l : buf) (q : Z) : Z :=
  fold_right (fun e acc => (if fst e <=? q then snd e else 0) + acc) 0 l.

(** The depth that a run-length sequence gives to position [q]: the depth of
    the last segment at or before [q], [acc] when there is none. *)
Fixpoint seg_lookup (acc : Z) (segs : buf) (q : Z) : Z :=
  match segs with
  | [] => acc
  | e :: rest => seg_lookup (if fst e <=? q then snd e else acc) rest q
  end.

(** Strictly increasing positions, and no two consecutive equal depths. *)
Fixpoint chain (l : buf) : Prop :=
  match l with
  | a :: t =>
    match t with
    | b :: _ => fst a < fst b /\ snd a <> snd b /\ chain t
    | [] => True
    end
  | [] => True
  end.

(** The same property, entry by entry. *)
Definition run_length_canonical (l : buf) : Prop :=
  forall i a b, nth_error l i = Some a -> nth_error l (S i) = Some b ->
                fst a < fst b /\ snd a <> snd b.

(** Positions are [unsigned int]. *)
Definition pos_ok (e : entry) : bool := (0 <=? fst e) && (fst e <? two32).
Definition buf_ok (l : buf) : bool := forallb pos_ok l.
Definition chrvec_ok (v : chrvec) : bool := forallb buf_ok v.

(** Two buffers of deltas that give every position the same depth. *)
Definition buf_equiv (l1 l2 : buf) : Prop :=
  forall q, delta_upto l1 q = delta_upto l2 q.

(** Well-formed maps: the nine vectors have one buffer per chromosome, as
    [ChrMapUpdate] leaves them, and hold positions. *)
Definition sizes_ok (s : FragmentsMap) : Prop :=
  forall j, List.length (sel j (chrName_vec_final s)) = List.length (chrs s) /\
            List.length (sel j (chrName_vec_new s)) = List.length (chrs s) /\
            List.length (sel j (temp_chrName_vec_new s)) = List.length (chrs s).

Definition positions_ok (s : FragmentsMap) : Prop :=
  forall j, chrvec_ok (sel j (chrName_vec_new s)) = true /\
            chrvec_ok (sel j (temp_chrName_vec_new s)) = true.

Definition well_formed (s : FragmentsMap) : Prop := sizes_ok s /\ positions_ok s.

(** The deltas a map holds for one channel and chromosome. *)
Definition content (s : FragmentsMap) (j : channel) (i : nat) : buf :=
  nth i (sel j (chrName_vec_new s)) [] ++ nth i (sel j (temp_chrName_vec_new s)) [].

(** Operations on a map: ingest of a fragment by [ProcessBlocks] (with its
    own periodic compaction) and an explicit compaction. *)
Inductive op : Type :=
| Ingest (blocks : FragmentBlocks)
| Compact.

Definition run_op (s : FragmentsMap) (o : op) : option FragmentsMap :=
  match o with
  | Ingest blocks => ProcessBlocks s blocks
  | Compact => sort_and_collapse_temp s
  end.

Fixpoint run (ops : list op) (s : FragmentsMap) : option FragmentsMap :=
  match ops with
  | [] => Some s
  | o :: rest =>
    match run_op s o with
    | Some s' => run rest s'
    | None => None
    end
  end.

(** Ingest without any compaction: only the pushes of [ProcessBlocks]. *)
Fixpoint ingest_only (fs : list FragmentBlocks) (s : FragmentsMap) : option FragmentsMap :=
  match fs with
  | [] => Some s
  | blocks :: rest =>
    match push_blocks s blocks with
    | Some s' => ingest_only rest s'
    | None => None
    end
  end.

Definition ingested (ops : list op) : list FragmentBlocks :=
  flat_map (fun o => match o with Ingest b => [b] | Compact => [] end) ops.

Definition in_range (n : nat) (blocks : FragmentBlocks) : Prop :=
  (chr_id blocks < n)%nat.

(** The events a fragment adds to channel [j], chromosome [i]. *)
Definition events_for (j : channel) (i : nat) (blocks : FragmentBlocks) : buf :=
  if (Nat.eqb (chr_id blocks) i) then
    match j with
    | Ch2 => frag_events blocks
    | Ch1 => if direction blocks then frag_events blocks else []
    | Ch0 => if direction blocks then [] else frag_events blocks
    end
  else [].

(** A map after its first [ChrMapUpdate]. *)
Definition new_map (chrmap : list chr_entry) (fc : Z) : FragmentsMap :=
  ChrMapUpdate chrmap (fresh_map fc).

(** *** Histograms *)

(** Counts are [unsigned int]. *)
Definition hist_vals_ok (h : hist) : bool :=
  forallb (fun e => (0 <=? snd e) && (snd e <? two32)) h.

(** Keys in strictly ascending order, the invariant of [std::map]. *)
Fixpoint hist_sorted (h : hist) : bool :=
  match h with
  | [] => true
  | e :: t =>
    match t with
    | [] => true
    | e' :: _ => (fst e <? fst e') && hist_sorted t
    end
  end.

(** The sum of depth times count, as a mathematical sum. *)
Definition hist_weighted (h : hist) : Z :=
  fold_right (fun e acc => fst e * snd e + acc) 0 h.

(** No product depth times count reaches 2^32. *)
Definition products_ok (h : hist) : bool :=
  forallb (fun e => (0 <=? fst e * snd e) && (fst e * snd e <? two32)) h.

(** *** Loop invariants *)

Definition pos_le (a b : entry) : Prop := fst a <= fst b.

Definition delta_total (l : buf) : Z := fold_right (fun e acc => snd e + acc) 0 l.

(** The segments pushed so far by the walk of [sort_and_collapse_final],
    followed by the one held back in [(old_loci, old_depth)]. *)
Definition pending (st : progressors) : buf :=
  itDest st ++ [(old_loci st, old_depth st)].

(** The state of that walk after the sorted entries [pre]: the pending
    segments are canonical, start at position 0 and give the depths of [pre]
    to the positions before [loci]; [depth] is the depth from [loci] on. *)
Record final_inv (pre : buf) (st : progressors) : Prop := {
  inv_depth : depth st = delta_total pre;
  inv_seen : Forall (fun e => fst e <= loci st) pre;
  inv_nonneg : 0 <= loci st;
  inv_lookup : forall q, 0 <= q < loci st ->
                         seg_lookup 0 (pending st) q = delta_upto pre q;
  inv_zero : loci st = 0 -> old_depth st = depth st;
  inv_dest0 : loci st = 0 -> itDest st = [] /\ old_loci st = 0;
  inv_chain : chain (pending st);
  inv_head : fst (hd (0, 0) (pending st)) = 0;
  inv_old : old_loci st <= loci st;
  inv_old_eq : old_loci st = loci st -> loci st = 0
}.

(** The entries pushed by the walk of [sort_and_collapse_temp], followed by
    the one held in [(loci, accum)]. *)
Definition collapse_flush (st : Z * Z * buf) : buf :=
  let '(loci, accum, out) := st in out ++ [(loci, accum)].

(** ** A small run: two chromosomes, two maps

    In the first map fragment [frag_a] covers [100,200) of the first
    chromosome on one strand and [frag_b] covers [150,200) on the other:
    unstranded depth 1 on [100,150) and 2 on [150,200).  The second map holds
    [frag_c], which covers [10,15) of the second chromosome. *)

Definition chr_demo : list chr_entry :=
  [ {| refID := 0%nat; chr_name := "chr1"; chr_len := 1000 |};
    {| refID := 1%nat; chr_name := "chr2"; chr_len := 500 |} ].

Definition frag_a : FragmentBlocks :=
  {| chr_id := 0%nat; direction := true; reads := [(100, [(0, 100)])] |}.

Definition frag_b : FragmentBlocks :=
  {| chr_id := 0%nat; direction := false; reads := [(150, [(0, 20)]); (170, [(0, 30)])] |}.

Definition frag_c : FragmentBlocks :=
  {| chr_id := 1%nat; direction := true; reads := [(10, [(0, 5)])] |}.

Definition built (s : option FragmentsMap) : FragmentsMap :=
  match s with
  | Some s' => s'
  | None => fresh_map 0
  end.

Definition demo_accum : FragmentsMap :=
  Eval vm_compute in built (ingest_only [frag_a; frag_b] (new_map chr_demo 0)).

Definition demo_final : FragmentsMap :=
  Eval vm_compute in built (sort_and_collapse_final demo_accum).

Definition demo_child_final : FragmentsMap :=
  Eval vm_compute in
    built (sort_and_collapse_final (built (ingest_only [frag_c] (new_map chr_demo 0)))).

Ltac well_formed_by_computation :=
  split; intros []; simpl; repeat split; reflexivity.

(** ** Coverage as a count of blocks *)

(** The positions [start, end) that one block of a fragment covers, as
    [ProcessBlocks] computes its two events. *)
Definition frag_spans (blocks : FragmentBlocks) : list (Z * Z) :=
  flat_map (fun r => map (fun b => (wrap32 (fst r + fst b),
                                    wrap32 (fst r + fst b + snd b))) (snd r))
           (reads blocks).

(** The spans a fragment adds to channel [j], chromosome [i]. *)
Definition spans_for (j : channel) (i : nat) (blocks : FragmentBlocks) : list (Z * Z) :=
  if (Nat.eqb (chr_id blocks) i) then
    match j with
    | Ch2 => frag_spans blocks
    | Ch1 => if direction blocks then frag_spans blocks else []
    | Ch0 => if direction blocks then [] else frag_spans blocks
    end
  else [].

Definition span_events (sp : Z * Z) : buf := [(fst sp, 1); (snd sp, -1)].

(** The number of spans that cover position [q]. *)
Definition covering (spans : list (Z * Z)) (q : Z) : nat :=
  List.length (filter (fun sp => (fst sp <=? q) && (q <? snd sp)) spans).

(** Strictly increasing positions. *)
Fixpoint ascending (l : buf) : Prop :=
  match l with
  | a :: t =>
    match t with
    | b :: _ => fst a < fst b /\ ascending t
    | [] => True
    end
  | [] => True
  end.

(** The state of the walk of [sort_and_collapse_temp] after the sorted
    entries [pre]. *)
Record collapse_inv (pre : buf) (st : Z * Z * buf) : Prop := {
  cinv_nonneg : 0 <= fst (fst st);
  cinv_seen : Forall (fun e => fst e <= fst (fst st)) pre;
  cinv_ascending : ascending (collapse_flush st);
  cinv_nonzero : Forall (fun e => snd e <> 0) (snd st);
  cinv_length : (List.length (snd st) <= List.length pre)%nat
}.

(** ** Histograms of depth *)

(** The number of positions among the [n] from [a] on to which [f] gives a
    depth whose [unsigned int] value is [k]. *)
Fixpoint count_from (f : Z -> Z) (k : Z) (a : Z) (n : nat) : Z :=
  match n with
  | O => 0
  | S n' => (if wrap32 (f a) =? k then 1 else 0) + count_from f k (a + 1) n'
  end.

(** The same for the positions of [a, b). *)
Definition positions_at_depth (f : Z -> Z) (k a b : Z) : Z :=
  count_from f k a (Z.to_nat (b - a)).

(** All keys of a histogram are above [lo]. *)
Definition hist_above (lo : Z) (h : hist) : Prop :=
  match h with
  | [] => True
  | e :: _ => lo < fst e
  end.

(** ** The summary of a region *)

(** [len] of [CoverageBlocks::WriteOutput]: the summed lengths of the
    blocks of a record, an [unsigned int]. *)
Definition blocks_len (blocks : list (Z * Z)) : Z :=
  fold_left (fun len b => wrap32 (len + wrap32 (snd b - fst b))) blocks 0.

(** The chromosome lookup of [CoverageBlocksIRFinder::WriteOutput]: the
    state is [(cur_chr, refID)], looked up again when the chromosome name of
    the record differs from [cur_chr]. *)
Definition lookup_refID (chrs : list chr_entry) (cur_chr : string) : nat :=
  match find (fun obj => String.eqb (chr_name obj) cur_chr) chrs with
  | Some it => refID it
  | None => List.length chrs
  end.

Definition resolve_refID (chrs : list chr_entry) (st : string * nat)
    (chrName : string) : string * nat :=
  if String.eqb chrName (fst st) then st
  else (chrName, lookup_refID chrs chrName).

(** Each worker starts with [refID = 0] and [cur_chr = ""]. *)
Definition resolve_start : string * nat := (EmptyString, O).

(** ** FragmentsMap::WriteOutput: the low-coverage regions *)

(** What the function writes to the stream: the beginning of a row, a
    chromosome name and a start position followed by tabs, and the end of a
    row, an end position followed by a newline. *)
Inductive token : Type :=
| RowStart (name : string) (pos : Z)
| RowEnd (pos : Z).

(** The body of the walk over one sequence; the state is [covered] and what
    has been written for the chromosome. *)
Definition export_step (name : string) (threshold : Z) (st : bool * list token)
    (it_pos : entry) : bool * list token :=
  let coverage := snd it_pos in
  if threshold <? coverage then
    if fst st then st else (true, snd st ++ [RowEnd (fst it_pos)])
  else
    if fst st then (false, snd st ++ [RowStart name (fst it_pos)]) else st.

(** One chromosome.  [itChr->begin()] is dereferenced before the walk:
    [None] on an empty sequence. *)
Definition export_chr (c : chr_entry) (itChr : buf) (threshold : Z) : option (list token) :=
  match itChr with
  | [] => None
  | first :: _ =>
    let st0 :=
      if (fst first =? 0) && (threshold <? snd first) then (true, [])
      else (false, [RowStart (chr_name c) 0]) in
    let st := fold_left (export_step (chr_name c) threshold) itChr st0 in
    Some (if fst st then snd st else snd st ++ [RowEnd (chr_len c)])
  end.

(** The loop over the chromosomes; [.at(refID)] throws outside the array. *)
Fixpoint export_loop (cs : list chr_entry) (fm : FragmentsMap) (threshold : Z)
    : option (list token) :=
  match cs with
  | [] => Some []
  | c :: rest =>
    match nth_error (at2 (chrName_vec_final fm)) (refID c) with
    | None => None
    | Some itChr =>
      match export_chr c itChr threshold, export_loop rest fm threshold with
      | Some os, Some os' => Some (os ++ os')
      | _, _ => None
      end
    end
  end.

(** The map is finalised first when it is not; the result is the map after
    the call and what was written. *)
Definition FragmentsMap_WriteOutput (s : FragmentsMap) (threshold : Z)
    : option (FragmentsMap * list token) :=
  match sort_and_collapse_final s with
  | None => None
  | Some fm => option_map (pair fm) (export_loop (chrs fm) fm threshold)
  end.

(** Reading the stream back as rows [(name, start, end)]: [None] when it is
    not a sequence of complete rows. *)
Definition row : Type := string * Z * Z.

Definition parse_step (st : option (list row * option (string * Z))) (t : token)
    : option (list row * option (string * Z)) :=
  match st, t with
  | Some (rows, None), RowStart n a => Some (rows, Some (n, a))
  | Some (rows, Some (n, a)), RowEnd b => Some (rows ++ [(n, a, b)], None)
  | _, _ => None
  end.

Definition rows_of (os : list token) : option (list row) :=
  match fold_left parse_step os (Some ([], None)) with
  | Some (rows, None) => Some rows
  | _ => None
  end.

(** Position [q] lies in one of the rows, each a half-open range. *)
Definition in_rows (rows : list row) (q : Z) : bool :=
  existsb (fun r => (snd (fst r) <=? q) && (q <? snd r)) rows.

(** The state of the walk of [FragmentsMap::WriteOutput] after the segments
    [pre] of a sequence: the rows written so far, with the row left open,
    are the positions of depth at most [threshold]. *)
Definition export_inv (name : string) (threshold : Z) (pre : buf)
    (st : bool * list token) : Prop :=
  exists rows open,
    fold_left parse_step (snd st) (Some ([], None)) = Some (rows, open) /\
    fst st = (threshold <? snd (last pre (0, 0))) /\
    match open with
    | None => fst st = true
    | Some (n, a) => fst st = false /\ n = name /\ a <= fst (last pre (0, 0))
    end /\
    Forall (fun r : row => fst (fst r) = name /\ snd r <= fst (last pre (0, 0))) rows /\
    forall q, 0 <= q ->
      in_rows rows q || match open with Some (_, a) => a <=? q | None => false end =
      (seg_lookup 0 pre q <=? threshold).

(** ** The positions behind a histogram *)

(** The depths of the positions that a histogram counts, in ascending order
    of depth: each depth as many times as its bin says. *)
Definition expand (h : hist) : list Z :=
  flat_map (fun e => repeat (fst e) (Z.to_nat (snd e))) h.

Definition sum_list (l : list Z) : Z := fold_right Z.add 0 l.

(** What is left of these depths when the [skip] lowest and the [skip]
    highest are dropped. *)
Definition middle (h : hist) (skip : Z) : list Z :=
  firstn (Z.to_nat (hist_total h - 2 * skip)) (skipn (Z.to_nat skip) (expand h)).

(** The part of a bin holding the ranks [count .. count + v) that falls in
    the window [lo, hi), and the sum of the depths over the window. *)
Definition overlap (count v lo hi : Z) : Z :=
  Z.max 0 (Z.min (count + v) hi - Z.max count lo).

Fixpoint window_sum (h : hist) (count lo hi : Z) : Z :=
  match h with
  | [] => 0
  | e :: rest =>
    fst e * overlap count (snd e) lo hi + window_sum rest (count + snd e) lo hi
  end.

(** ** The division of the records among the workers *)

(** [n_jobs = 1 + (BEDrecords.size() / n_threads)], an [unsigned int]. *)
Definition n_jobs (size n_threads : Z) : Z := wrap32 (1 + size / n_threads).

(** The loop [for (j = i * n_jobs; j < (i+1) * n_jobs && j < size; j++)] of
    worker [i]: the indices of the records it visits, in order.  [fuel]
    bounds the number of iterations; [None] when it runs out. *)
Fixpoint job_loop (fuel : nat) (j hi size : Z) : option (list Z) :=
  match fuel with
  | O => None
  | S fuel' =>
    if (j <? hi) && (j <? size) then
      option_map (cons j) (job_loop fuel' (wrap32 (j + 1)) hi size)
    else Some []
  end.

Definition worker_records (size n_threads i : Z) : option (list Z) :=
  let n_jobs := n_jobs size n_threads in
  job_loop (S (Z.to_nat size)) (wrap32 (i * n_jobs)) (wrap32 ((i + 1) * n_jobs)) size.

(** ** coverageFromHist *)

(** [1.0] when the histogram has no bin for depth 0; otherwise
    [(count - hist.at(0)) / (double)count], the difference being an
    [unsigned int]. *)
Definition coverageFromHist (h : hist) : dbl :=
  if existsb (fun e => fst e =? 0) h then
    let count := fold_left (fun count e => wrap32 (count + snd e)) h 0 in
    quotient (wrap32 (count - hist_count 0 h)) count
  else of_unsigned 1.

(** The positions of the blocks of a record to which [f] gives depth [k],
    and the positions of the blocks. *)
Definition record_positions_at_depth (f : Z -> Z) (k : Z) (blocks : list (Z * Z)) : Z :=
  fold_right (fun b acc => positions_at_depth f k (fst b) (snd b) + acc) 0 blocks.

Definition record_positions (blocks : list (Z * Z)) : Z :=
  fold_right (fun b acc => (snd b - fst b) + acc) 0 blocks.

(** A fragment on a chromosome that [chr_demo] does not have. *)
Definition frag_stray : FragmentBlocks :=
  {| chr_id := 7%nat; direction := true; reads := [(10, [(0, 5)])] |}.

(** * Properties *)

(** ** Sorting *)

Lemma leb_trans : forall a b c : entry,
  PairOrder.leb a b = true -> PairOrder.leb b c = true -> PairOrder.leb a c = true.
Proof.
  intros [p d] [q e] [r f]; unfold PairOrder.leb; simpl; intros H1 H2.
  apply orb_true_iff in H1; apply orb_true_iff in H2; apply orb_true_iff.
  rewrite andb_true_iff in *.
  rewrite Z.ltb_lt, Z.eqb_eq, Z.leb_le in *. lia.
Qed.

Lemma std_sort_perm : forall l, Permutation l (std_sort l).
Proof. intro l; apply PairSort.Permuted_sort. Qed.

Lemma std_sort_sorted : forall l, StronglySorted pos_le (std_sort l).
Proof.
  intro l.
  assert (H : StronglySorted (fun a b => is_true (PairOrder.leb a b)) (std_sort l)).
  { apply PairSort.StronglySorted_sort. intros a b c; apply leb_trans. }
  induction H as [|a t Ht IH Hall]; constructor; auto.
  eapply Forall_impl; [|exact Hall].
  intros [q e] Hle; destruct a as [p d]; unfold pos_le, PairOrder.leb in *; simpl in *.
  apply orb_true_iff in Hle. rewrite andb_true_iff, Z.ltb_lt, Z.eqb_eq in Hle. lia.
Qed.

Lemma buf_ok_Forall : forall l, buf_ok l = true <-> Forall (fun e => 0 <= fst e < two32) l.
Proof.
  intro l; unfold buf_ok; rewrite forallb_forall, Forall_forall.
  split; intros H e He; specialize (H e He); unfold pos_ok in *;
    rewrite andb_true_iff, Z.leb_le, Z.ltb_lt in *; lia.
Qed.

Lemma buf_ok_perm : forall l l', Permutation l l' -> buf_ok l = true -> buf_ok l' = true.
Proof.
  intros l l' HP; rewrite !buf_ok_Forall; intro H.
  eapply Permutation_Forall; eauto.
Qed.

Lemma buf_ok_app : forall l l', buf_ok (l ++ l') = buf_ok l && buf_ok l'.
Proof. intros; unfold buf_ok; apply forallb_app. Qed.

(** ** Depth of a buffer of deltas *)

Lemma delta_upto_app : forall l l' q,
  delta_upto (l ++ l') q = delta_upto l q + delta_upto l' q.
Proof.
  induction l as [|e l IH]; intros; simpl; [reflexivity|].
  unfold delta_upto in *; simpl; rewrite IH; lia.
Qed.

Lemma delta_upto_perm : forall l l' q,
  Permutation l l' -> delta_upto l q = delta_upto l' q.
Proof.
  intros l l' q H; induction H; unfold delta_upto in *; simpl; lia.
Qed.

Lemma delta_upto_sort : forall l q, delta_upto (std_sort l) q = delta_upto l q.
Proof. intros; symmetry; apply delta_upto_perm, std_sort_perm. Qed.

Lemma buf_equiv_refl : forall l, buf_equiv l l.
Proof. intros l q; reflexivity. Qed.

Lemma buf_equiv_sym : forall l l', buf_equiv l l' -> buf_equiv l' l.
Proof. intros l l' H q; symmetry; apply H. Qed.

Lemma buf_equiv_trans : forall l1 l2 l3,
  buf_equiv l1 l2 -> buf_equiv l2 l3 -> buf_equiv l1 l3.
Proof. intros l1 l2 l3 H1 H2 q; rewrite H1; apply H2. Qed.

Lemma buf_equiv_app : forall l1 l2 l1' l2',
  buf_equiv l1 l1' -> buf_equiv l2 l2' -> buf_equiv (l1 ++ l2) (l1' ++ l2').
Proof. intros l1 l2 l1' l2' H1 H2 q; rewrite !delta_upto_app, H1, H2; reflexivity. Qed.

(** ** Depth of a run-length sequence *)

Lemma seg_lookup_snoc : forall segs acc e q,
  seg_lookup acc (segs ++ [e]) q = if fst e <=? q then snd e else seg_lookup acc segs q.
Proof.
  induction segs as [|a segs IH]; intros; simpl; [reflexivity|apply IH].
Qed.

Lemma chain_snoc : forall l a b,
  chain (l ++ [a]) -> fst a < fst b -> snd a <> snd b -> chain ((l ++ [a]) ++ [b]).
Proof.
  induction l as [|x l IH]; intros a b Hc Hp Hd; simpl in *; [tauto|].
  destruct (l ++ [a]) as [|y t] eqn:E.
  - destruct l; discriminate.
  - simpl. destruct Hc as (H1 & H2 & H3). repeat split; auto.
    specialize (IH a b). rewrite E in IH. apply IH; auto.
Qed.

Lemma chain_canonical : forall l, chain l -> run_length_canonical l.
Proof.
  induction l as [|x l IH]; intros Hc i a b Ha Hb.
  - destruct i; discriminate.
  - destruct l as [|y l]; [destruct i as [|[|i]]; discriminate|].
    destruct Hc as (H1 & H2 & H3).
    destruct i as [|i]; simpl in Ha, Hb.
    + inversion Ha; inversion Hb; subst; auto.
    + apply (IH H3 i a b); auto.
Qed.

(** ** The walk of [sort_and_collapse_final] *)

Lemma delta_total_snoc : forall l e, delta_total (l ++ [e]) = delta_total l + snd e.
Proof.
  induction l as [|a l IH]; intros; unfold delta_total in *; simpl; [lia|].
  rewrite IH; lia.
Qed.

Lemma delta_upto_snoc : forall l e q,
  delta_upto (l ++ [e]) q = delta_upto l q + (if fst e <=? q then snd e else 0).
Proof.
  intros; rewrite delta_upto_app; unfold delta_upto; simpl; lia.
Qed.

Lemma delta_upto_seen : forall l q,
  Forall (fun e => fst e <= q) l -> delta_upto l q = delta_total l.
Proof.
  induction l as [|e l IH]; intros q H; [reflexivity|].
  inversion H as [|? ? He Hl]; subst.
  unfold delta_upto, delta_total in *; simpl. rewrite (IH q Hl).
  destruct (Z.leb_spec (fst e) q); lia.
Qed.

Lemma final_inv_start : final_inv [] final_start.
Proof.
  constructor; simpl; auto; try lia.
Qed.

Lemma loci_final_step : forall st e, loci (final_step st e) = fst e.
Proof.
  intros st e; unfold final_step.
  destruct (Z.eqb_spec (fst e) (loci st)); simpl; auto.
Qed.

Lemma hd_pending_snoc : forall st x,
  hd (0, 0) (pending st ++ [x]) = hd (0, 0) (pending st).
Proof.
  intros st x; unfold pending. destruct (itDest st); reflexivity.
Qed.

Lemma final_inv_step : forall pre st e,
  final_inv pre st -> loci st <= fst e ->
  final_inv (pre ++ [e]) (final_step st e).
Proof.
  intros pre st [p d] [Hd Hs Hn Hl Hz H0 Hc Hh Ho Hoe] Hle; simpl in Hle.
  unfold final_step; simpl fst; simpl snd.
  destruct (Z.eqb_spec p (loci st)) as [Ep|Np]; simpl negb; cbv iota.
  - (* same position *)
    subst p.
    destruct (Z.eqb_spec (loci st) 0) as [E0|N0].
    + destruct (H0 E0) as [Hdest Hol].
      constructor; simpl; unfold pending; simpl;
        try rewrite Hdest; try rewrite Hol; simpl; auto; try lia.
      * rewrite delta_total_snoc; simpl; lia.
      * apply Forall_app; split; auto.
    + constructor; simpl; auto; try lia.
      * rewrite delta_total_snoc; simpl; lia.
      * apply Forall_app; split; auto.
      * intros q Hq. rewrite delta_upto_snoc; simpl.
        destruct (Z.leb_spec (loci st) q); [lia|].
        unfold pending in *; simpl. rewrite (Hl q) by lia. lia.
  - (* a new position *)
    assert (Hlt : loci st < p) by lia.
    assert (Hp0 : (p =? 0) = false) by (apply Z.eqb_neq; lia).
    destruct (Z.eqb_spec (depth st) (old_depth st)) as [Ed|Nd]; simpl negb; cbv iota;
      simpl; rewrite Hp0.
    + (* the current run continues the pending one *)
      constructor; simpl; auto; try lia.
      * rewrite delta_total_snoc; simpl; lia.
      * apply Forall_app; split; [|repeat constructor; simpl; lia].
        eapply Forall_impl; [|exact Hs]. simpl; intros; lia.
      * intros q Hq. rewrite delta_upto_snoc; simpl.
        destruct (Z.leb_spec p q); [lia|].
        destruct (Z.lt_ge_cases q (loci st)) as [Hq1|Hq1].
        -- unfold pending in *; simpl. rewrite (Hl q) by lia. lia.
        -- unfold pending; simpl. rewrite seg_lookup_snoc; simpl.
           destruct (Z.leb_spec (old_loci st) q); [|lia].
           rewrite (delta_upto_seen pre q).
           ++ lia.
           ++ eapply Forall_impl; [|exact Hs]. simpl; intros; lia.
    + (* the pending run is pushed *)
      assert (Hol : old_loci st < loci st).
      { destruct (Z.eq_dec (old_loci st) (loci st)) as [E|N]; [|lia].
        exfalso. apply Nd. symmetry. apply Hz. apply Hoe. exact E. }
      constructor; simpl; auto; try lia.
      * rewrite delta_total_snoc; simpl; lia.
      * apply Forall_app; split; [|repeat constructor; simpl; lia].
        eapply Forall_impl; [|exact Hs]. simpl; intros; lia.
      * intros q Hq. rewrite delta_upto_snoc; simpl.
        destruct (Z.leb_spec p q); [lia|].
        unfold pending; simpl. rewrite seg_lookup_snoc; simpl.
        destruct (Z.leb_spec (loci st) q).
        -- rewrite (delta_upto_seen pre q).
           ++ lia.
           ++ eapply Forall_impl; [|exact Hs]. simpl; intros; lia.
        -- fold (pending st). rewrite (Hl q) by lia. lia.
      * unfold pending; simpl. apply chain_snoc; auto.
      * unfold pending; simpl. fold (pending st).
        rewrite hd_pending_snoc. exact Hh.
Qed.

Lemma final_inv_fold : forall rest pre st,
  final_inv pre st ->
  StronglySorted pos_le rest ->
  Forall (fun e => loci st <= fst e) rest ->
  final_inv (pre ++ rest) (fold_left final_step rest st).
Proof.
  induction rest as [|e rest IH]; intros pre st Hinv Hsort Hge; simpl.
  - rewrite app_nil_r; exact Hinv.
  - inversion Hsort as [|? ? Hs' Hall]; subst.
    inversion Hge as [|? ? He Hrest]; subst.
    replace (pre ++ e :: rest) with ((pre ++ [e]) ++ rest)
      by (rewrite <- app_assoc; reflexivity).
    apply IH; auto.
    + apply final_inv_step; auto.
    + rewrite loci_final_step. exact Hall.
Qed.

Lemma buf_ok_nonneg : forall l, buf_ok l = true -> Forall (fun e => 0 <= fst e) l.
Proof.
  intros l H; apply buf_ok_Forall in H.
  eapply Forall_impl; [|exact H]. simpl; intros; lia.
Qed.

(** What [final_buf] produces: a run-length sequence that starts at position
    0, is canonical, and gives every position the sum of the deltas up to
    it. *)
Lemma final_buf_spec : forall l,
  buf_ok l = true ->
  chain (final_buf l) /\
  (exists d t, final_buf l = (0, d) :: t) /\
  (forall q, 0 <= q -> seg_lookup 0 (final_buf l) q = delta_upto l q).
Proof.
  intros l Hok.
  assert (Hinv : final_inv (std_sort l) (fold_left final_step (std_sort l) final_start)).
  { apply (final_inv_fold (std_sort l) [] final_start).
    - apply final_inv_start.
    - apply std_sort_sorted.
    - apply buf_ok_nonneg. eapply buf_ok_perm; [apply std_sort_perm|exact Hok]. }
  unfold final_buf, final_flush.
  set (st := fold_left final_step (std_sort l) final_start) in *.
  destruct Hinv as [Hd Hs Hn Hl Hz H0 Hc Hh Ho Hoe].
  fold (pending st).
  destruct (Z.eqb_spec (depth st) (old_depth st)) as [Ed|Nd]; simpl negb; cbv iota.
  - rewrite app_nil_r. split; [exact Hc|]. split.
    + unfold pending in *. destruct (itDest st) as [|[p a] t]; simpl in *.
      * rewrite Hh. eauto.
      * subst p. eauto.
    + intros q Hq. rewrite <- delta_upto_sort.
      destruct (Z.lt_ge_cases q (loci st)) as [Hq1|Hq1]; [apply Hl; lia|].
      unfold pending. rewrite seg_lookup_snoc; simpl.
      destruct (Z.leb_spec (old_loci st) q); [|lia].
      rewrite delta_upto_seen; [lia|].
      eapply Forall_impl; [|exact Hs]. simpl; intros; lia.
  - assert (Hol : old_loci st < loci st).
    { destruct (Z.eq_dec (old_loci st) (loci st)) as [E|N]; [|lia].
      exfalso. apply Nd. symmetry. apply Hz. apply Hoe. exact E. }
    split; [|split].
    + unfold pending. apply chain_snoc; simpl; auto.
    + unfold pending in *. destruct (itDest st) as [|[p a] t]; simpl in *.
      * rewrite Hh. eauto.
      * subst p. eauto.
    + intros q Hq. rewrite <- delta_upto_sort. rewrite seg_lookup_snoc; simpl.
      destruct (Z.leb_spec (loci st) q).
      * rewrite delta_upto_seen; [lia|].
        eapply Forall_impl; [|exact Hs]. simpl; intros; lia.
      * apply Hl; lia.
Qed.

(** *** Uniqueness of the canonical sequence of a depth function *)

Lemma chain_tail_above : forall t x, chain (x :: t) -> Forall (fun e => fst x < fst e) t.
Proof.
  induction t as [|y t IH]; intros x Hc; [constructor|].
  destruct Hc as (H1 & H2 & H3). constructor; auto.
  eapply Forall_impl; [|apply (IH y H3)]. simpl; intros; lia.
Qed.

Lemma seg_lookup_skip : forall t acc q,
  Forall (fun e => q < fst e) t -> seg_lookup acc t q = acc.
Proof.
  induction t as [|e t IH]; intros acc q H; [reflexivity|].
  inversion H as [|? ? He Ht]; subst. simpl.
  destruct (Z.leb_spec (fst e) q); [lia|]. apply IH; auto.
Qed.

Lemma seg_lookup_head : forall t p a acc,
  chain ((p, a) :: t) -> seg_lookup acc ((p, a) :: t) p = a.
Proof.
  intros t p a acc Hc. simpl. rewrite Z.leb_refl.
  apply seg_lookup_skip. apply (chain_tail_above t (p, a) Hc).
Qed.

Lemma chain_unique : forall t1 t2 p a b,
  chain ((p, a) :: t1) -> chain ((p, b) :: t2) ->
  (forall q, p <= q -> seg_lookup 0 ((p, a) :: t1) q = seg_lookup 0 ((p, b) :: t2) q) ->
  (p, a) :: t1 = (p, b) :: t2.
Proof.
  induction t1 as [|[p1 a1] t1 IH]; intros t2 p a b Hc1 Hc2 Heq.
  - assert (Hab : a = b).
    { specialize (Heq p (Z.le_refl p)).
      rewrite !seg_lookup_head in Heq; auto. }
    subst b. destruct t2 as [|[p2 b2] t2]; [reflexivity|].
    exfalso. destruct Hc2 as (H1 & H2 & H3). simpl in H1, H2.
    assert (Hq : p <= p2) by lia. specialize (Heq p2 Hq).
    simpl in Heq. destruct (Z.leb_spec p p2); [|lia].
    rewrite Z.leb_refl in Heq.
    rewrite seg_lookup_skip in Heq by (apply (chain_tail_above t2 (p2, b2) H3)).
    congruence.
  - assert (Hab : a = b).
    { specialize (Heq p (Z.le_refl p)).
      rewrite !seg_lookup_head in Heq; auto. }
    subst b. destruct Hc1 as (G1 & G2 & G3). simpl in G1, G2.
    destruct t2 as [|[p2 b2] t2].
    + exfalso. assert (Hq : p <= p1) by lia. specialize (Heq p1 Hq).
      simpl in Heq. destruct (Z.leb_spec p p1); [|lia].
      rewrite Z.leb_refl in Heq.
      rewrite seg_lookup_skip in Heq by (apply (chain_tail_above t1 (p1, a1) G3)).
      congruence.
    + destruct Hc2 as (H1 & H2 & H3). simpl in H1, H2.
      assert (Hp : p1 = p2).
      { destruct (Z.lt_trichotomy p1 p2) as [L|[E|L]]; [|exact E|]; exfalso.
        - assert (Hq : p <= p1) by lia. specialize (Heq p1 Hq).
          simpl in Heq. destruct (Z.leb_spec p p1); [|lia].
          rewrite Z.leb_refl in Heq.
          destruct (Z.leb_spec p2 p1); [lia|].
          rewrite seg_lookup_skip in Heq by (apply (chain_tail_above t1 (p1, a1) G3)).
          rewrite seg_lookup_skip in Heq.
          + congruence.
          + eapply Forall_impl; [|apply (chain_tail_above t2 (p2, b2) H3)].
            simpl; intros; lia.
        - assert (Hq : p <= p2) by lia. specialize (Heq p2 Hq).
          simpl in Heq. destruct (Z.leb_spec p p2); [|lia].
          rewrite Z.leb_refl in Heq.
          destruct (Z.leb_spec p1 p2); [lia|].
          rewrite (seg_lookup_skip t2) in Heq by (apply (chain_tail_above t2 (p2, b2) H3)).
          rewrite seg_lookup_skip in Heq.
          + congruence.
          + eapply Forall_impl; [|apply (chain_tail_above t1 (p1, a1) G3)].
            simpl; intros; lia. }
      subst p2. f_equal. apply IH; auto.
      intros q Hq. specialize (Heq q (ltac:(lia))).
      simpl in Heq |- *. destruct (Z.leb_spec p q); [|lia].
      destruct (Z.leb_spec p1 q); [|lia]. exact Heq.
Qed.

(** Finalisation depends on the deltas only through the depth they give to
    each position. *)
Lemma final_buf_ext : forall l1 l2,
  buf_ok l1 = true -> buf_ok l2 = true ->
  (forall q, 0 <= q -> delta_upto l1 q = delta_upto l2 q) ->
  final_buf l1 = final_buf l2.
Proof.
  intros l1 l2 H1 H2 Heq.
  destruct (final_buf_spec l1 H1) as (C1 & (d1 & t1 & E1) & L1).
  destruct (final_buf_spec l2 H2) as (C2 & (d2 & t2 & E2) & L2).
  rewrite E1, E2 in *. apply chain_unique; auto.
  intros q Hq. rewrite L1, L2 by lia. apply Heq; lia.
Qed.

(** Deltas that cancel at every position finalise to the empty coverage. *)
Lemma final_buf_no_coverage : forall l,
  buf_ok l = true -> buf_equiv l [] -> final_buf l = [(0, 0)].
Proof.
  intros l Hok Heq. change [(0, 0)] with (final_buf []).
  apply final_buf_ext; auto.
Qed.

(** ** The walk of [sort_and_collapse_temp] *)

Lemma collapse_temp_buf_flush : forall l,
  collapse_temp_buf l = collapse_flush (fold_left collapse_step (std_sort l) (0, 0, [])).
Proof.
  intro l; unfold collapse_temp_buf, collapse_flush.
  destruct (fold_left collapse_step (std_sort l) (0, 0, [])) as [[lo ac] out]; reflexivity.
Qed.

Lemma collapse_step_delta : forall st e q,
  delta_upto (collapse_flush (collapse_step st e)) q =
  delta_upto (collapse_flush st) q + (if fst e <=? q then snd e else 0).
Proof.
  intros [[lo ac] out] [p d] q; unfold collapse_step, collapse_flush; simpl.
  destruct (Z.eqb_spec p lo) as [E|N]; simpl.
  - subst p. rewrite !delta_upto_snoc; simpl. destruct (Z.leb_spec lo q); lia.
  - destruct (Z.eqb_spec ac 0) as [E0|N0]; simpl.
    + subst ac. rewrite !delta_upto_snoc; simpl. destruct (Z.leb_spec lo q); lia.
    + rewrite !delta_upto_snoc; simpl. lia.
Qed.

Lemma collapse_fold_delta : forall l st q,
  delta_upto (collapse_flush (fold_left collapse_step l st)) q =
  delta_upto (collapse_flush st) q + delta_upto l q.
Proof.
  induction l as [|e l IH]; intros st q; simpl.
  - change (delta_upto [] q) with 0. lia.
  - rewrite IH, collapse_step_delta.
    change (delta_upto (e :: l) q)
      with ((if fst e <=? q then snd e else 0) + delta_upto l q).
    lia.
Qed.

Lemma collapse_step_ok : forall st e,
  buf_ok (collapse_flush st) = true -> pos_ok e = true ->
  buf_ok (collapse_flush (collapse_step st e)) = true.
Proof.
  intros [[lo ac] out] [p d] H He.
  unfold collapse_step, collapse_flush in *; simpl in *.
  apply buf_ok_Forall in H. apply Forall_app in H; destruct H as [Ho Hl].
  inversion Hl as [|? ? Hlo _]; subst; simpl in Hlo.
  assert (Hp : 0 <= p < two32).
  { unfold pos_ok in He; simpl in He.
    rewrite andb_true_iff, Z.leb_le, Z.ltb_lt in He; exact He. }
  destruct (Z.eqb_spec p lo); simpl;
    [|destruct (Z.eqb_spec ac 0); simpl];
    apply buf_ok_Forall; repeat (apply Forall_app; split); auto;
    repeat constructor; simpl; lia.
Qed.

Lemma collapse_fold_ok : forall l st,
  buf_ok (collapse_flush st) = true -> buf_ok l = true ->
  buf_ok (collapse_flush (fold_left collapse_step l st)) = true.
Proof.
  induction l as [|e l IH]; intros st Hs Hl; simpl; auto.
  simpl in Hl. apply andb_true_iff in Hl; destruct Hl as [He Hl].
  apply IH; auto. apply collapse_step_ok; auto.
Qed.

(** Compaction keeps the depth of every position. *)
Lemma collapse_temp_buf_equiv : forall l, buf_equiv (collapse_temp_buf l) l.
Proof.
  intros l q. rewrite collapse_temp_buf_flush, collapse_fold_delta, delta_upto_sort.
  change (delta_upto (collapse_flush (0, 0, [])) q)
    with ((if 0 <=? q then 0 else 0) + 0).
  destruct (0 <=? q); lia.
Qed.

Lemma collapse_temp_buf_ok : forall l, buf_ok l = true -> buf_ok (collapse_temp_buf l) = true.
Proof.
  intros l H. rewrite collapse_temp_buf_flush. apply collapse_fold_ok.
  - reflexivity.
  - eapply buf_ok_perm; [apply std_sort_perm|exact H].
Qed.

Lemma compact_into_equiv : forall n t, buf_equiv (compact_into n t) (n ++ t).
Proof.
  intros n [|e t]; simpl.
  - rewrite app_nil_r; apply buf_equiv_refl.
  - apply buf_equiv_app; [apply buf_equiv_refl|apply collapse_temp_buf_equiv].
Qed.

Lemma compact_into_ok : forall n t,
  buf_ok n = true -> buf_ok t = true -> buf_ok (compact_into n t) = true.
Proof.
  intros n [|e t] Hn Ht; simpl; auto.
  rewrite buf_ok_app, Hn; simpl. apply collapse_temp_buf_ok; exact Ht.
Qed.

(** ** The loops over the chromosomes of a channel *)

Lemma chrvec_ok_nth : forall v,
  chrvec_ok v = true <-> (forall i, buf_ok (nth i v []) = true).
Proof.
  induction v as [|x v IH]; simpl.
  - split; auto. intros _ [|i]; reflexivity.
  - rewrite andb_true_iff, IH. split.
    + intros [Hx Hv] [|i]; auto.
    + intros H; split; [apply (H O)|intro i; apply (H (S i))].
Qed.

Lemma collapse_chan_spec : forall temp new,
  List.length temp = List.length new ->
  exists t' n',
    collapse_chan temp new = Some (t', n') /\
    List.length t' = List.length temp /\
    List.length n' = List.length new /\
    (forall i, nth i t' [] = []) /\
    (forall i, nth i n' [] = compact_into (nth i new []) (nth i temp [])).
Proof.
  induction temp as [|t temp IH]; intros [|n new] Hlen; simpl in Hlen; try discriminate.
  - exists [], []. repeat split; auto; intros [|i]; reflexivity.
  - destruct (IH new (ltac:(lia))) as (t' & n' & E & L1 & L2 & N1 & N2).
    exists ([] :: t'), (compact_into n t :: n').
    simpl. destruct t as [|e t]; rewrite E; simpl;
      (repeat split; auto; intros [|i]; auto).
Qed.

Lemma final_chan_spec : forall n new final,
  List.length new = n -> List.length final = n ->
  exists n' f',
    final_chan n new final = Some (n', f') /\
    List.length n' = n /\
    List.length f' = n /\
    (forall i, nth i n' [] = []) /\
    (forall i, (i < n)%nat -> nth i f' [] = final_buf (nth i new [])).
Proof.
  induction n as [|n IH]; intros new final Hn Hf.
  - destruct new; [|discriminate]. destruct final; [|discriminate].
    exists [], []. repeat split; auto; intros [|i]; auto; lia.
  - destruct new as [|x new]; [discriminate|].
    destruct final as [|y final]; [discriminate|].
    simpl in Hn, Hf.
    destruct (IH new final (ltac:(lia)) (ltac:(lia))) as (n' & f' & E & L1 & L2 & N1 & N2).
    exists ([] :: n'), (final_buf x :: f').
    simpl. rewrite E; simpl.
    repeat split; auto; try lia.
    + intros [|i]; auto.
    + intros [|i] Hi; auto. apply N2; lia.
Qed.

Lemma append_chan_spec : forall n a b,
  List.length a = n -> List.length b = n ->
  exists v,
    append_chan n a b = Some v /\
    List.length v = n /\
    (forall i, nth i v [] = nth i a [] ++ nth i b []).
Proof.
  induction n as [|n IH]; intros a b Ha Hb.
  - destruct a; [|discriminate]. destruct b; [|discriminate].
    exists []. repeat split; auto. intros [|i]; reflexivity.
  - destruct a as [|x a]; [discriminate|].
    destruct b as [|y b]; [discriminate|].
    simpl in Ha, Hb.
    destruct (IH a b (ltac:(lia)) (ltac:(lia))) as (v & E & L & N).
    exists ((x ++ y) :: v). simpl. rewrite E; simpl.
    repeat split; auto. intros [|i]; auto.
Qed.

Lemma vec_push_spec : forall v i es,
  (i < List.length v)%nat ->
  exists v',
    vec_push v i es = Some v' /\
    List.length v' = List.length v /\
    (forall k, nth k v' [] = if Nat.eqb i k then nth k v [] ++ es else nth k v []).
Proof.
  induction v as [|x v IH]; intros i es Hi; simpl in Hi; [lia|].
  destruct i as [|i]; simpl.
  - exists ((x ++ es) :: v). repeat split; auto. intros [|k]; reflexivity.
  - destruct (IH i es (ltac:(lia))) as (v' & E & L & N).
    exists (x :: v'). rewrite E; simpl. repeat split; auto.
    intros [|k]; simpl; auto.
Qed.

Lemma arr3_ext : forall (A : Type) (a b : arr3 A),
  (forall j, sel j a = sel j b) -> a = b.
Proof.
  intros A [a0 a1 a2] [b0 b1 b2] H.
  pose proof (H Ch0) as H0; pose proof (H Ch1) as H1; pose proof (H Ch2) as H2.
  simpl in *; congruence.
Qed.

Lemma chrvec_ext : forall v w : chrvec,
  List.length v = List.length w ->
  (forall i, (i < List.length v)%nat -> nth i v [] = nth i w []) ->
  v = w.
Proof.
  intros v w Hl Hn. apply (nth_ext v w [] []); auto.
Qed.

(** ** The operations on a well-formed map *)

Lemma wrap32_range : forall x, 0 <= wrap32 x < two32.
Proof. intro x; unfold wrap32, two32; apply Z.mod_pos_bound; lia. Qed.

Lemma frag_events_ok : forall b, buf_ok (frag_events b) = true.
Proof.
  intro b. apply buf_ok_Forall. unfold frag_events.
  apply Forall_forall. intros e He.
  apply in_flat_map in He; destruct He as (r & _ & He).
  apply in_flat_map in He; destruct He as (bl & _ & He).
  unfold block_events in He; simpl in He.
  destruct He as [He|[He|[]]]; subst e; simpl; apply wrap32_range.
Qed.

Lemma sort_and_collapse_temp_spec : forall s,
  well_formed s ->
  exists s',
    sort_and_collapse_temp s = Some s' /\
    well_formed s' /\
    chrs s' = chrs s /\
    final_is_sorted s' = final_is_sorted s /\
    chrName_vec_final s' = chrName_vec_final s /\
    frag_count s' = frag_count s /\
    (forall j i, nth i (sel j (temp_chrName_vec_new s')) [] = []) /\
    (forall j i, nth i (sel j (chrName_vec_new s')) [] =
                 compact_into (nth i (sel j (chrName_vec_new s)) [])
                              (nth i (sel j (temp_chrName_vec_new s)) [])).
Proof.
  intros s [Hsz Hpos].
  destruct (Hsz Ch0) as (F0 & N0 & T0); destruct (Hsz Ch1) as (F1 & N1 & T1);
    destruct (Hsz Ch2) as (F2 & N2 & T2); simpl in *.
  destruct (collapse_chan_spec (at0 (temp_chrName_vec_new s)) (at0 (chrName_vec_new s)))
    as (t0 & n0 & E0 & Lt0 & Ln0 & Pt0 & Pn0); [congruence|].
  destruct (collapse_chan_spec (at1 (temp_chrName_vec_new s)) (at1 (chrName_vec_new s)))
    as (t1 & n1 & E1 & Lt1 & Ln1 & Pt1 & Pn1); [congruence|].
  destruct (collapse_chan_spec (at2 (temp_chrName_vec_new s)) (at2 (chrName_vec_new s)))
    as (t2 & n2 & E2 & Lt2 & Ln2 & Pt2 & Pn2); [congruence|].
  unfold sort_and_collapse_temp. rewrite E0, E1, E2. simpl.
  eexists; split; [reflexivity|].
  split; [|repeat split; simpl; auto; intros [] i; simpl; auto].
  split.
  - intros []; simpl; repeat split; congruence.
  - intros j.
    assert (Hj : forall i, buf_ok (nth i (sel j (chrName_vec_new s)) []) = true /\
                           buf_ok (nth i (sel j (temp_chrName_vec_new s)) []) = true).
    { intro i; destruct (Hpos j) as [A B]; split; apply chrvec_ok_nth; auto. }
    split; apply chrvec_ok_nth; intro i; destruct j; simpl in *;
      rewrite ?Pn0, ?Pn1, ?Pn2, ?Pt0, ?Pt1, ?Pt2; auto;
      apply compact_into_ok; apply Hj.
Qed.

Lemma compaction_content : forall s s',
  well_formed s -> sort_and_collapse_temp s = Some s' ->
  forall j i, buf_equiv (content s' j i) (content s j i).
Proof.
  intros s s' Hwf E j i.
  destruct (sort_and_collapse_temp_spec s Hwf) as (s1 & E1 & _ & _ & _ & _ & _ & Pt & Pn).
  rewrite E in E1; inversion E1; subst s1.
  unfold content. rewrite Pt, Pn, app_nil_r. apply compact_into_equiv.
Qed.

Lemma events_for_nil : forall j i b, frag_events b = [] -> events_for j i b = [].
Proof.
  intros j i b H; unfold events_for; rewrite H.
  destruct (Nat.eqb (chr_id b) i), j, (direction b); reflexivity.
Qed.

Lemma pushed_ok : forall v v' i es,
  chrvec_ok v = true -> buf_ok es = true ->
  (forall k, nth k v' [] = if Nat.eqb i k then nth k v [] ++ es else nth k v []) ->
  chrvec_ok v' = true.
Proof.
  intros v v' i es Hv He Hn. apply chrvec_ok_nth; intro k. rewrite Hn.
  pose proof (proj1 (chrvec_ok_nth v) Hv k) as Hk.
  destruct (Nat.eqb i k); auto. rewrite buf_ok_app, Hk, He; reflexivity.
Qed.

Lemma push_blocks_spec : forall s b,
  well_formed s -> in_range (List.length (chrs s)) b ->
  exists s',
    push_blocks s b = Some s' /\
    well_formed s' /\
    chrs s' = chrs s /\
    final_is_sorted s' = final_is_sorted s /\
    chrName_vec_final s' = chrName_vec_final s /\
    chrName_vec_new s' = chrName_vec_new s /\
    (forall j i, nth i (sel j (temp_chrName_vec_new s')) [] =
                 nth i (sel j (temp_chrName_vec_new s)) [] ++ events_for j i b).
Proof.
  intros s b [Hsz Hpos] Hin. unfold push_blocks, in_range in *.
  destruct (frag_events b) as [|e es] eqn:Efe.
  - exists s. repeat split; auto; try apply Hsz; try apply Hpos.
    intros j i. rewrite events_for_nil by exact Efe. rewrite app_nil_r; reflexivity.
  - rewrite <- Efe. clear e es Efe.
    pose proof (frag_events_ok b) as Hev.
    destruct (Hsz Ch0) as (F0 & N0 & T0); destruct (Hsz Ch1) as (F1 & N1 & T1);
      destruct (Hsz Ch2) as (F2 & N2 & T2).
    destruct (Hpos Ch0) as (PN0 & PT0); destruct (Hpos Ch1) as (PN1 & PT1);
      destruct (Hpos Ch2) as (PN2 & PT2).
    simpl in *.
    destruct (vec_push_spec (at2 (temp_chrName_vec_new s)) (chr_id b) (frag_events b))
      as (v2 & E2 & L2 & P2); [lia|].
    destruct (direction b) eqn:Ed; simpl.
    + destruct (vec_push_spec (at1 (temp_chrName_vec_new s)) (chr_id b) (frag_events b))
        as (v1 & E1 & L1 & P1); [lia|].
      rewrite E1, E2. eexists; split; [reflexivity|].
      split; [split|repeat split; simpl; auto].
      * intros []; simpl; repeat split; congruence.
      * intros []; simpl; repeat split; auto;
          first [exact (pushed_ok _ _ _ _ PT1 Hev P1)
                |exact (pushed_ok _ _ _ _ PT2 Hev P2)].
      * intros [] i; simpl; unfold events_for; rewrite ?Ed, ?P1, ?P2;
          destruct (Nat.eqb (chr_id b) i); rewrite ?app_nil_r; reflexivity.
    + destruct (vec_push_spec (at0 (temp_chrName_vec_new s)) (chr_id b) (frag_events b))
        as (v0 & E0 & L0 & P0); [lia|].
      rewrite E0, E2. eexists; split; [reflexivity|].
      split; [split|repeat split; simpl; auto].
      * intros []; simpl; repeat split; congruence.
      * intros []; simpl; repeat split; auto;
          first [exact (pushed_ok _ _ _ _ PT0 Hev P0)
                |exact (pushed_ok _ _ _ _ PT2 Hev P2)].
      * intros [] i; simpl; unfold events_for; rewrite ?Ed, ?P0, ?P2;
          destruct (Nat.eqb (chr_id b) i); rewrite ?app_nil_r; reflexivity.
Qed.

Lemma push_blocks_content : forall s s' b,
  well_formed s -> in_range (List.length (chrs s)) b ->
  push_blocks s b = Some s' ->
  forall j i, content s' j i = content s j i ++ events_for j i b.
Proof.
  intros s s' b Hwf Hin E j i.
  destruct (push_blocks_spec s b Hwf Hin) as (s1 & E1 & _ & _ & _ & _ & Hn & Ht).
  rewrite E in E1; inversion E1; subst s1.
  unfold content. rewrite Hn, Ht, app_assoc. reflexivity.
Qed.

Lemma ProcessBlocks_spec : forall s b,
  well_formed s -> in_range (List.length (chrs s)) b ->
  exists s',
    ProcessBlocks s b = Some s' /\
    well_formed s' /\
    chrs s' = chrs s /\
    final_is_sorted s' = final_is_sorted s /\
    chrName_vec_final s' = chrName_vec_final s /\
    (forall j i, buf_equiv (content s' j i) (content s j i ++ events_for j i b)).
Proof.
  intros s b Hwf Hin.
  destruct (push_blocks_spec s b Hwf Hin) as (s1 & E1 & Hwf1 & Hc & Hf & Hfin & Hn & Ht).
  pose proof (push_blocks_content s s1 b Hwf Hin E1) as Hcont.
  unfold ProcessBlocks. rewrite E1.
  set (s2 := {| chrs := chrs s1;
                chrName_vec_final := chrName_vec_final s1;
                chrName_vec_new := chrName_vec_new s1;
                temp_chrName_vec_new := temp_chrName_vec_new s1;
                frag_count := frag_count s1 + 1;
                final_is_sorted := final_is_sorted s1 |}).
  assert (Hwf2 : well_formed s2) by exact Hwf1.
  assert (Hc2 : forall j i, content s2 j i = content s1 j i) by reflexivity.
  destruct (frag_count s2 mod 1000000 =? 0).
  - destruct (sort_and_collapse_temp_spec s2 Hwf2)
      as (s3 & E3 & Hwf3 & Hc3 & Hf3 & Hfin3 & _ & _ & _).
    exists s3. repeat split; auto; try apply Hwf3; simpl in *; try congruence.
    intros j i. eapply buf_equiv_trans.
    + apply (compaction_content s2 s3 Hwf2 E3).
    + rewrite Hc2, Hcont. apply buf_equiv_refl.
  - exists s2. repeat split; auto; try apply Hwf2.
    intros j i. rewrite Hc2, Hcont. apply buf_equiv_refl.
Qed.

Lemma run_spec : forall ops s,
  well_formed s ->
  Forall (in_range (List.length (chrs s))) (ingested ops) ->
  exists s',
    run ops s = Some s' /\
    well_formed s' /\
    chrs s' = chrs s /\
    final_is_sorted s' = final_is_sorted s /\
    chrName_vec_final s' = chrName_vec_final s /\
    (forall j i, buf_equiv (content s' j i)
                           (content s j i ++ flat_map (events_for j i) (ingested ops))).
Proof.
  induction ops as [|o ops IH]; intros s Hwf Hin.
  - exists s. repeat split; auto; try apply Hwf.
    intros j i; simpl. rewrite app_nil_r. apply buf_equiv_refl.
  - destruct o as [b|]; simpl in *.
    + inversion Hin as [|? ? Hb Hrest]; subst.
      destruct (ProcessBlocks_spec s b Hwf Hb) as (s1 & E1 & Hwf1 & Hc1 & Hf1 & Hfin1 & Hcont1).
      rewrite E1. rewrite <- Hc1 in Hrest.
      destruct (IH s1 Hwf1 Hrest) as (s2 & E2 & Hwf2 & Hc2 & Hf2 & Hfin2 & Hcont2).
      exists s2. repeat split; auto; try apply Hwf2; try congruence.
      intros j i. eapply buf_equiv_trans; [apply Hcont2|].
      rewrite app_assoc. apply buf_equiv_app; [apply Hcont1|apply buf_equiv_refl].
    + destruct (sort_and_collapse_temp_spec s Hwf)
        as (s1 & E1 & Hwf1 & Hc1 & Hf1 & Hfin1 & _ & _ & _).
      rewrite E1. rewrite <- Hc1 in Hin.
      destruct (IH s1 Hwf1 Hin) as (s2 & E2 & Hwf2 & Hc2 & Hf2 & Hfin2 & Hcont2).
      exists s2. repeat split; auto; try apply Hwf2; try congruence.
      intros j i. eapply buf_equiv_trans; [apply Hcont2|].
      apply buf_equiv_app; [|apply buf_equiv_refl].
      apply (compaction_content s s1 Hwf E1).
Qed.

Lemma ingest_only_spec : forall fs s,
  well_formed s ->
  Forall (in_range (List.length (chrs s))) fs ->
  exists s',
    ingest_only fs s = Some s' /\
    well_formed s' /\
    chrs s' = chrs s /\
    final_is_sorted s' = final_is_sorted s /\
    (forall j i, content s' j i = content s j i ++ flat_map (events_for j i) fs).
Proof.
  induction fs as [|b fs IH]; intros s Hwf Hin.
  - exists s. repeat split; auto; try apply Hwf.
    intros j i; simpl. rewrite app_nil_r. reflexivity.
  - inversion Hin as [|? ? Hb Hrest]; subst. simpl.
    destruct (push_blocks_spec s b Hwf Hb) as (s1 & E1 & Hwf1 & Hc1 & Hf1 & _ & _ & _).
    pose proof (push_blocks_content s s1 b Hwf Hb E1) as Hcont1.
    rewrite E1. rewrite <- Hc1 in Hrest.
    destruct (IH s1 Hwf1 Hrest) as (s2 & E2 & Hwf2 & Hc2 & Hf2 & Hcont2).
    exists s2. repeat split; auto; try apply Hwf2; try congruence.
    intros j i. rewrite Hcont2, Hcont1, app_assoc. reflexivity.
Qed.

Lemma content_ok : forall s j i, well_formed s -> buf_ok (content s j i) = true.
Proof.
  intros s j i [_ Hpos]. destruct (Hpos j) as [Hn Ht].
  unfold content. rewrite buf_ok_app.
  rewrite (proj1 (chrvec_ok_nth _) Hn i), (proj1 (chrvec_ok_nth _) Ht i). reflexivity.
Qed.

Lemma sort_and_collapse_final_spec : forall s,
  well_formed s -> final_is_sorted s = false ->
  exists s',
    sort_and_collapse_final s = Some s' /\
    final_is_sorted s' = true /\
    chrs s' = chrs s /\
    (forall j, List.length (sel j (chrName_vec_final s')) = List.length (chrs s)) /\
    (forall j i, (i < List.length (chrs s))%nat ->
                 nth i (sel j (chrName_vec_final s')) [] = final_buf (content s j i)).
Proof.
  intros s Hwf Hfis.
  destruct (sort_and_collapse_temp_spec s Hwf)
    as (s1 & E1 & [Hsz1 Hpos1] & Hc1 & Hf1 & Hfin1 & _ & Pt & Pn).
  unfold sort_and_collapse_final. rewrite Hfis, E1.
  destruct (Hsz1 Ch0) as (F0 & N0 & T0); destruct (Hsz1 Ch1) as (F1 & N1 & T1);
    destruct (Hsz1 Ch2) as (F2 & N2 & T2); simpl in *.
  destruct (final_chan_spec (List.length (chrs s1)) _ _ N0 F0) as (n0 & f0 & E0 & _ & L0 & _ & P0).
  destruct (final_chan_spec (List.length (chrs s1)) _ _ N1 F1) as (n1 & f1 & E1' & _ & L1 & _ & P1).
  destruct (final_chan_spec (List.length (chrs s1)) _ _ N2 F2) as (n2 & f2 & E2 & _ & L2 & _ & P2).
  rewrite E0, E1', E2. simpl.
  eexists; split; [reflexivity|]. simpl.
  split; [reflexivity|]. split; [exact Hc1|].
  split; [intros []; simpl; congruence|].
  intros j i Hi.
  assert (Hfb : final_buf (nth i (sel j (chrName_vec_new s1)) []) = final_buf (content s j i)).
  { apply final_buf_ext.
    - destruct (Hpos1 j) as [Hn _]. apply chrvec_ok_nth; exact Hn.
    - apply content_ok; exact Hwf.
    - intros q _. rewrite Pn. apply compact_into_equiv. }
  rewrite <- Hfb. rewrite <- Hc1 in Hi.
  destruct j; simpl; [apply P0|apply P1|apply P2]; exact Hi.
Qed.

(** Two well-formed accumulating maps that hold, for every channel and
    chromosome, deltas giving the same depths, finalise to the same
    run-length sequences. *)
Lemma finalize_equiv : forall s1 s2,
  well_formed s1 -> well_formed s2 ->
  final_is_sorted s1 = false -> final_is_sorted s2 = false ->
  List.length (chrs s1) = List.length (chrs s2) ->
  (forall j i, buf_equiv (content s1 j i) (content s2 j i)) ->
  exists f1 f2,
    sort_and_collapse_final s1 = Some f1 /\
    sort_and_collapse_final s2 = Some f2 /\
    chrName_vec_final f1 = chrName_vec_final f2.
Proof.
  intros s1 s2 W1 W2 A1 A2 Hlen Heq.
  destruct (sort_and_collapse_final_spec s1 W1 A1) as (f1 & E1 & _ & _ & L1 & P1).
  destruct (sort_and_collapse_final_spec s2 W2 A2) as (f2 & E2 & _ & _ & L2 & P2).
  exists f1, f2. repeat split; auto.
  apply arr3_ext; intro j. apply chrvec_ext.
  - rewrite L1, L2; exact Hlen.
  - intros i Hi. rewrite L1 in Hi. rewrite P1 by exact Hi.
    rewrite P2 by (rewrite <- Hlen; exact Hi).
    apply final_buf_ext; try (apply content_ok; assumption).
    intros q _. apply Heq.
Qed.

Lemma Combine_accumulating_spec : forall s c,
  well_formed s -> well_formed c ->
  List.length (chrs s) = List.length (chrs c) ->
  final_is_sorted s = false -> final_is_sorted c = false ->
  exists s' c',
    Combine s c = Some (s', c') /\
    well_formed s' /\
    chrs s' = chrs s /\
    final_is_sorted s' = false /\
    (forall j i, buf_equiv (content s' j i) (content s j i ++ content c j i)).
Proof.
  intros s c Ws Wc Hlen As Ac.
  destruct (sort_and_collapse_temp_spec s Ws)
    as (s1 & Es & Ws1 & Hcs & Hfs & _ & _ & Pts & Pns).
  destruct (sort_and_collapse_temp_spec c Wc)
    as (c1 & Ec & Wc1 & Hcc & Hfc & _ & _ & Ptc & Pnc).
  pose proof (compaction_content s s1 Ws Es) as Cs.
  pose proof (compaction_content c c1 Wc Ec) as Cc.
  unfold Combine. rewrite Es, Ec, Hfs, Hfc, As, Ac. simpl.
  destruct Ws1 as [Sz1 Po1]. destruct Wc1 as [Szc Poc].
  assert (Hn : forall j, exists v,
             append_chan (List.length (chrs s1)) (sel j (chrName_vec_new s1))
                         (sel j (chrName_vec_new c1)) = Some v /\
             List.length v = List.length (chrs s1) /\
             (forall i, nth i v [] = nth i (sel j (chrName_vec_new s1)) [] ++
                                     nth i (sel j (chrName_vec_new c1)) [])).
  { intro j. apply append_chan_spec.
    - apply (Sz1 j).
    - destruct (Szc j) as (_ & N & _). rewrite N. congruence. }
  destruct (Hn Ch0) as (v0 & E0 & L0 & P0).
  destruct (Hn Ch1) as (v1 & E1 & L1 & P1).
  destruct (Hn Ch2) as (v2 & E2 & L2 & P2).
  simpl in E0, E1, E2. unfold append_arr. rewrite E0, E1, E2.
  eexists; eexists; split; [reflexivity|].
  assert (Hv : forall j i, nth i (sel j (Arr3 v0 v1 v2)) [] =
                           nth i (sel j (chrName_vec_new s1)) [] ++
                           nth i (sel j (chrName_vec_new c1)) []).
  { intros [] i; simpl; auto. }
  split; [split|split; [exact Hcs|split; [simpl; congruence|]]].
  - intros j; simpl. destruct (Sz1 j) as (F & N & T).
    repeat split; auto. destruct j; simpl; auto.
  - intros j; simpl. destruct (Po1 j) as (N & T). split; auto.
    apply chrvec_ok_nth; intro i. rewrite Hv, buf_ok_app.
    rewrite (proj1 (chrvec_ok_nth _) N i).
    destruct (Poc j) as (Nc & _).
    rewrite (proj1 (chrvec_ok_nth _) Nc i). reflexivity.
  - intros j i. unfold content at 1; simpl. rewrite Hv, Pts, app_nil_r.
    apply buf_equiv_app.
    + eapply buf_equiv_trans; [|apply Cs]. unfold content. rewrite Pts, app_nil_r.
      apply buf_equiv_refl.
    + eapply buf_equiv_trans; [|apply Cc]. unfold content. rewrite Ptc, app_nil_r.
      apply buf_equiv_refl.
Qed.

Lemma nth_repeat_empty_vector : forall n i,
  nth i (repeat empty_vector n) [] = empty_vector \/ nth i (repeat empty_vector n) [] = [].
Proof.
  induction n as [|n IH]; intros [|i]; simpl; auto.
Qed.

Lemma new_map_well_formed : forall chrmap fc, well_formed (new_map chrmap fc).
Proof.
  intros chrmap fc; split.
  - intros []; simpl; rewrite repeat_length; auto.
  - intros j. assert (H : chrvec_ok (repeat empty_vector (List.length chrmap)) = true).
    { apply chrvec_ok_nth; intro i.
      destruct (nth_repeat_empty_vector (List.length chrmap) i) as [E|E]; rewrite E; reflexivity. }
    destruct j; simpl; auto.
Qed.

Lemma new_map_content : forall chrmap fc j i, buf_equiv (content (new_map chrmap fc) j i) [].
Proof.
  intros chrmap fc j i q. unfold content.
  assert (H : forall k, delta_upto (nth k (repeat empty_vector (List.length chrmap)) []) q = 0).
  { intro k. destruct (nth_repeat_empty_vector (List.length chrmap) k) as [E|E]; rewrite E.
    - unfold delta_upto; simpl. destruct (0 <=? q); reflexivity.
    - reflexivity. }
  rewrite delta_upto_app. destruct j; simpl; rewrite !H; reflexivity.
Qed.

Lemma built_map_spec : forall chrmap fc ops,
  Forall (in_range (List.length chrmap)) (ingested ops) ->
  exists s,
    run ops (new_map chrmap fc) = Some s /\
    well_formed s /\
    final_is_sorted s = false /\
    List.length (chrs s) = List.length chrmap /\
    (forall j i, buf_equiv (content s j i) (flat_map (events_for j i) (ingested ops))).
Proof.
  intros chrmap fc ops Hin.
  destruct (run_spec ops (new_map chrmap fc) (new_map_well_formed chrmap fc))
    as (s & E & W & Hc & Hf & _ & Hcont); [exact Hin|].
  exists s. repeat split; auto; try apply W.
  - rewrite Hc; reflexivity.
  - intros j i. eapply buf_equiv_trans; [apply Hcont|].
    change (flat_map (events_for j i) (ingested ops))
      with ([] ++ flat_map (events_for j i) (ingested ops)) at 2.
    apply buf_equiv_app; [apply new_map_content|apply buf_equiv_refl].
Qed.

(** A chromosome that receives no fragment finalises, on every channel, to
    the empty coverage [(0,0)]. *)
Lemma fragmentless_chromosome_sequence : forall chrmap fc ops i,
  Forall (in_range (List.length chrmap)) (ingested ops) ->
  (i < List.length chrmap)%nat ->
  Forall (fun b => chr_id b <> i) (ingested ops) ->
  exists s fm,
    run ops (new_map chrmap fc) = Some s /\
    sort_and_collapse_final s = Some fm /\
    forall j, nth_error (sel j (chrName_vec_final fm)) i = Some [(0, 0)].
Proof.
  intros chrmap fc ops i Hin Hi Hno.
  destruct (built_map_spec chrmap fc ops Hin) as (s & E & W & F & L & C).
  destruct (sort_and_collapse_final_spec s W F) as (fm & Ef & _ & _ & Lf & Pf).
  exists s, fm. split; [exact E|]. split; [exact Ef|]. intro j.
  assert (Hn : nth_error (sel j (chrName_vec_final fm)) i =
               Some (nth i (sel j (chrName_vec_final fm)) [])).
  { apply nth_error_nth'. rewrite Lf, L; exact Hi. }
  rewrite Hn.
  rewrite Pf by (rewrite L; exact Hi). f_equal.
  apply final_buf_no_coverage; [apply content_ok; exact W|].
  eapply buf_equiv_trans; [apply C|].
  assert (Hnil : flat_map (events_for j i) (ingested ops) = []).
  { clear - Hno. induction Hno as [|b l Hb _ IH]; [reflexivity|].
    simpl. rewrite IH, app_nil_r. unfold events_for.
    destruct (Nat.eqb_spec (chr_id b) i); [contradiction|reflexivity]. }
  rewrite Hnil. apply buf_equiv_refl.
Qed.

(** ** Claims on the coverage map *)

(** C1.  Two maps in accumulating mode built from fragment lists [A] and
    [B], merged with [Combine] and then finalised, hold for every channel and
    chromosome the same run-length sequence as one finalised map built from
    any arrangement of the fragments of [A] and [B] together; the compaction
    points of the three builds are arbitrary. *)
Theorem combine_then_finalize_is_union :
  forall chrmap fcA fcB fcU opsA opsB opsU,
    Forall (in_range (List.length chrmap)) (ingested opsA) ->
    Forall (in_range (List.length chrmap)) (ingested opsB) ->
    Permutation (ingested opsU) (ingested opsA ++ ingested opsB) ->
    exists a b u m c fm fu,
      run opsA (new_map chrmap fcA) = Some a /\
      run opsB (new_map chrmap fcB) = Some b /\
      run opsU (new_map chrmap fcU) = Some u /\
      final_is_sorted a = false /\ final_is_sorted b = false /\
      Combine a b = Some (m, c) /\
      sort_and_collapse_final m = Some fm /\
      sort_and_collapse_final u = Some fu /\
      chrName_vec_final fm = chrName_vec_final fu.
Proof.
  intros chrmap fcA fcB fcU opsA opsB opsU HA HB HP.
  assert (HU : Forall (in_range (List.length chrmap)) (ingested opsU)).
  { eapply Permutation_Forall; [apply Permutation_sym; exact HP|].
    apply Forall_app; split; assumption. }
  destruct (built_map_spec chrmap fcA opsA HA) as (a & Ea & Wa & Fa & La & Ca).
  destruct (built_map_spec chrmap fcB opsB HB) as (b & Eb & Wb & Fb & Lb & Cb).
  destruct (built_map_spec chrmap fcU opsU HU) as (u & Eu & Wu & Fu & Lu & Cu).
  destruct (Combine_accumulating_spec a b Wa Wb (ltac:(congruence)) Fa Fb)
    as (m & c & Em & Wm & Hcm & Fm & Cm).
  destruct (finalize_equiv m u Wm Wu Fm Fu (ltac:(congruence))) as (fm & fu & E1 & E2 & E3).
  - intros j i. eapply buf_equiv_trans; [apply Cm|].
    eapply buf_equiv_trans; [apply buf_equiv_app; [apply Ca|apply Cb]|].
    apply buf_equiv_sym. eapply buf_equiv_trans; [apply Cu|].
    intro q. rewrite <- flat_map_app.
    apply delta_upto_perm. apply Permutation_flat_map. exact HP.
  - exists a, b, u, m, c, fm, fu. repeat split; assumption.
Qed.

(** C2.  After finalisation of a well-formed map in accumulating mode, the
    run-length sequence of every channel and chromosome has strictly
    increasing positions and no two consecutive entries of equal depth. *)
Theorem finalized_sequences_canonical :
  forall s,
    well_formed s -> final_is_sorted s = false ->
    exists s',
      sort_and_collapse_final s = Some s' /\
      forall j i segs,
        nth_error (sel j (chrName_vec_final s')) i = Some segs ->
        run_length_canonical segs.
Proof.
  intros s W A.
  destruct (sort_and_collapse_final_spec s W A) as (s' & E & _ & _ & L & P).
  exists s'. split; [exact E|].
  intros j i segs Hn.
  assert (Hi : (i < List.length (chrs s))%nat).
  { rewrite <- (L j). apply nth_error_Some. congruence. }
  apply (nth_error_nth _ _ []) in Hn. rewrite P in Hn by exact Hi. subst segs.
  apply chain_canonical.
  apply (final_buf_spec (content s j i) (content_ok s j i W)).
Qed.

(** C3.  Whatever the points at which compaction runs during ingest (those
    of [ProcessBlocks] itself and any explicit ones), finalisation yields the
    run-length sequences, and so the histogram query results, of the same
    fragments ingested without any compaction. *)
Theorem compaction_is_unobservable :
  forall s ops,
    well_formed s -> final_is_sorted s = false ->
    Forall (in_range (List.length (chrs s))) (ingested ops) ->
    exists a b fa fb,
      run ops s = Some a /\
      ingest_only (ingested ops) s = Some b /\
      sort_and_collapse_final a = Some fa /\
      sort_and_collapse_final b = Some fb /\
      chrName_vec_final fa = chrName_vec_final fb /\
      forall h start end_ dir refID,
        updateCoverageHist fa h start end_ dir refID =
        updateCoverageHist fb h start end_ dir refID.
Proof.
  intros s ops W A Hin.
  destruct (run_spec ops s W Hin) as (a & Ea & Wa & Hca & Hfa & _ & Ca).
  destruct (ingest_only_spec (ingested ops) s W Hin) as (b & Eb & Wb & Hcb & Hfb & Cb).
  destruct (finalize_equiv a b Wa Wb (ltac:(congruence)) (ltac:(congruence))
                           (ltac:(congruence))) as (fa & fb & E1 & E2 & E3).
  - intros j i. rewrite Cb. apply Ca.
  - exists a, b, fa, fb. repeat split; auto.
    intros h start end_ dir refID. unfold updateCoverageHist. rewrite E3. reflexivity.
Qed.

Example demo_final_unstranded :
  sel Ch2 (chrName_vec_final demo_final) =
  [ [(0, 0); (100, 1); (150, 2); (200, 0)]; [(0, 0)] ].
Proof. reflexivity. Qed.

Example demo_histogram :
  fillHist demo_final [] 0 [(100, 200)] Ch2 = [(1, 50); (2, 50)] /\
  meanFromHist [(1, 50); (2, 50)] = quotient 150 100 /\
  dbl_value (meanFromHist [(1, 50); (2, 50)]) = 1.5%float.
Proof. repeat split; vm_compute; reflexivity. Qed.

Lemma combine_then_finalize_is_union_witness :
  Forall (in_range (List.length chr_demo)) (ingested [Ingest frag_a; Compact]) /\
  Forall (in_range (List.length chr_demo)) (ingested [Ingest frag_b]) /\
  Permutation (ingested [Ingest frag_b; Ingest frag_a])
              (ingested [Ingest frag_a; Compact] ++ ingested [Ingest frag_b]) /\
  exists a b u m c fm fu,
    run [Ingest frag_a; Compact] (new_map chr_demo 0) = Some a /\
    run [Ingest frag_b] (new_map chr_demo 999999) = Some b /\
    run [Ingest frag_b; Ingest frag_a] (new_map chr_demo 5) = Some u /\
    final_is_sorted a = false /\ final_is_sorted b = false /\
    Combine a b = Some (m, c) /\
    sort_and_collapse_final m = Some fm /\
    sort_and_collapse_final u = Some fu /\
    chrName_vec_final fm = chrName_vec_final fu.
Proof.
  assert (HA : Forall (in_range (List.length chr_demo)) (ingested [Ingest frag_a; Compact])).
  { repeat constructor. }
  assert (HB : Forall (in_range (List.length chr_demo)) (ingested [Ingest frag_b])).
  { repeat constructor. }
  assert (HP : Permutation (ingested [Ingest frag_b; Ingest frag_a])
                           (ingested [Ingest frag_a; Compact] ++ ingested [Ingest frag_b])).
  { simpl. apply perm_swap. }
  split; [exact HA|split; [exact HB|split; [exact HP|]]].
  exact (combine_then_finalize_is_union chr_demo 0 999999 5
           [Ingest frag_a; Compact] [Ingest frag_b] [Ingest frag_b; Ingest frag_a]
           HA HB HP).
Defined.

Lemma finalized_sequences_canonical_witness :
  well_formed demo_accum /\ final_is_sorted demo_accum = false /\
  exists s',
    sort_and_collapse_final demo_accum = Some s' /\
    forall j i segs,
      nth_error (sel j (chrName_vec_final s')) i = Some segs ->
      run_length_canonical segs.
Proof.
  assert (W : well_formed demo_accum) by well_formed_by_computation.
  split; [exact W|split; [reflexivity|]].
  exact (finalized_sequences_canonical demo_accum W eq_refl).
Defined.

Lemma compaction_is_unobservable_witness :
  well_formed (new_map chr_demo 999999) /\
  final_is_sorted (new_map chr_demo 999999) = false /\
  Forall (in_range (List.length (chrs (new_map chr_demo 999999))))
         (ingested [Ingest frag_a; Compact; Ingest frag_b]) /\
  exists a b fa fb,
    run [Ingest frag_a; Compact; Ingest frag_b] (new_map chr_demo 999999) = Some a /\
    ingest_only (ingested [Ingest frag_a; Compact; Ingest frag_b])
                (new_map chr_demo 999999) = Some b /\
    sort_and_collapse_final a = Some fa /\
    sort_and_collapse_final b = Some fb /\
    chrName_vec_final fa = chrName_vec_final fb /\
    forall h start end_ dir refID,
      updateCoverageHist fa h start end_ dir refID =
      updateCoverageHist fb h start end_ dir refID.
Proof.
  assert (W : well_formed (new_map chr_demo 999999)) by well_formed_by_computation.
  assert (HI : Forall (in_range (List.length (chrs (new_map chr_demo 999999))))
                      (ingested [Ingest frag_a; Compact; Ingest frag_b])).
  { repeat constructor. }
  split; [exact W|split; [reflexivity|split; [exact HI|]]].
  exact (compaction_is_unobservable (new_map chr_demo 999999)
           [Ingest frag_a; Compact; Ingest frag_b] W eq_refl HI).
Defined.

(** C7.  The code does not do what the claim asks for.  On two finalised
    maps [Combine] returns normally: it lays the two finalised sequences of
    every chromosome end to end, which is not the sequence of the fragments
    of both maps, and puts the parent back in accumulating mode, so that the
    next finalisation replaces every sequence by the empty coverage
    [(0,0)].  On a finalised parent and an accumulating child it returns
    normally too and merges nothing. *)
Lemma Combine_of_finalized_maps_returns :
  final_is_sorted demo_final = true /\
  final_is_sorted demo_child_final = true /\
  option_map (fun r => sel Ch2 (chrName_vec_final (fst r)))
             (Combine demo_final demo_child_final) =
  Some [ [(0, 0); (100, 1); (150, 2); (200, 0); (0, 0)];
         [(0, 0); (0, 0); (10, 1); (15, 0)] ] /\
  option_map (fun s => sel Ch2 (chrName_vec_final s))
             (sort_and_collapse_final
                (built (ingest_only [frag_a; frag_b; frag_c] (new_map chr_demo 0)))) =
  Some [ [(0, 0); (100, 1); (150, 2); (200, 0)];
         [(0, 0); (10, 1); (15, 0)] ] /\
  option_map (fun r => final_is_sorted (fst r))
             (Combine demo_final demo_child_final) = Some false /\
  option_map (fun s => sel Ch2 (chrName_vec_final s))
             (match Combine demo_final demo_child_final with
              | Some r => sort_and_collapse_final (fst r)
              | None => None
              end) =
  Some [ [(0, 0)]; [(0, 0)] ] /\
  option_map (fun r => sel Ch2 (chrName_vec_final (fst r)))
             (Combine demo_final (built (ingest_only [frag_c] (new_map chr_demo 0)))) =
  Some (sel Ch2 (chrName_vec_final demo_final)).
Proof. repeat split; reflexivity. Qed.

(** ** Histogram queries *)

Lemma hist_total_nonneg : forall h, hist_vals_ok h = true -> 0 <= hist_total h.
Proof.
  induction h as [|[k v] h IH]; simpl; intro H; [lia|].
  apply andb_true_iff in H; destruct H as [Hv Hh].
  rewrite andb_true_iff, Z.leb_le, Z.ltb_lt in Hv. simpl in Hv.
  specialize (IH Hh). unfold hist_total in *; simpl; lia.
Qed.

Lemma wrap32_small : forall x, 0 <= x < two32 -> wrap32 x = x.
Proof. intros x H; unfold wrap32; apply Z.mod_small; exact H. Qed.

(** Without wrap-around, [hist[k] += n] adds [n] to the number of bases. *)
Lemma hist_add_total : forall h k n,
  hist_vals_ok h = true -> 0 <= n -> hist_total h + n < two32 ->
  hist_total (hist_add k n h) = hist_total h + n /\
  hist_vals_ok (hist_add k n h) = true.
Proof.
  induction h as [|[k' v] h IH]; intros k n Hok Hn Hlt.
  - simpl in *. unfold hist_total in *; simpl in *.
    rewrite wrap32_small by lia. split; [lia|].
    rewrite andb_true_r, andb_true_iff, Z.leb_le, Z.ltb_lt. lia.
  - pose proof Hok as Hok'. simpl in Hok'.
    apply andb_true_iff in Hok'; destruct Hok' as [Hv Hh].
    rewrite andb_true_iff, Z.leb_le, Z.ltb_lt in Hv; simpl in Hv.
    pose proof (hist_total_nonneg h Hh) as Hpos.
    assert (Ht : hist_total ((k', v) :: h) = v + hist_total h) by reflexivity.
    rewrite Ht in Hlt. simpl.
    destruct (k <? k').
    + change (hist_total ((k, wrap32 n) :: (k', v) :: h))
        with (wrap32 n + (v + hist_total h)).
      rewrite wrap32_small by lia. split; [lia|].
      simpl. rewrite Hh.
      repeat (rewrite ?andb_true_iff, ?Z.leb_le, ?Z.ltb_lt); simpl; lia.
    + destruct (k =? k').
      * change (hist_total ((k, wrap32 (v + n)) :: h))
          with (wrap32 (v + n) + hist_total h).
        rewrite wrap32_small by lia. split; [lia|].
        simpl. rewrite Hh.
        repeat (rewrite ?andb_true_iff, ?Z.leb_le, ?Z.ltb_lt); simpl; lia.
      * destruct (IH k n Hh Hn (ltac:(lia))) as [E O].
        change (hist_total ((k', v) :: hist_add k n h))
          with (v + hist_total (hist_add k n h)).
        rewrite E. split; [lia|].
        simpl. rewrite O.
        repeat (rewrite ?andb_true_iff, ?Z.leb_le, ?Z.ltb_lt); simpl; lia.
Qed.

Lemma wrap32_idem : forall x, wrap32 (wrap32 x) = wrap32 x.
Proof. intro x; unfold wrap32, two32; apply Z.mod_mod; lia. Qed.

Lemma wrap32_add_l : forall a a' b,
  wrap32 a = wrap32 a' -> wrap32 (a + b) = wrap32 (a' + b).
Proof.
  intros a a' b H; unfold wrap32 in *.
  rewrite <- (Z.add_mod_idemp_l a), H, Z.add_mod_idemp_l; unfold two32; auto; lia.
Qed.

Lemma wrap32_add_r : forall a b b',
  wrap32 b = wrap32 b' -> wrap32 (a + b) = wrap32 (a + b').
Proof.
  intros a b b' H. rewrite (Z.add_comm a b), (Z.add_comm a b').
  apply wrap32_add_l; exact H.
Qed.

(** Modulo 2^32, [hist[k] += n] adds [n] to the number of bases. *)
Lemma hist_add_total_mod : forall h k n,
  wrap32 (hist_total (hist_add k n h)) = wrap32 (hist_total h + n).
Proof.
  induction h as [|[k' v] h IH]; intros k n.
  - unfold hist_total; simpl. rewrite Z.add_0_r. apply wrap32_idem.
  - cbn [hist_add].
    change (hist_total ((k', v) :: h)) with (v + hist_total h).
    destruct (k <? k').
    + change (hist_total ((k, wrap32 n) :: (k', v) :: h))
        with (wrap32 n + (v + hist_total h)).
      rewrite (Z.add_comm (v + hist_total h) n).
      apply wrap32_add_l. apply wrap32_idem.
    + destruct (k =? k').
      * change (hist_total ((k, wrap32 (v + n)) :: h))
          with (wrap32 (v + n) + hist_total h).
        replace (v + hist_total h + n) with (v + n + hist_total h) by lia.
        apply wrap32_add_l. apply wrap32_idem.
      * change (hist_total ((k', v) :: hist_add k n h))
          with (v + hist_total (hist_add k n h)).
        replace (v + hist_total h + n) with (v + (hist_total h + n)) by lia.
        apply wrap32_add_r. apply IH.
Qed.

Lemma walk_forward_total_mod : forall segs cursor d end_ h,
  wrap32 (hist_total (walk_forward segs cursor d end_ h)) =
  wrap32 (hist_total h + Z.max 0 (end_ - cursor)).
Proof.
  induction segs as [|[p d'] segs IH]; intros cursor d end_ h; cbn [walk_forward fst snd].
  - destruct (Z.ltb_spec cursor end_).
    + rewrite hist_add_total_mod. apply wrap32_add_r.
      rewrite wrap32_idem. f_equal. lia.
    + f_equal. lia.
  - destruct (Z.ltb_spec cursor end_); [|f_equal; lia].
    destruct (Z.leb_spec p cursor); [apply IH|].
    rewrite IH.
    replace (hist_total h + Z.max 0 (end_ - cursor))
      with (hist_total h + (Z.min p end_ - cursor) + Z.max 0 (end_ - p)) by lia.
    apply wrap32_add_l. rewrite hist_add_total_mod.
    apply wrap32_add_r. apply wrap32_idem.
Qed.

Lemma walk_forward_total : forall segs cursor d end_ h,
  hist_vals_ok h = true -> 0 <= cursor -> end_ < two32 ->
  hist_total h + Z.max 0 (end_ - cursor) < two32 ->
  hist_total (walk_forward segs cursor d end_ h) = hist_total h + Z.max 0 (end_ - cursor).
Proof.
  induction segs as [|[p d'] segs IH]; intros cursor d end_ h Hok Hc He Hlt; simpl.
  - destruct (Z.ltb_spec cursor end_); [|lia].
    rewrite (wrap32_small (end_ - cursor)) by lia.
    destruct (hist_add_total h (wrap32 d) (end_ - cursor) Hok) as [E _]; lia.
  - destruct (Z.ltb_spec cursor end_); [|lia].
    destruct (Z.leb_spec p cursor).
    + rewrite IH; auto.
    + rewrite (wrap32_small (Z.min p end_ - cursor)) by lia.
      destruct (hist_add_total h (wrap32 d) (Z.min p end_ - cursor) Hok) as [E O]; try lia.
      rewrite IH; auto; try lia.
Qed.

(** The fuel of [upper_bound_loop] never runs out: any amount of at least
    [len] gives the same index. *)
Lemma upper_bound_loop_fuel : forall it_chr start fuel fuel' first len,
  (len <= fuel)%nat -> (len <= fuel')%nat ->
  upper_bound_loop fuel it_chr start first len =
  upper_bound_loop fuel' it_chr start first len.
Proof.
  intros it_chr start. induction fuel as [|fuel IH]; intros fuel' first len H H'.
  - assert (len = O) by lia. subst len. destruct fuel'; reflexivity.
  - destruct fuel' as [|fuel'].
    + assert (len = O) by lia. subst len. reflexivity.
    + cbn [upper_bound_loop]. destruct len as [|len']; [reflexivity|].
      pose proof (Nat.lt_div2 (S len') ltac:(lia)) as Hhalf.
      set (half := Nat.div2 (S len')) in *. clearbody half.
      destruct (start <? fst (nth (first + half) it_chr (0, 0)));
        apply IH; lia.
Qed.

Lemma upper_bound_loop_spec : forall (it_chr : buf) start p,
  (forall i, (i < p)%nat -> fst (nth i it_chr (0, 0)) <= start) ->
  (forall i, (p <= i < List.length it_chr)%nat -> start < fst (nth i it_chr (0, 0))) ->
  forall fuel first len,
    (len <= fuel)%nat -> (first <= p <= first + len)%nat ->
    (first + len <= List.length it_chr)%nat ->
    upper_bound_loop fuel it_chr start first len = p.
Proof.
  intros it_chr start p Hlo Hhi.
  induction fuel as [|fuel IH]; intros first len Hf Hp Hl.
  - simpl. lia.
  - cbn [upper_bound_loop]. destruct len as [|len']; [lia|].
    pose proof (Nat.lt_div2 (S len') ltac:(lia)) as Hhalf.
    set (half := Nat.div2 (S len')) in *. clearbody half.
    match goal with
    | |- context [start <? ?x] => destruct (Z.ltb_spec start x) as [Hm|Hm]
    end.
    + apply IH; try lia.
      destruct (Nat.le_gt_cases p (first + half)) as [|Hgt]; [lia|].
      specialize (Hlo _ Hgt). lia.
    + apply IH; try lia.
      destruct (Nat.le_gt_cases p (first + half)) as [Hle|]; [|lia].
      specialize (Hhi (first + half)%nat ltac:(lia)). lia.
Qed.

(** [upper_bound] meets the contract of [std::upper_bound]: on a sequence
    that is partitioned at index [p], the segments before [p] at or before
    [start] and the others beyond it, the index returned is [p]. *)
Lemma upper_bound_spec : forall (it_chr : buf) start p,
  (p <= List.length it_chr)%nat ->
  (forall i, (i < p)%nat -> fst (nth i it_chr (0, 0)) <= start) ->
  (forall i, (p <= i < List.length it_chr)%nat -> start < fst (nth i it_chr (0, 0))) ->
  upper_bound it_chr start = p.
Proof.
  intros it_chr start p Hp Hlo Hhi. unfold upper_bound.
  apply (upper_bound_loop_spec it_chr start p Hlo Hhi); lia.
Qed.

(** [walk_forward] satisfies the equation of the source loop: one iteration
    runs the inner loop, charges the span up to the segment found (or up to
    [end] when there is none) and goes on from that segment. *)
Lemma walk_forward_iteration : forall segs cursor d end_ h,
  walk_forward segs cursor d end_ h =
  if cursor <? end_ then
    match skip_upto segs cursor with
    | [] => hist_add (wrap32 d) (wrap32 (end_ - cursor)) h
    | it_pos :: rest =>
      walk_forward (it_pos :: rest) (fst it_pos) (snd it_pos) end_
        (hist_add (wrap32 d) (wrap32 (Z.min (fst it_pos) end_ - cursor)) h)
    end
  else h.
Proof.
  induction segs as [|e segs IH]; intros cursor d end_ h.
  - simpl. reflexivity.
  - cbn [walk_forward skip_upto].
    destruct (Z.ltb_spec cursor end_) as [Hc|Hc]; [|reflexivity].
    destruct (Z.leb_spec (fst e) cursor) as [He|He].
    + rewrite IH. destruct (Z.ltb_spec cursor end_); [reflexivity|lia].
    + cbn [walk_forward]. rewrite Z.leb_refl.
      destruct (Z.ltb_spec (fst e) end_) as [Hp|Hp]; [reflexivity|].
      destruct segs as [|e' segs']; simpl;
        destruct (Z.ltb_spec (fst e) end_); try lia; reflexivity.
Qed.

Lemma hist_sorted_tail : forall e h, hist_sorted (e :: h) = true -> hist_sorted h = true.
Proof.
  intros e [|e' h] H; [reflexivity|].
  simpl in H. apply andb_true_iff in H. apply H.
Qed.

Lemma hist_count_below : forall h k,
  hist_sorted h = true ->
  match h with [] => True | e :: _ => k < fst e end ->
  hist_count k h = 0.
Proof.
  induction h as [|[k1 v1] h IH]; intros k Hs Hk; [reflexivity|].
  cbn [fst] in Hk. cbn [hist_count].
  destruct (Z.eqb_spec k k1); [lia|].
  apply IH; [eapply hist_sorted_tail; exact Hs|].
  destruct h as [|[k2 v2] h]; [exact I|].
  simpl in Hs. apply andb_true_iff in Hs; destruct Hs as [Hlt _].
  apply Z.ltb_lt in Hlt. cbn [fst]. lia.
Qed.

Lemma hist_insert_count : forall h k,
  hist_sorted h = true -> hist_count k (hist_insert 0 0 h) = hist_count k h.
Proof.
  induction h as [|[k1 v1] h IH]; intros k Hs.
  - simpl. destruct (k =? 0); reflexivity.
  - cbn [hist_insert].
    destruct (Z.ltb_spec 0 k1).
    + cbn [hist_count].
      destruct (Z.eqb_spec k 0) as [E|N]; [|reflexivity].
      subst k. destruct (Z.eqb_spec 0 k1); [lia|].
      symmetry. apply hist_count_below.
      * eapply hist_sorted_tail; exact Hs.
      * destruct h as [|[k2 v2] h]; [exact I|].
        simpl in Hs. apply andb_true_iff in Hs; destruct Hs as [Hlt _].
        apply Z.ltb_lt in Hlt. cbn [fst]. lia.
    + destruct (Z.eqb_spec 0 k1); [reflexivity|].
      cbn [hist_count]. destruct (Z.eqb_spec k k1); [reflexivity|].
      apply IH. eapply hist_sorted_tail; exact Hs.
Qed.

Lemma hist_insert_total : forall h, hist_total (hist_insert 0 0 h) = hist_total h.
Proof.
  induction h as [|[k1 v1] h IH]; [reflexivity|].
  cbn [hist_insert]. destruct (Z.ltb_spec 0 k1); [reflexivity|].
  destruct (Z.eqb_spec 0 k1); [reflexivity|].
  change (hist_total ((k1, v1) :: hist_insert 0 0 h))
    with (v1 + hist_total (hist_insert 0 0 h)).
  rewrite IH. reflexivity.
Qed.

(** C4, amended.  For every map, channel and chromosome within the
    per-chromosome array, and every range [start, end) with [start < end],
    one call of [updateCoverageHist] adds exactly [end - start] to the number
    of bases of the histogram modulo 2^32 (the counts are 32-bit and wrap),
    hence exactly [end - start] when the number of bases stays below 2^32. *)
Theorem query_adds_range_length :
  forall s h start end_ dir refID,
    (refID < List.length (sel dir (chrName_vec_final s)))%nat ->
    start < end_ ->
    wrap32 (hist_total (updateCoverageHist s h start end_ dir refID)) =
    wrap32 (hist_total h + (end_ - start)) /\
    (0 <= start -> end_ < two32 ->
     hist_vals_ok h = true ->
     hist_total h + (end_ - start) < two32 ->
     hist_total (updateCoverageHist s h start end_ dir refID) =
     hist_total h + (end_ - start)).
Proof.
  intros s h start end_ dir refID Hr Hs.
  unfold updateCoverageHist.
  destruct (nth_error (sel dir (chrName_vec_final s)) refID) as [it_chr|] eqn:E;
    [|apply nth_error_None in E; lia].
  destruct (Nat.eqb (upper_bound it_chr start) (List.length it_chr)); split.
  - rewrite hist_add_total_mod. apply wrap32_add_r. apply wrap32_idem.
  - intros H0 He Hok Hlt. rewrite wrap32_small by lia.
    destruct (hist_add_total h 0 (end_ - start) Hok) as [E' _]; lia.
  - rewrite walk_forward_total_mod. f_equal. lia.
  - intros H0 He Hok Hlt. rewrite walk_forward_total; auto; lia.
Qed.

Lemma query_adds_range_length_witness :
  (0 < List.length (sel Ch2 (chrName_vec_final demo_final)))%nat /\
  120 < 180 /\ 0 <= 120 /\ 180 < two32 /\
  hist_vals_ok [(0, 7)] = true /\
  hist_total [(0, 7)] + (180 - 120) < two32 /\
  updateCoverageHist demo_final [(0, 7)] 120 180 Ch2 0 = [(0, 7); (1, 30); (2, 30)] /\
  hist_total (updateCoverageHist demo_final [(0, 7)] 120 180 Ch2 0) =
  hist_total [(0, 7)] + (180 - 120).
Proof.
  assert (H1 : (0 < List.length (sel Ch2 (chrName_vec_final demo_final)))%nat)
    by (simpl; lia).
  assert (H2 : 120 < 180) by lia.
  assert (H0 : 0 <= 120) by lia.
  assert (H3 : 180 < two32) by reflexivity.
  assert (H4 : hist_total [(0, 7)] + (180 - 120) < two32) by reflexivity.
  repeat (split; [assumption || reflexivity|]).
  exact (proj2 (query_adds_range_length demo_final [(0, 7)] 120 180 Ch2 0 H1 H2)
               H0 H3 eq_refl H4).
Defined.

(** C4 as stated fails when a count wraps: one more base at depth 1 on a
    histogram whose depth-1 bin holds 2^32 - 1 leaves no base at all. *)
Lemma query_total_wraps :
  updateCoverageHist demo_final [(1, 4294967295)] 100 101 Ch2 0 = [(1, 0)] /\
  hist_total (updateCoverageHist demo_final [(1, 4294967295)] 100 101 Ch2 0) <>
  hist_total [(1, 4294967295)] + (101 - 100).
Proof.
  split; [reflexivity|]. vm_compute. discriminate.
Qed.

(** C5, amended.  Neither query is an error.  With [refID] outside the
    per-chromosome array the query adds no base: it only makes sure that a
    depth-0 bin exists, with count 0 when it creates it.  On a chromosome
    within the array that holds no coverage (sequence [(0,0)]) the query adds
    [end - start] to the depth-0 bin. *)
Theorem query_on_missing_chromosome :
  forall s h start end_ dir refID,
    hist_sorted h = true ->
    (nth_error (sel dir (chrName_vec_final s)) refID = None ->
       updateCoverageHist s h start end_ dir refID = hist_insert 0 0 h /\
       (forall k, hist_count k (updateCoverageHist s h start end_ dir refID) =
                  hist_count k h) /\
       hist_total (updateCoverageHist s h start end_ dir refID) = hist_total h) /\
    (nth_error (sel dir (chrName_vec_final s)) refID = Some [(0, 0)] ->
       0 <= start ->
       updateCoverageHist s h start end_ dir refID =
       hist_add 0 (wrap32 (end_ - start)) h).
Proof.
  intros s h start end_ dir refID Hs. unfold updateCoverageHist. split.
  - intros E. rewrite E. split; [reflexivity|]. split.
    + intro k. apply hist_insert_count. exact Hs.
    + apply hist_insert_total.
  - intros E H0. rewrite E. unfold upper_bound. simpl.
    destruct (Z.ltb_spec start 0); [lia|]. reflexivity.
Qed.

Lemma query_on_missing_chromosome_witness :
  hist_sorted [(1, 50); (2, 50)] = true /\
  nth_error (sel Ch2 (chrName_vec_final demo_final)) 2 = None /\
  updateCoverageHist demo_final [(1, 50); (2, 50)] 10 30 Ch2 2 =
    [(0, 0); (1, 50); (2, 50)] /\
  nth_error (sel Ch2 (chrName_vec_final demo_final)) 1 = Some [(0, 0)] /\
  updateCoverageHist demo_final [(1, 50); (2, 50)] 10 30 Ch2 1 =
    [(0, 20); (1, 50); (2, 50)].
Proof.
  assert (Hs : hist_sorted [(1, 50); (2, 50)] = true) by reflexivity.
  split; [exact Hs|]. split; [reflexivity|]. split.
  - exact (proj1 (proj1 (query_on_missing_chromosome demo_final [(1, 50); (2, 50)]
                           10 30 Ch2 2 Hs) eq_refl)).
  - split; [reflexivity|].
    assert (H0 : 0 <= 10) by lia.
    exact (proj2 (query_on_missing_chromosome demo_final [(1, 50); (2, 50)]
                    10 30 Ch2 1 Hs) eq_refl H0).
Defined.

(** C5 as stated fails outside the array: the query of 20 positions adds
    nothing to the depth-0 bin. *)
Lemma query_outside_array_adds_nothing :
  nth_error (sel Ch2 (chrName_vec_final demo_final)) 2 = None /\
  hist_count 0 (updateCoverageHist demo_final [] 10 30 Ch2 2) = 0 /\
  hist_count 0 (updateCoverageHist demo_final [] 10 30 Ch2 2) <>
  hist_count 0 [] + (30 - 10).
Proof.
  split; [reflexivity|]. split; [reflexivity|]. vm_compute. discriminate.
Qed.

(** ** Histogram statistics *)

Lemma count_fold_total : forall h acc,
  hist_vals_ok h = true -> 0 <= acc -> acc + hist_total h < two32 ->
  fold_left (fun size e => wrap32 (size + snd e)) h acc = acc + hist_total h.
Proof.
  induction h as [|[k v] h IH]; intros acc Hok Hacc Hlt.
  - unfold hist_total; simpl; lia.
  - simpl in Hok. apply andb_true_iff in Hok; destruct Hok as [Hv Hh].
    rewrite andb_true_iff, Z.leb_le, Z.ltb_lt in Hv; simpl in Hv.
    pose proof (hist_total_nonneg h Hh) as Hpos.
    change (hist_total ((k, v) :: h)) with (v + hist_total h) in *.
    cbn [fold_left snd]. rewrite wrap32_small by lia.
    rewrite IH; auto; lia.
Qed.

Lemma hist_size_total : forall h,
  hist_vals_ok h = true -> hist_total h < two32 -> hist_size h = hist_total h.
Proof.
  intros h Hok Hlt. unfold hist_size. rewrite count_fold_total; auto; lia.
Qed.




(** The walk of [percentileFromHist] never reaches an index beyond the
    number of bases. *)
Lemma percentile_walk_exhausts : forall h count index fz n p,
  hist_vals_ok h = true -> 0 <= count ->
  count + hist_total h < index -> index <= two32 ->
  percentile_walk h count index fz n p = Returns quiet_NaN.
Proof.
  induction h as [|[k v] h IH]; intros count index fz n p Hok Hc Hlt Hi.
  - reflexivity.
  - simpl in Hok. apply andb_true_iff in Hok; destruct Hok as [Hv Hh].
    rewrite andb_true_iff, Z.leb_le, Z.ltb_lt in Hv; simpl in Hv.
    pose proof (hist_total_nonneg h Hh) as Hpos.
    change (hist_total ((k, v) :: h)) with (v + hist_total h) in *.
    cbn [percentile_walk fst snd]. rewrite (wrap32_small (count + v)) by lia.
    destruct (Z.leb_spec index (count + v)); [lia|].
    apply IH; auto; lia.
Qed.




(** C9, amended.  On every non-empty histogram [percentileFromHist] with
    percentile 0 returns the lowest depth of the histogram; with percentile
    100 it returns the undefined sentinel, whenever the number of bases plus
    one is below 2^32. *)
Theorem percentile_boundaries :
  forall e h,
    percentileFromHist (e :: h) 0 = Returns (of_unsigned (fst e)) /\
    (hist_vals_ok (e :: h) = true -> hist_total (e :: h) + 1 < two32 ->
     percentileFromHist (e :: h) 100 = Returns quiet_NaN).
Proof.
  intros e h. split.
  - unfold percentileFromHist. rewrite Z.mul_0_r. cbn [percentile_walk].
    change (0 / 100) with 0. change (0 mod 100 =? 0) with true.
    destruct (Z.leb_spec 0 (wrap32 (0 + snd e))) as [_|H].
    + rewrite orb_true_r. reflexivity.
    + pose proof (wrap32_range (0 + snd e)). lia.
  - intros Hok Hlt. unfold percentileFromHist.
    pose proof (hist_total_nonneg _ Hok) as Hpos.
    rewrite hist_size_total by (auto; lia).
    rewrite (wrap32_small (hist_total (e :: h) + 1)) by lia.
    rewrite Z.div_mul by lia.
    apply percentile_walk_exhausts; auto; lia.
Qed.

Lemma percentile_boundaries_witness :
  percentileFromHist [(5, 1)] 0 = Returns (of_unsigned 5) /\
  hist_vals_ok [(5, 1)] = true /\ hist_total [(5, 1)] + 1 < two32 /\
  percentileFromHist [(5, 1)] 100 = Returns quiet_NaN.
Proof.
  assert (H : hist_total [(5, 1)] + 1 < two32) by reflexivity.
  split; [exact (proj1 (percentile_boundaries (5, 1) []))|].
  split; [reflexivity|split; [exact H|]].
  exact (proj2 (percentile_boundaries (5, 1) []) eq_refl H).
Defined.

(** C9 as stated fails at percentile 100: on the histogram of one base at
    depth 5 the index is 2, beyond the last bin, and the sentinel is
    returned. *)
Lemma percentile_100_is_undefined :
  percentileFromHist [(5, 1)] 100 = Returns quiet_NaN /\
  PrimFloat.is_nan (dbl_value quiet_NaN) = true.
Proof. split; reflexivity. Qed.

(** C10.  The interpolation branch of [percentileFromHist] reads the bin
    after the current one without testing that there is one: on two bases at
    one depth, percentile 75 has index 2 and fractional part 0.25, the walk
    stops at the last bin and dereferences [hist.end()].  The same happens
    at percentiles 25, 50 and 75 on the histogram [{0: 0}] that a query on a
    chromosome outside the array leaves, and on the histograms that
    [WriteOutput] builds for such regions of the small run. *)
Theorem percentile_reads_past_last_bin :
  percentileFromHist [(5, 2)] 75 = ReadsPastEnd /\
  fillHist demo_final [] 0 [(150, 152)] Ch2 = [(2, 2)] /\
  percentileFromHist (fillHist demo_final [] 0 [(150, 152)] Ch2) 75 = ReadsPastEnd /\
  fillHist demo_final [] 2 [(10, 30)] Ch2 = [(0, 0)] /\
  percentileFromHist (fillHist demo_final [] 2 [(10, 30)] Ch2) 25 = ReadsPastEnd /\
  percentileFromHist (fillHist demo_final [] 2 [(10, 30)] Ch2) 50 = ReadsPastEnd /\
  percentileFromHist (fillHist demo_final [] 2 [(10, 30)] Ch2) 75 = ReadsPastEnd.
Proof. repeat split; reflexivity. Qed.

(** ** The warning column *)

(** C6, amended.  A region with [JCexact = 2] is reported as "LowCover" when
    [JCexact + intronTrimmedMean < 10] holds in double arithmetic, and as
    "LowSplicing" otherwise, whatever the other counts. *)
Theorem warning_with_two_exact_splices :
  forall intronTrimmedMean JCleft JCright SPleft SPright,
    warning intronTrimmedMean JCleft JCright 2 SPleft SPright =
    if PrimFloat.ltb (PrimFloat.add (u2d 2) intronTrimmedMean) (u2d 10)
    then "LowCover"%string else "LowSplicing"%string.
Proof.
  intros m JCleft JCright SPleft SPright. unfold warning.
  destruct (PrimFloat.ltb (PrimFloat.add (u2d 2) m) (u2d 10)); reflexivity.
Qed.

Example warning_low_cover_below_8 :
  warning 7.5%float 0 0 2 0 0 = "LowCover"%string /\
  warning 8%float 0 0 2 0 0 = "LowSplicing"%string /\
  warning PrimFloat.nan 0 0 2 0 0 = "LowSplicing"%string.
Proof. repeat split; vm_compute; reflexivity. Qed.

(** C6 as stated fails: a region of the small run without coverage has
    trimmed mean 0, and with [JCexact = 2] the sum is below 10. *)
Lemma two_exact_splices_low_cover :
  fillHist demo_final [] 0 [(300, 400)] Ch2 = [(0, 100)] /\
  trimmedMeanFromHist [(0, 100)] 40 = of_unsigned 0 /\
  warning (dbl_value (trimmedMeanFromHist (fillHist demo_final [] 0 [(300, 400)] Ch2) 40))
          0 0 2 0 0 = "LowCover"%string /\
  "LowCover"%string <> "LowSplicing"%string.
Proof.
  split; [reflexivity|]. split; [reflexivity|].
  split; [vm_compute; reflexivity|discriminate].
Qed.

(** * Further properties of the code *)

(** ** The depth a finalised map reports *)

Lemma built_final_lookup : forall chrmap fc ops,
  Forall (in_range (List.length chrmap)) (ingested ops) ->
  exists s fm,
    run ops (new_map chrmap fc) = Some s /\
    sort_and_collapse_final s = Some fm /\
    (forall j, List.length (sel j (chrName_vec_final fm)) = List.length chrmap) /\
    forall j i q, (i < List.length chrmap)%nat -> 0 <= q ->
      seg_lookup 0 (nth i (sel j (chrName_vec_final fm)) []) q =
      delta_upto (flat_map (events_for j i) (ingested ops)) q.
Proof.
  intros chrmap fc ops Hin.
  destruct (built_map_spec chrmap fc ops Hin) as (s & E & W & F & L & C).
  destruct (sort_and_collapse_final_spec s W F) as (fm & Ef & _ & _ & Lf & Pf).
  exists s, fm. split; [exact E|]. split; [exact Ef|]. split.
  - intro j. rewrite Lf. exact L.
  - intros j i q Hi Hq. rewrite Pf by (rewrite L; exact Hi).
    destruct (final_buf_spec (content s j i) (content_ok s j i W)) as (_ & _ & Hl).
    rewrite Hl by exact Hq. apply C.
Qed.

Lemma frag_events_spans : forall b,
  frag_events b = flat_map span_events (frag_spans b).
Proof.
  intro b. unfold frag_events, frag_spans.
  induction (reads b) as [|r rs IH]; [reflexivity|].
  simpl. rewrite flat_map_app, IH. f_equal.
  induction (snd r) as [|bl bls IHb]; [reflexivity|].
  simpl. rewrite IHb. reflexivity.
Qed.

Lemma events_for_spans : forall j i l,
  flat_map (events_for j i) l = flat_map span_events (flat_map (spans_for j i) l).
Proof.
  intros j i l. induction l as [|b l IH]; [reflexivity|].
  simpl. rewrite flat_map_app, IH. f_equal.
  unfold events_for, spans_for.
  destruct (Nat.eqb (chr_id b) i); [|reflexivity].
  destruct j, (direction b); try reflexivity; apply frag_events_spans.
Qed.

(** Deltas of well-formed spans: the depth of a position is the number of
    spans that cover it. *)
Lemma delta_upto_covering : forall spans q,
  Forall (fun sp => fst sp <= snd sp) spans ->
  delta_upto (flat_map span_events spans) q = Z.of_nat (covering spans q).
Proof.
  induction spans as [|[a b] spans IH]; intros q H; [reflexivity|].
  inversion H as [|? ? Hab Hrest]; subst. simpl in Hab.
  change (flat_map span_events ((a, b) :: spans))
    with ([(a, 1); (b, -1)] ++ flat_map span_events spans).
  rewrite delta_upto_app, (IH q Hrest).
  unfold covering. cbn [filter fst snd]. unfold delta_upto; cbn [fold_right fst snd].
  destruct (Z.leb_spec a q); destruct (Z.leb_spec b q); destruct (Z.ltb_spec q b);
    cbn [andb List.length]; lia.
Qed.

(** X1.  In a map built from fragments and finalised, the run-length
    sequence of a channel and chromosome gives every position the number of
    blocks of that channel and chromosome that cover it, when no block wraps
    around 2^32. *)
Theorem finalized_depth_is_block_cover :
  forall chrmap fc ops j i,
    Forall (in_range (List.length chrmap)) (ingested ops) ->
    (i < List.length chrmap)%nat ->
    Forall (fun sp => fst sp <= snd sp) (flat_map (spans_for j i) (ingested ops)) ->
    exists s fm,
      run ops (new_map chrmap fc) = Some s /\
      sort_and_collapse_final s = Some fm /\
      forall q, 0 <= q ->
        seg_lookup 0 (nth i (sel j (chrName_vec_final fm)) []) q =
        Z.of_nat (covering (flat_map (spans_for j i) (ingested ops)) q).
Proof.
  intros chrmap fc ops j i Hin Hi Hsp.
  destruct (built_final_lookup chrmap fc ops Hin) as (s & fm & E & Ef & _ & Hl).
  exists s, fm. split; [exact E|]. split; [exact Ef|].
  intros q Hq. rewrite (Hl j i q Hi Hq), events_for_spans.
  apply delta_upto_covering. exact Hsp.
Qed.

Lemma finalized_depth_is_block_cover_witness :
  Forall (in_range (List.length chr_demo)) (ingested [Ingest frag_a; Compact; Ingest frag_b]) /\
  (0 < List.length chr_demo)%nat /\
  Forall (fun sp => fst sp <= snd sp)
         (flat_map (spans_for Ch2 0) (ingested [Ingest frag_a; Compact; Ingest frag_b])) /\
  exists s fm,
    run [Ingest frag_a; Compact; Ingest frag_b] (new_map chr_demo 0) = Some s /\
    sort_and_collapse_final s = Some fm /\
    forall q, 0 <= q ->
      seg_lookup 0 (nth 0 (sel Ch2 (chrName_vec_final fm)) []) q =
      Z.of_nat (covering (flat_map (spans_for Ch2 0)
                            (ingested [Ingest frag_a; Compact; Ingest frag_b])) q).
Proof.
  assert (H1 : Forall (in_range (List.length chr_demo))
                      (ingested [Ingest frag_a; Compact; Ingest frag_b])).
  { repeat constructor. }
  assert (H2 : (0 < List.length chr_demo)%nat) by (simpl; lia).
  assert (H3 : Forall (fun sp => fst sp <= snd sp)
           (flat_map (spans_for Ch2 0) (ingested [Ingest frag_a; Compact; Ingest frag_b]))).
  { repeat constructor; vm_compute; discriminate. }
  split; [exact H1|split; [exact H2|split; [exact H3|]]].
  exact (finalized_depth_is_block_cover chr_demo 0
           [Ingest frag_a; Compact; Ingest frag_b] Ch2 0%nat H1 H2 H3).
Defined.

(** X2.  Every finalised run-length sequence is non-empty and starts at
    position 0, which is what [updateCoverageHist] relies on when it walks
    back to the segment at or before [start]. *)
Theorem finalized_sequences_start_at_zero :
  forall s,
    well_formed s -> final_is_sorted s = false ->
    exists s',
      sort_and_collapse_final s = Some s' /\
      forall j i segs,
        nth_error (sel j (chrName_vec_final s')) i = Some segs ->
        exists d rest, segs = (0, d) :: rest.
Proof.
  intros s W A.
  destruct (sort_and_collapse_final_spec s W A) as (s' & E & _ & _ & L & P).
  exists s'. split; [exact E|].
  intros j i segs Hn.
  assert (Hi : (i < List.length (chrs s))%nat).
  { rewrite <- (L j). apply nth_error_Some. congruence. }
  apply (nth_error_nth _ _ []) in Hn. rewrite P in Hn by exact Hi. subst segs.
  apply (final_buf_spec (content s j i) (content_ok s j i W)).
Qed.

Lemma finalized_sequences_start_at_zero_witness :
  well_formed demo_accum /\ final_is_sorted demo_accum = false /\
  exists s',
    sort_and_collapse_final demo_accum = Some s' /\
    forall j i segs,
      nth_error (sel j (chrName_vec_final s')) i = Some segs ->
      exists d rest, segs = (0, d) :: rest.
Proof.
  assert (W : well_formed demo_accum) by well_formed_by_computation.
  split; [exact W|split; [reflexivity|]].
  exact (finalized_sequences_start_at_zero demo_accum W eq_refl).
Defined.

Lemma events_unstranded : forall i l q,
  delta_upto (flat_map (events_for Ch2 i) l) q =
  delta_upto (flat_map (events_for Ch0 i) l) q +
  delta_upto (flat_map (events_for Ch1 i) l) q.
Proof.
  intros i l q. induction l as [|b l IH]; [reflexivity|].
  simpl. rewrite !delta_upto_app, IH. unfold events_for.
  destruct (Nat.eqb (chr_id b) i), (direction b);
    change (delta_upto [] q) with 0; lia.
Qed.

(** X3.  In a map built from fragments and finalised, the unstranded
    channel gives every position the sum of the depths of the two strand
    channels. *)
Theorem unstranded_depth_is_sum_of_strands :
  forall chrmap fc ops i,
    Forall (in_range (List.length chrmap)) (ingested ops) ->
    (i < List.length chrmap)%nat ->
    exists s fm,
      run ops (new_map chrmap fc) = Some s /\
      sort_and_collapse_final s = Some fm /\
      forall q, 0 <= q ->
        seg_lookup 0 (nth i (sel Ch2 (chrName_vec_final fm)) []) q =
        seg_lookup 0 (nth i (sel Ch0 (chrName_vec_final fm)) []) q +
        seg_lookup 0 (nth i (sel Ch1 (chrName_vec_final fm)) []) q.
Proof.
  intros chrmap fc ops i Hin Hi.
  destruct (built_final_lookup chrmap fc ops Hin) as (s & fm & E & Ef & _ & Hl).
  exists s, fm. split; [exact E|]. split; [exact Ef|].
  intros q Hq. rewrite !Hl by assumption. apply events_unstranded.
Qed.

Lemma unstranded_depth_is_sum_of_strands_witness :
  Forall (in_range (List.length chr_demo)) (ingested [Ingest frag_a; Ingest frag_b]) /\
  (0 < List.length chr_demo)%nat /\
  exists s fm,
    run [Ingest frag_a; Ingest frag_b] (new_map chr_demo 0) = Some s /\
    sort_and_collapse_final s = Some fm /\
    forall q, 0 <= q ->
      seg_lookup 0 (nth 0 (sel Ch2 (chrName_vec_final fm)) []) q =
      seg_lookup 0 (nth 0 (sel Ch0 (chrName_vec_final fm)) []) q +
      seg_lookup 0 (nth 0 (sel Ch1 (chrName_vec_final fm)) []) q.
Proof.
  assert (H1 : Forall (in_range (List.length chr_demo)) (ingested [Ingest frag_a; Ingest frag_b])).
  { repeat constructor. }
  assert (H2 : (0 < List.length chr_demo)%nat) by (simpl; lia).
  split; [exact H1|split; [exact H2|]].
  exact (unstranded_depth_is_sum_of_strands chr_demo 0 [Ingest frag_a; Ingest frag_b]
           0%nat H1 H2).
Defined.

(** X4.  Merging two accumulating maps in either order finalises to the same
    run-length sequences. *)
Theorem Combine_order_is_irrelevant :
  forall a b,
    well_formed a -> well_formed b ->
    List.length (chrs a) = List.length (chrs b) ->
    final_is_sorted a = false -> final_is_sorted b = false ->
    exists m1 c1 m2 c2 f1 f2,
      Combine a b = Some (m1, c1) /\
      Combine b a = Some (m2, c2) /\
      sort_and_collapse_final m1 = Some f1 /\
      sort_and_collapse_final m2 = Some f2 /\
      chrName_vec_final f1 = chrName_vec_final f2.
Proof.
  intros a b Wa Wb Hlen Fa Fb.
  destruct (Combine_accumulating_spec a b Wa Wb Hlen Fa Fb)
    as (m1 & c1 & E1 & W1 & H1 & A1 & C1).
  destruct (Combine_accumulating_spec b a Wb Wa (eq_sym Hlen) Fb Fa)
    as (m2 & c2 & E2 & W2 & H2 & A2 & C2).
  destruct (finalize_equiv m1 m2 W1 W2 A1 A2 (ltac:(congruence))) as (f1 & f2 & G1 & G2 & G3).
  - intros j i. eapply buf_equiv_trans; [apply C1|].
    apply buf_equiv_sym. eapply buf_equiv_trans; [apply C2|].
    intro q. rewrite !delta_upto_app. lia.
  - exists m1, c1, m2, c2, f1, f2. repeat split; assumption.
Qed.

Lemma Combine_order_is_irrelevant_witness :
  well_formed demo_accum /\ well_formed (new_map chr_demo 3) /\
  List.length (chrs demo_accum) = List.length (chrs (new_map chr_demo 3)) /\
  final_is_sorted demo_accum = false /\ final_is_sorted (new_map chr_demo 3) = false /\
  exists m1 c1 m2 c2 f1 f2,
    Combine demo_accum (new_map chr_demo 3) = Some (m1, c1) /\
    Combine (new_map chr_demo 3) demo_accum = Some (m2, c2) /\
    sort_and_collapse_final m1 = Some f1 /\
    sort_and_collapse_final m2 = Some f2 /\
    chrName_vec_final f1 = chrName_vec_final f2.
Proof.
  assert (Wa : well_formed demo_accum) by well_formed_by_computation.
  assert (Wb : well_formed (new_map chr_demo 3)) by well_formed_by_computation.
  split; [exact Wa|split; [exact Wb|split; [reflexivity|split; [reflexivity|
    split; [reflexivity|]]]]].
  exact (Combine_order_is_irrelevant demo_accum (new_map chr_demo 3) Wa Wb
           eq_refl eq_refl eq_refl).
Defined.

(** X5.  Once a map is finalised, fragments ingested afterwards never reach
    its run-length sequences: [ProcessBlocks] still accepts them, but
    [sort_and_collapse_final] is then a no-op. *)
Theorem ingest_after_finalization_is_ignored :
  forall s ops,
    well_formed s -> final_is_sorted s = true ->
    Forall (in_range (List.length (chrs s))) (ingested ops) ->
    exists s1,
      run ops s = Some s1 /\
      sort_and_collapse_final s1 = Some s1 /\
      chrName_vec_final s1 = chrName_vec_final s.
Proof.
  intros s ops W F Hin.
  destruct (run_spec ops s W Hin) as (s1 & E & _ & _ & F1 & Hfin & _).
  exists s1. split; [exact E|]. split; [|exact Hfin].
  unfold sort_and_collapse_final. rewrite F1, F. reflexivity.
Qed.

Lemma ingest_after_finalization_is_ignored_witness :
  well_formed demo_final /\ final_is_sorted demo_final = true /\
  Forall (in_range (List.length (chrs demo_final))) (ingested [Ingest frag_c; Compact]) /\
  exists s1,
    run [Ingest frag_c; Compact] demo_final = Some s1 /\
    sort_and_collapse_final s1 = Some s1 /\
    chrName_vec_final s1 = chrName_vec_final demo_final.
Proof.
  assert (W : well_formed demo_final) by well_formed_by_computation.
  assert (H : Forall (in_range (List.length (chrs demo_final)))
                     (ingested [Ingest frag_c; Compact])).
  { repeat constructor. }
  split; [exact W|split; [reflexivity|split; [exact H|]]].
  exact (ingest_after_finalization_is_ignored demo_final [Ingest frag_c; Compact]
           W eq_refl H).
Defined.

Lemma final_chan_short : forall n new final,
  (List.length new < n)%nat -> final_chan n new final = None.
Proof.
  induction n as [|n IH]; intros new final H; [lia|].
  destruct new as [|x new]; [reflexivity|].
  destruct final as [|y final]; [reflexivity|].
  simpl in H |- *. rewrite IH by lia. reflexivity.
Qed.

(** X6.  [ChrMapUpdate] appends to [chrs] but resizes the vectors to the new
    chromosomes only: on a map that already has chromosomes, the next
    finalisation indexes past the vectors and throws. *)
Theorem second_ChrMapUpdate_breaks_finalization :
  forall s chrmap,
    chrs s <> [] -> final_is_sorted s = false ->
    sort_and_collapse_final (ChrMapUpdate chrmap s) = None.
Proof.
  intros s chrmap Hne F.
  unfold sort_and_collapse_final. cbn [ChrMapUpdate final_is_sorted]. rewrite F.
  set (v := repeat empty_vector (List.length chrmap)).
  destruct (collapse_chan_spec v v eq_refl) as (t' & n' & E & _ & Ln & _ & _).
  unfold sort_and_collapse_temp.
  cbn [ChrMapUpdate temp_chrName_vec_new chrName_vec_new at0 at1 at2].
  fold v. rewrite E. cbn [chrs chrName_vec_new chrName_vec_final at0 fst snd].
  rewrite final_chan_short; [reflexivity|].
  rewrite Ln. unfold v. cbn [ChrMapUpdate chrs]. rewrite repeat_length, length_app.
  destruct (chrs s); [contradiction|simpl; lia].
Qed.

Lemma second_ChrMapUpdate_breaks_finalization_witness :
  chrs (new_map chr_demo 0) <> [] /\ final_is_sorted (new_map chr_demo 0) = false /\
  sort_and_collapse_final (ChrMapUpdate chr_demo (new_map chr_demo 0)) = None.
Proof.
  assert (H : chrs (new_map chr_demo 0) <> []) by (simpl; discriminate).
  split; [exact H|split; [reflexivity|]].
  exact (second_ChrMapUpdate_breaks_finalization (new_map chr_demo 0) chr_demo H eq_refl).
Defined.

(** ** Compaction *)

Lemma ascending_snoc : forall l a b,
  ascending (l ++ [a]) -> fst a < fst b -> ascending ((l ++ [a]) ++ [b]).
Proof.
  induction l as [|x l IH]; intros a b Hc Hp; simpl in *; [tauto|].
  destruct (l ++ [a]) as [|y t] eqn:E.
  - destruct l; discriminate.
  - simpl. destruct Hc as (H1 & H2). split; auto.
    specialize (IH a b). rewrite E in IH. apply IH; auto.
Qed.

Lemma ascending_relast : forall l a b,
  ascending (l ++ [a]) -> fst a <= fst b -> ascending (l ++ [b]).
Proof.
  induction l as [|x l IH]; intros a b Hc Hp; [exact I|].
  destruct l as [|y l].
  - simpl in *. split; [lia|exact I].
  - change (ascending (x :: (y :: l) ++ [a])) in Hc.
    change (ascending (x :: (y :: l) ++ [b])).
    simpl in Hc |- *. destruct Hc as [H1 H2]. split; [exact H1|].
    apply (IH a b); assumption.
Qed.

Lemma collapse_inv_step : forall pre st e,
  collapse_inv pre st -> fst (fst st) <= fst e ->
  collapse_inv (pre ++ [e]) (collapse_step st e).
Proof.
  intros pre [[lo ac] out] [p d] [Hn Hs Ha Hz Hl] Hle. simpl in *.
  unfold collapse_step; cbn [fst snd].
  destruct (Z.eqb_spec p lo) as [E|N]; cbn [negb].
  - subst p. constructor; cbn [fst snd collapse_flush]; auto.
    + apply Forall_app; split; [exact Hs|repeat constructor; simpl; lia].
    + apply (ascending_relast out (lo, ac)); [exact Ha|simpl; lia].
    + rewrite length_app; simpl; lia.
  - destruct (Z.eqb_spec ac 0) as [E0|N0]; cbn [negb];
      constructor; cbn [fst snd collapse_flush]; try lia.
    + apply Forall_app; split; [|repeat constructor; simpl; lia].
      eapply Forall_impl; [|exact Hs]. simpl; intros; lia.
    + apply (ascending_relast out (lo, ac)); [exact Ha|simpl; lia].
    + exact Hz.
    + rewrite length_app; simpl; lia.
    + apply Forall_app; split; [|repeat constructor; simpl; lia].
      eapply Forall_impl; [|exact Hs]. simpl; intros; lia.
    + apply ascending_snoc; [exact Ha|simpl; lia].
    + apply Forall_app; split; [exact Hz|repeat constructor; simpl; exact N0].
    + rewrite !length_app; simpl; lia.
Qed.

Lemma collapse_inv_fold : forall rest pre st,
  collapse_inv pre st ->
  StronglySorted pos_le rest ->
  Forall (fun e => fst (fst st) <= fst e) rest ->
  collapse_inv (pre ++ rest) (fold_left collapse_step rest st).
Proof.
  induction rest as [|e rest IH]; intros pre st Hinv Hsort Hge; simpl.
  - rewrite app_nil_r; exact Hinv.
  - inversion Hsort as [|? ? Hs' Hall]; subst.
    inversion Hge as [|? ? He Hrest]; subst.
    replace (pre ++ e :: rest) with ((pre ++ [e]) ++ rest)
      by (rewrite <- app_assoc; reflexivity).
    apply IH; auto.
    + apply collapse_inv_step; auto.
    + assert (Hlo : fst (fst (collapse_step st e)) = fst e).
      { destruct st as [[lo ac] out]. unfold collapse_step; cbn [fst snd].
        destruct (Z.eqb_spec (fst e) lo); cbn [negb fst]; auto. }
      rewrite Hlo. exact Hall.
Qed.

(** X7.  What compaction appends for a non-empty ingest buffer has strictly
    increasing positions, no zero delta except possibly in its last entry,
    and at most one entry more than the buffer had events. *)
Theorem compaction_output_is_ascending :
  forall new temp,
    temp <> [] -> buf_ok temp = true ->
    exists pushed last,
      compact_into new temp = new ++ pushed ++ [last] /\
      ascending (pushed ++ [last]) /\
      Forall (fun e => snd e <> 0) pushed /\
      (List.length pushed <= List.length temp)%nat.
Proof.
  intros new temp Hne Hok.
  destruct temp as [|e temp]; [contradiction|]. cbn [compact_into].
  rewrite collapse_temp_buf_flush.
  assert (Hinv : collapse_inv (std_sort (e :: temp))
                   (fold_left collapse_step (std_sort (e :: temp)) (0, 0, []))).
  { apply (collapse_inv_fold (std_sort (e :: temp)) [] (0, 0, [])).
    - constructor; simpl; auto; lia.
    - apply std_sort_sorted.
    - apply buf_ok_nonneg. eapply buf_ok_perm; [apply std_sort_perm|exact Hok]. }
  destruct (fold_left collapse_step (std_sort (e :: temp)) (0, 0, [])) as [[lo ac] out].
  destruct Hinv as [_ _ Ha Hz Hl]. cbn [fst snd collapse_flush] in *.
  exists out, (lo, ac). repeat split; auto.
  rewrite Hl. apply Nat.eq_le_incl. apply Permutation_length.
  apply Permutation_sym, std_sort_perm.
Qed.

Lemma compaction_output_is_ascending_witness :
  [(0, 0); (10, 1); (20, -1); (20, 1); (30, -1)] <> [] /\
  buf_ok [(0, 0); (10, 1); (20, -1); (20, 1); (30, -1)] = true /\
  exists pushed last,
    compact_into [(0, 0)] [(0, 0); (10, 1); (20, -1); (20, 1); (30, -1)] =
      [(0, 0)] ++ pushed ++ [last] /\
    ascending (pushed ++ [last]) /\
    Forall (fun e => snd e <> 0) pushed /\
    (List.length pushed <= 5)%nat.
Proof.
  assert (H : [(0, 0); (10, 1); (20, -1); (20, 1); (30, -1)] <> [] :> buf) by discriminate.
  split; [exact H|split; [reflexivity|]].
  exact (compaction_output_is_ascending [(0, 0)]
           [(0, 0); (10, 1); (20, -1); (20, 1); (30, -1)] H eq_refl).
Defined.

Lemma collapse_chan_idle : forall temp new,
  Forall (fun t => t = []) temp -> collapse_chan temp new = Some (temp, new).
Proof.
  induction temp as [|t temp IH]; intros new H; [reflexivity|].
  inversion H as [|? ? Ht Hrest]; subst. cbn [collapse_chan].
  destruct new as [|n new]; rewrite IH by exact Hrest; reflexivity.
Qed.

Lemma collapse_chan_emptied : forall temp new t' n',
  collapse_chan temp new = Some (t', n') -> Forall (fun t => t = []) t'.
Proof.
  induction temp as [|t temp IH]; intros new t' n' E.
  - inversion E; subst. constructor.
  - cbn [collapse_chan] in E.
    destruct t as [|e t]; destruct new as [|n new]; try discriminate;
      match type of E with
      | option_map _ (collapse_chan temp ?x) = _ =>
        destruct (collapse_chan temp x) as [[t1 n1]|] eqn:E1; [|discriminate];
        inversion E; subst; constructor; [reflexivity|exact (IH _ _ _ E1)]
      end.
Qed.

(** X8.  Compaction empties every ingest buffer, and compacting again
    changes nothing. *)
Theorem compaction_is_idempotent :
  forall s s',
    sort_and_collapse_temp s = Some s' ->
    (forall j, Forall (fun t => t = []) (sel j (temp_chrName_vec_new s'))) /\
    sort_and_collapse_temp s' = Some s'.
Proof.
  intros s s' E. unfold sort_and_collapse_temp in E.
  destruct (collapse_chan (at0 (temp_chrName_vec_new s)) (at0 (chrName_vec_new s)))
    as [[t0 n0]|] eqn:E0; [|discriminate].
  destruct (collapse_chan (at1 (temp_chrName_vec_new s)) (at1 (chrName_vec_new s)))
    as [[t1 n1]|] eqn:E1; [|discriminate].
  destruct (collapse_chan (at2 (temp_chrName_vec_new s)) (at2 (chrName_vec_new s)))
    as [[t2 n2]|] eqn:E2; [|discriminate].
  inversion E; subst s'; clear E. cbn [fst snd].
  pose proof (collapse_chan_emptied _ _ _ _ E0) as H0.
  pose proof (collapse_chan_emptied _ _ _ _ E1) as H1.
  pose proof (collapse_chan_emptied _ _ _ _ E2) as H2.
  split.
  - intros []; assumption.
  - unfold sort_and_collapse_temp.
    cbn [temp_chrName_vec_new chrName_vec_new at0 at1 at2].
    rewrite !collapse_chan_idle by assumption. reflexivity.
Qed.

Lemma compaction_is_idempotent_witness :
  sort_and_collapse_temp demo_accum =
    Some (built (sort_and_collapse_temp demo_accum)) /\
  (forall j, Forall (fun t => t = [])
       (sel j (temp_chrName_vec_new (built (sort_and_collapse_temp demo_accum))))) /\
  sort_and_collapse_temp (built (sort_and_collapse_temp demo_accum)) =
    Some (built (sort_and_collapse_temp demo_accum)).
Proof.
  assert (H : sort_and_collapse_temp demo_accum =
              Some (built (sort_and_collapse_temp demo_accum))) by reflexivity.
  split; [exact H|].
  exact (compaction_is_idempotent demo_accum _ H).
Defined.

(** ** What a histogram query counts *)

Lemma hist_add_above : forall h lo k n,
  hist_above lo h -> lo < k -> hist_above lo (hist_add k n h).
Proof.
  intros [|[k1 v1] h] lo k n H Hk; simpl in *; [exact Hk|].
  destruct (k <? k1); [exact Hk|]. destruct (k =? k1); simpl; assumption.
Qed.

Lemma hist_sorted_cons : forall e h,
  hist_sorted (e :: h) = true <-> hist_above (fst e) h /\ hist_sorted h = true.
Proof.
  intros e [|e' h]; simpl.
  - tauto.
  - rewrite andb_true_iff, Z.ltb_lt. tauto.
Qed.

Lemma hist_add_sorted : forall h k n,
  hist_sorted h = true -> hist_sorted (hist_add k n h) = true.
Proof.
  induction h as [|[k1 v1] h IH]; intros k n Hs; [reflexivity|].
  cbn [hist_add].
  destruct (Z.ltb_spec k k1).
  - apply hist_sorted_cons. split; [simpl; assumption|exact Hs].
  - apply hist_sorted_cons in Hs. destruct Hs as [Ha Hs]. cbn [fst] in Ha.
    destruct (Z.eqb_spec k k1).
    + subst k1. apply hist_sorted_cons. split; assumption.
    + apply hist_sorted_cons. split; [|apply IH; exact Hs].
      cbn [fst]. apply hist_add_above; [exact Ha|lia].
Qed.

Lemma hist_add_vals_ok : forall h k n,
  hist_vals_ok h = true -> hist_vals_ok (hist_add k n h) = true.
Proof.
  assert (Hw : forall x, (0 <=? wrap32 x) && (wrap32 x <? two32) = true).
  { intro x. pose proof (wrap32_range x).
    rewrite andb_true_iff, Z.leb_le, Z.ltb_lt. lia. }
  induction h as [|[k1 v1] h IH]; intros k n Hok.
  - simpl. rewrite Hw. reflexivity.
  - cbn [hist_add]. pose proof Hok as Hok'. simpl in Hok'.
    apply andb_true_iff in Hok'. destruct Hok' as [Hv Hh].
    destruct (k <? k1).
    + change (hist_vals_ok ((k, wrap32 n) :: (k1, v1) :: h))
        with (((0 <=? wrap32 n) && (wrap32 n <? two32)) && hist_vals_ok ((k1, v1) :: h)).
      rewrite Hw, Hok. reflexivity.
    + destruct (k =? k1).
      * simpl. rewrite Hw. exact Hh.
      * simpl. simpl in Hv. rewrite Hv. apply IH. exact Hh.
Qed.

Lemma hist_count_range : forall h k,
  hist_vals_ok h = true -> 0 <= hist_count k h < two32.
Proof.
  induction h as [|[k1 v1] h IH]; intros k Hok; simpl.
  - unfold two32; lia.
  - simpl in Hok. apply andb_true_iff in Hok. destruct Hok as [Hv Hh].
    rewrite andb_true_iff, Z.leb_le, Z.ltb_lt in Hv. simpl in Hv.
    destruct (k =? k1); [exact Hv|apply IH; exact Hh].
Qed.

(** On a histogram in key order, [hist[k'] += n] changes the count of [k']
    only. *)
Lemma hist_count_add : forall h k k' n,
  hist_sorted h = true ->
  hist_count k (hist_add k' n h) =
  if k =? k' then wrap32 (hist_count k h + n) else hist_count k h.
Proof.
  induction h as [|[k1 v1] h IH]; intros k k' n Hs.
  - simpl. destruct (k =? k'); reflexivity.
  - cbn [hist_add].
    destruct (Z.ltb_spec k' k1).
    + cbn [hist_count]. destruct (Z.eqb_spec k k'); [|reflexivity].
      subst k'. destruct (Z.eqb_spec k k1); [lia|].
      rewrite (hist_count_below h k); [reflexivity| |].
      * eapply hist_sorted_tail; exact Hs.
      * apply hist_sorted_cons in Hs. destruct Hs as [Ha _].
        destruct h as [|e h]; [exact I|]. simpl in Ha |- *. lia.
    + destruct (Z.eqb_spec k' k1).
      * subst k1. cbn [hist_count]. destruct (Z.eqb_spec k k'); reflexivity.
      * cbn [hist_count]. destruct (Z.eqb_spec k k1).
        -- destruct (Z.eqb_spec k k'); [lia|reflexivity].
        -- apply IH. eapply hist_sorted_tail; exact Hs.
Qed.

Lemma count_from_ext : forall f g k n a,
  (forall q, a <= q < a + Z.of_nat n -> f q = g q) ->
  count_from f k a n = count_from g k a n.
Proof.
  induction n as [|n IH]; intros a H; [reflexivity|].
  cbn [count_from]. rewrite (H a) by lia. rewrite (IH (a + 1)); [reflexivity|].
  intros q Hq. apply H. lia.
Qed.

Lemma count_from_const : forall f k d n a,
  (forall q, a <= q < a + Z.of_nat n -> f q = d) ->
  count_from f k a n = if wrap32 d =? k then Z.of_nat n else 0.
Proof.
  induction n as [|n IH]; intros a H.
  - simpl. destruct (wrap32 d =? k); reflexivity.
  - cbn [count_from]. rewrite (H a) by lia. rewrite (IH (a + 1)).
    + destruct (wrap32 d =? k); lia.
    + intros q Hq. apply H. lia.
Qed.

Lemma count_from_app : forall f k n m a,
  count_from f k a (n + m) =
  count_from f k a n + count_from f k (a + Z.of_nat n) m.
Proof.
  induction n as [|n IH]; intros m a.
  - simpl. rewrite Z.add_0_r. reflexivity.
  - cbn [count_from Nat.add]. rewrite IH.
    replace (a + 1 + Z.of_nat n) with (a + Z.of_nat (S n)) by lia. lia.
Qed.

Lemma positions_split : forall f k a m b,
  a <= m <= b ->
  positions_at_depth f k a b = positions_at_depth f k a m + positions_at_depth f k m b.
Proof.
  intros f k a m b H. unfold positions_at_depth.
  replace (Z.to_nat (b - a)) with (Z.to_nat (m - a) + Z.to_nat (b - m))%nat by lia.
  rewrite count_from_app. do 2 f_equal. lia.
Qed.

Lemma positions_const : forall f k d a b,
  a <= b -> (forall q, a <= q < b -> f q = d) ->
  positions_at_depth f k a b = if wrap32 d =? k then b - a else 0.
Proof.
  intros f k d a b Hab H. unfold positions_at_depth.
  rewrite (count_from_const f k d).
  - destruct (wrap32 d =? k); lia.
  - intros q Hq. apply H. lia.
Qed.

Lemma positions_ext : forall f g k a b,
  (forall q, a <= q < b -> f q = g q) ->
  positions_at_depth f k a b = positions_at_depth g k a b.
Proof.
  intros f g k a b H. unfold positions_at_depth. apply count_from_ext.
  intros q Hq. apply H. lia.
Qed.

Lemma positions_empty : forall f k a b, b <= a -> positions_at_depth f k a b = 0.
Proof.
  intros f k a b H. unfold positions_at_depth.
  replace (Z.to_nat (b - a)) with O by lia. reflexivity.
Qed.

Lemma ascending_tail_above : forall t x, ascending (x :: t) -> Forall (fun e => fst x < fst e) t.
Proof.
  induction t as [|y t IH]; intros x Hc; [constructor|].
  destruct Hc as (H1 & H2). constructor; auto.
  eapply Forall_impl; [|apply (IH y H2)]. simpl; intros; lia.
Qed.

Lemma ascending_tail : forall t x, ascending (x :: t) -> ascending t.
Proof. intros [|y t] x Hc; simpl in *; tauto. Qed.

Lemma ascending_app_r : forall l1 l2, ascending (l1 ++ l2) -> ascending l2.
Proof.
  induction l1 as [|x l1 IH]; intros l2 H; [exact H|].
  apply IH. eapply ascending_tail. exact H.
Qed.

Lemma chain_ascending : forall l, chain l -> ascending l.
Proof.
  induction l as [|x l IH]; intro H; [exact I|].
  destruct l as [|y l]; [exact I|].
  destruct H as (H1 & _ & H3). split; [exact H1|apply IH; exact H3].
Qed.

Lemma walk_forward_done : forall segs cursor d end_ h,
  end_ <= cursor -> walk_forward segs cursor d end_ h = h.
Proof.
  intros [|e segs] cursor d end_ h H; simpl;
    destruct (Z.ltb_spec cursor end_); try lia; reflexivity.
Qed.

Lemma walk_forward_skip_head : forall it rest cursor d end_ h,
  fst it <= cursor ->
  walk_forward (it :: rest) cursor d end_ h = walk_forward rest cursor d end_ h.
Proof.
  intros it rest cursor d end_ h H. cbn [walk_forward].
  destruct (Z.ltb_spec cursor end_).
  - destruct (Z.leb_spec (fst it) cursor); [reflexivity|lia].
  - symmetry. apply walk_forward_done. lia.
Qed.

Lemma wrap32_nested : forall a b c,
  wrap32 (wrap32 (a + wrap32 b) + c) = wrap32 (a + (b + c)).
Proof.
  intros a b c.
  rewrite (wrap32_add_l (wrap32 (a + wrap32 b)) (a + wrap32 b) c (wrap32_idem _)).
  replace (a + wrap32 b + c) with (wrap32 b + (a + c)) by lia.
  replace (a + (b + c)) with (b + (a + c)) by lia.
  apply wrap32_add_l. apply wrap32_idem.
Qed.

(** The walk charges to each depth the positions of [cursor, end) that have
    it, counts being taken modulo 2^32. *)
Lemma walk_forward_counts : forall segs cursor d end_ h k,
  ascending segs -> Forall (fun e => cursor < fst e) segs ->
  hist_sorted h = true -> hist_vals_ok h = true ->
  hist_count k (walk_forward segs cursor d end_ h) =
  wrap32 (hist_count k h + positions_at_depth (seg_lookup d segs) k cursor end_) /\
  hist_sorted (walk_forward segs cursor d end_ h) = true /\
  hist_vals_ok (walk_forward segs cursor d end_ h) = true.
Proof.
  induction segs as [|[p d'] segs IH]; intros cursor d end_ h k Ha Hgt Hs Hok.
  - cbn [walk_forward].
    destruct (Z.ltb_spec cursor end_) as [Hc|Hc].
    + split; [|split; [apply hist_add_sorted|apply hist_add_vals_ok]; assumption].
      rewrite hist_count_add by exact Hs.
      rewrite (positions_const _ k d) by (try lia; reflexivity).
      rewrite Z.eqb_sym.
      destruct (wrap32 d =? k).
      * apply wrap32_add_r. apply wrap32_idem.
      * rewrite Z.add_0_r. symmetry. apply wrap32_small.
        apply hist_count_range; exact Hok.
    + split; [|split; assumption].
      rewrite positions_empty by lia. rewrite Z.add_0_r.
      symmetry. apply wrap32_small. apply hist_count_range; exact Hok.
  - inversion Hgt as [|? ? Hp Hrest]; subst. cbn [fst] in Hp.
    cbn [walk_forward fst snd].
    destruct (Z.ltb_spec cursor end_) as [Hc|Hc].
    + destruct (Z.leb_spec p cursor); [lia|].
      set (h' := hist_add (wrap32 d) (wrap32 (Z.min p end_ - cursor)) h).
      assert (Hs' : hist_sorted h' = true) by (apply hist_add_sorted; exact Hs).
      assert (Hok' : hist_vals_ok h' = true) by (apply hist_add_vals_ok; exact Hok).
      destruct (IH p d' end_ h' k (ascending_tail _ _ Ha)
                   (ascending_tail_above _ _ Ha) Hs' Hok') as (Hcount & Hs2 & Hok2).
      split; [|split; assumption].
      rewrite Hcount. unfold h'. rewrite hist_count_add by exact Hs.
      rewrite (positions_split _ k cursor (Z.min p end_) end_) by lia.
      rewrite (positions_const _ k d cursor (Z.min p end_)); [|lia|].
      * match goal with
        | |- context [positions_at_depth ?f k (Z.min p end_) end_] =>
          assert (Htail : positions_at_depth f k (Z.min p end_) end_
                          = positions_at_depth (seg_lookup d' segs) k p end_)
        end.
        { destruct (Z.le_gt_cases end_ p).
          - rewrite !positions_empty by lia. reflexivity.
          - replace (Z.min p end_) with p by lia. apply positions_ext.
            intros q Hq. cbn [seg_lookup fst snd].
            destruct (Z.leb_spec p q); [reflexivity|lia]. }
        rewrite Htail. rewrite Z.eqb_sym.
        destruct (wrap32 d =? k).
        -- apply wrap32_nested.
        -- rewrite Z.add_0_l. reflexivity.
      * intros q Hq. cbn [seg_lookup fst snd].
        destruct (Z.leb_spec p q); [lia|].
        apply seg_lookup_skip.
        eapply Forall_impl; [|apply (ascending_tail_above _ _ Ha)].
        cbn [fst]. intros; lia.
    + split; [|split; assumption].
      rewrite positions_empty by lia. rewrite Z.add_0_r.
      symmetry. apply wrap32_small. apply hist_count_range; exact Hok.
Qed.

Lemma seg_lookup_app : forall l1 l2 acc q,
  seg_lookup acc (l1 ++ l2) q = seg_lookup (seg_lookup acc l1 q) l2 q.
Proof.
  induction l1 as [|e l1 IH]; intros; simpl; [reflexivity|apply IH].
Qed.

Lemma skipn_length_app : forall (A : Type) (l1 l2 : list A),
  skipn (List.length l1) (l1 ++ l2) = l2.
Proof.
  intros A l1 l2. induction l1 as [|x l1 IH]; [reflexivity|exact IH].
Qed.

(** A sequence with strictly increasing positions is partitioned at every
    position, and [upper_bound] returns the index of the partition. *)
Lemma ascending_partition : forall (segs : buf) start,
  ascending segs ->
  exists pre post : buf,
    segs = pre ++ post /\
    Forall (fun e => fst e <= start) pre /\
    Forall (fun e => start < fst e) post.
Proof.
  induction segs as [|e segs IH]; intros start Ha.
  - exists [], []. repeat split; constructor.
  - destruct (Z.le_gt_cases (fst e) start) as [Hle|Hgt].
    + destruct (IH start (ascending_tail _ _ Ha)) as (pre & post & E & H1 & H2).
      exists (e :: pre), post. rewrite E. repeat split; auto.
    + exists [], (e :: segs). repeat split; [constructor|].
      constructor; [exact Hgt|].
      eapply Forall_impl; [|apply (ascending_tail_above _ _ Ha)].
      simpl; intros; lia.
Qed.

Lemma upper_bound_partitioned : forall (pre post : buf) start,
  Forall (fun e => fst e <= start) pre ->
  Forall (fun e => start < fst e) post ->
  upper_bound (pre ++ post) start = List.length pre.
Proof.
  intros pre post start H1 H2. apply upper_bound_spec.
  - rewrite length_app. lia.
  - intros i Hi. rewrite app_nth1 by exact Hi.
    apply (proj1 (Forall_nth _ pre) H1 i (0, 0) Hi).
  - intros i Hi. rewrite length_app in Hi. rewrite app_nth2 by lia.
    apply (proj1 (Forall_nth _ post) H2 (i - List.length pre)%nat (0, 0)). lia.
Qed.

(** Where [upper_bound] and the walk back leave [it_pos] on a sequence whose
    first position is at or before [start]: on the last segment at or before
    [start]. *)
Lemma upper_bound_decompose : forall segs start,
  ascending segs ->
  match segs with [] => False | e :: _ => fst e <= start end ->
  exists pre it post,
    segs = pre ++ it :: post /\
    fst it <= start /\
    Forall (fun e => start < fst e) post /\
    upper_bound segs start = S (List.length pre).
Proof.
  intros segs start Ha Hhd.
  destruct (ascending_partition segs start Ha) as (pre0 & post & E & H1 & H2).
  destruct (exists_last (l := pre0)) as (pre & it & Epre).
  { intro Hnil. subst pre0. simpl in E. subst segs.
    destruct post as [|e post]; [contradiction|].
    pose proof (Forall_inv H2) as He. cbn beta in He. lia. }
  subst pre0. exists pre, it, post.
  split; [rewrite E, <- app_assoc; reflexivity|].
  split; [apply Forall_app in H1; destruct H1 as [_ H1];
          exact (Forall_inv H1)|].
  split; [exact H2|].
  rewrite E, (upper_bound_partitioned _ _ _ H1 H2), length_app. simpl. lia.
Qed.

Lemma walk_back_decomposed : forall pre it e post start,
  fst it <= start -> start < fst e ->
  walk_back (pre ++ it :: e :: post) start (S (List.length pre)) = List.length pre.
Proof.
  intros pre it e post start Hi He.
  assert (H1 : nth (S (List.length pre)) (pre ++ it :: e :: post) (0, 0) = e).
  { replace (pre ++ it :: e :: post) with ((pre ++ [it]) ++ e :: post)
      by (rewrite <- app_assoc; reflexivity).
    replace (S (List.length pre)) with (List.length (pre ++ [it]))
      by (rewrite length_app; simpl; lia).
    apply nth_middle. }
  assert (H2 : nth (List.length pre) (pre ++ it :: e :: post) (0, 0) = it)
    by apply nth_middle.
  cbn [walk_back]. unfold buf, entry in *. rewrite H1.
  destruct (Z.ltb_spec start (fst e)); [|lia].
  destruct (List.length pre) as [|n] eqn:El; [reflexivity|].
  cbn [walk_back]. unfold entry. rewrite H2.
  destruct (Z.ltb_spec start (fst it)); [lia|reflexivity].
Qed.

(** The branch of [updateCoverageHist] for a chromosome within the array,
    on a sequence that starts at position 0 and ends at depth 0. *)
Lemma query_branch_counts : forall segs h start end_ k,
  ascending segs ->
  (exists d rest, segs = (0, d) :: rest) ->
  snd (last segs (0, 0)) = 0 ->
  0 <= start <= end_ ->
  hist_sorted h = true -> hist_vals_ok h = true ->
  hist_count k
    (if (upper_bound segs start =? List.length segs)%nat then
       hist_add 0 (wrap32 (end_ - start)) h
     else
       walk_forward (skipn (walk_back segs start (upper_bound segs start)) segs) start
         (snd (nth (walk_back segs start (upper_bound segs start)) segs (0, 0))) end_ h) =
  wrap32 (hist_count k h + positions_at_depth (seg_lookup 0 segs) k start end_).
Proof.
  intros segs h start end_ k Ha (d0 & rest0 & Hseg) Hlast Hse Hs Hok.
  destruct (upper_bound_decompose segs start Ha) as (pre & it & post & E & Hi & Hp & Hu).
  { rewrite Hseg. simpl. lia. }
  rewrite Hu.
  assert (Hlook : forall q, start <= q ->
            seg_lookup 0 segs q = seg_lookup (snd it) post q).
  { intros q Hq. rewrite E, seg_lookup_app. cbn [seg_lookup].
    destruct (Z.leb_spec (fst it) q); [reflexivity|lia]. }
  destruct post as [|e post].
  - (* no segment beyond [start] *)
    replace (S (List.length pre) =? List.length segs)%nat with true
      by (symmetry; apply Nat.eqb_eq; rewrite E, length_app; simpl; lia).
    rewrite hist_count_add by exact Hs.
    assert (Hz : snd it = 0).
    { rewrite E in Hlast. rewrite last_last in Hlast. exact Hlast. }
    rewrite (positions_const _ k 0 start end_); [|lia|].
    + change (wrap32 0) with 0. rewrite Z.eqb_sym.
      destruct (0 =? k).
      * apply wrap32_add_r. apply wrap32_idem.
      * rewrite Z.add_0_r. symmetry. apply wrap32_small.
        apply hist_count_range; exact Hok.
    + intros q Hq. rewrite Hlook by lia. simpl. exact Hz.
  - pose proof (Forall_inv Hp) as He. cbn beta in He.
    replace (S (List.length pre) =? List.length segs)%nat with false
      by (symmetry; apply Nat.eqb_neq; rewrite E, length_app; simpl; lia).
    rewrite E. rewrite walk_back_decomposed by assumption.
    rewrite skipn_length_app, nth_middle.
    rewrite walk_forward_skip_head by exact Hi.
    assert (Hasc : ascending (e :: post)).
    { rewrite E in Ha. apply ascending_app_r in Ha.
      eapply ascending_tail; exact Ha. }
    destruct (walk_forward_counts (e :: post) start (snd it) end_ h k Hasc Hp Hs Hok)
      as (Hc & _ & _).
    rewrite Hc. do 2 f_equal. apply positions_ext.
    intros q Hq. symmetry. rewrite <- E. apply Hlook. lia.
Qed.

(** X9.  On a run-length sequence with strictly increasing positions that
    starts at position 0 and ends at depth 0, as finalisation produces from
    fragments, one call of [updateCoverageHist] over [start, end) adds to
    the bin of every depth the number of positions of the range that have
    this depth (modulo 2^32, the bins being 32-bit). *)
Theorem query_counts_positions_by_depth :
  forall s h start end_ dir refID segs k,
    nth_error (sel dir (chrName_vec_final s)) refID = Some segs ->
    ascending segs ->
    (exists d rest, segs = (0, d) :: rest) ->
    snd (last segs (0, 0)) = 0 ->
    0 <= start <= end_ ->
    hist_sorted h = true -> hist_vals_ok h = true ->
    hist_count k (updateCoverageHist s h start end_ dir refID) =
    wrap32 (hist_count k h + positions_at_depth (seg_lookup 0 segs) k start end_).
Proof.
  intros s h start end_ dir refID segs k Hn Ha H0 Hlast Hse Hs Hok.
  unfold updateCoverageHist. rewrite Hn.
  apply query_branch_counts; assumption.
Qed.

Lemma query_counts_positions_by_depth_witness :
  nth_error (sel Ch2 (chrName_vec_final demo_final)) 0 =
    Some [(0, 0); (100, 1); (150, 2); (200, 0)] /\
  ascending [(0, 0); (100, 1); (150, 2); (200, 0)] /\
  (exists d rest, [(0, 0); (100, 1); (150, 2); (200, 0)] = (0, d) :: rest) /\
  snd (last [(0, 0); (100, 1); (150, 2); (200, 0)] (0, 0)) = 0 /\
  0 <= 120 <= 180 /\
  hist_sorted [(0, 7)] = true /\ hist_vals_ok [(0, 7)] = true /\
  hist_count 2 (updateCoverageHist demo_final [(0, 7)] 120 180 Ch2 0) =
  wrap32 (hist_count 2 [(0, 7)] +
          positions_at_depth (seg_lookup 0 [(0, 0); (100, 1); (150, 2); (200, 0)])
                             2 120 180).
Proof.
  assert (H1 : nth_error (sel Ch2 (chrName_vec_final demo_final)) 0 =
               Some [(0, 0); (100, 1); (150, 2); (200, 0)]) by reflexivity.
  assert (H2 : ascending [(0, 0); (100, 1); (150, 2); (200, 0)])
    by (simpl; repeat split; lia).
  assert (H3 : exists d rest, [(0, 0); (100, 1); (150, 2); (200, 0)] = (0, d) :: rest)
    by (eexists; eexists; reflexivity).
  assert (H4 : 0 <= 120 <= 180) by lia.
  split; [exact H1|split; [exact H2|split; [exact H3|split; [reflexivity|
    split; [exact H4|split; [reflexivity|split; [reflexivity|]]]]]]].
  exact (query_counts_positions_by_depth demo_final [(0, 7)] 120 180 Ch2 0%nat
           _ 2 H1 H2 H3 eq_refl H4 eq_refl eq_refl).
Defined.

Lemma exists_bound : forall l : buf, exists q, 0 <= q /\ Forall (fun e => fst e <= q) l.
Proof.
  induction l as [|e l (q & Hq & Hl)].
  - exists 0. split; [lia|constructor].
  - exists (Z.max q (fst e)). split; [lia|]. constructor; [lia|].
    eapply Forall_impl; [|exact Hl]. simpl; intros; lia.
Qed.

Lemma seg_lookup_last : forall segs acc q,
  segs <> [] -> Forall (fun e => fst e <= q) segs ->
  seg_lookup acc segs q = snd (last segs (0, 0)).
Proof.
  induction segs as [|e segs IH]; intros acc q Hne H; [contradiction|].
  inversion H as [|? ? He Hrest]; subst. cbn [seg_lookup].
  destruct (Z.leb_spec (fst e) q); [|lia].
  destruct segs as [|e' segs]; [reflexivity|].
  rewrite IH by (auto; discriminate). reflexivity.
Qed.

Lemma delta_total_events : forall j i l,
  delta_total (flat_map (events_for j i) l) = 0.
Proof.
  intros j i l. rewrite events_for_spans.
  induction (flat_map (spans_for j i) l) as [|sp sps IH]; [reflexivity|].
  unfold delta_total in *. cbn [flat_map span_events app fold_right snd].
  rewrite IH. reflexivity.
Qed.

(** The run-length sequences of a map built from fragments and finalised. *)
Lemma built_final_sequence : forall chrmap fc ops,
  Forall (in_range (List.length chrmap)) (ingested ops) ->
  exists s fm,
    run ops (new_map chrmap fc) = Some s /\
    sort_and_collapse_final s = Some fm /\
    chrs fm = chrmap /\
    forall j i, (i < List.length chrmap)%nat ->
      exists segs,
        nth_error (sel j (chrName_vec_final fm)) i = Some segs /\
        ascending segs /\
        (exists d rest, segs = (0, d) :: rest) /\
        snd (last segs (0, 0)) = 0 /\
        (forall q, 0 <= q ->
           seg_lookup 0 segs q = delta_upto (flat_map (events_for j i) (ingested ops)) q).
Proof.
  intros chrmap fc ops Hin.
  destruct (built_map_spec chrmap fc ops Hin) as (s & E & W & F & L & C).
  destruct (sort_and_collapse_final_spec s W F) as (fm & Ef & _ & Cf & Lf & Pf).
  exists s, fm. split; [exact E|]. split; [exact Ef|].
  split.
  { destruct (run_spec ops (new_map chrmap fc) (new_map_well_formed chrmap fc))
      as (s0 & E0 & _ & C0 & _); [exact Hin|].
    rewrite E in E0. injection E0 as <-. rewrite Cf, C0. reflexivity. }
  intros j i Hi.
  exists (final_buf (content s j i)).
  destruct (final_buf_spec (content s j i) (content_ok s j i W)) as (Hc & Hz & Hl).
  assert (Hlook : forall q, 0 <= q ->
            seg_lookup 0 (final_buf (content s j i)) q =
            delta_upto (flat_map (events_for j i) (ingested ops)) q).
  { intros q Hq. rewrite Hl by exact Hq. apply C. }
  split; [|split; [apply chain_ascending; exact Hc|split; [exact Hz|split; [|exact Hlook]]]].
  - rewrite <- (Pf j i) by (rewrite L; exact Hi).
    apply nth_error_nth'. rewrite Lf, L. exact Hi.
  - destruct (exists_bound (final_buf (content s j i) ++
                            flat_map (events_for j i) (ingested ops)))
      as (q & Hq & Hall).
    apply Forall_app in Hall. destruct Hall as [H1 H2].
    rewrite <- (seg_lookup_last _ 0 q).
    + rewrite Hlook by exact Hq. rewrite delta_upto_seen by exact H2.
      apply delta_total_events.
    + destruct Hz as (d & rest & Ez). rewrite Ez. discriminate.
    + exact H1.
Qed.

(** X10.  End to end: in a map built from fragments and finalised, one
    query over [start, end) adds to the bin of every depth [k] the number of
    positions of the range that exactly [k] blocks of the channel and
    chromosome cover (modulo 2^32), when no block wraps around 2^32. *)
Theorem query_histogram_of_built_map :
  forall chrmap fc ops j i h start end_ k,
    Forall (in_range (List.length chrmap)) (ingested ops) ->
    (i < List.length chrmap)%nat ->
    Forall (fun sp => fst sp <= snd sp) (flat_map (spans_for j i) (ingested ops)) ->
    0 <= start <= end_ ->
    hist_sorted h = true -> hist_vals_ok h = true ->
    exists s fm,
      run ops (new_map chrmap fc) = Some s /\
      sort_and_collapse_final s = Some fm /\
      hist_count k (updateCoverageHist fm h start end_ j i) =
      wrap32 (hist_count k h +
              positions_at_depth
                (fun q => Z.of_nat (covering (flat_map (spans_for j i) (ingested ops)) q))
                k start end_).
Proof.
  intros chrmap fc ops j i h start end_ k Hin Hi Hsp Hse Hs Hok.
  destruct (built_final_sequence chrmap fc ops Hin) as (s & fm & E & Ef & _ & Hseq).
  destruct (Hseq j i Hi) as (segs & Hn & Ha & Hz & Hlast & Hlook).
  exists s, fm. split; [exact E|]. split; [exact Ef|].
  unfold updateCoverageHist. rewrite Hn.
  rewrite query_branch_counts by assumption.
  do 2 f_equal. apply positions_ext. intros q Hq.
  rewrite Hlook by lia. rewrite events_for_spans.
  apply delta_upto_covering. exact Hsp.
Qed.

Lemma query_histogram_of_built_map_witness :
  Forall (in_range (List.length chr_demo)) (ingested [Ingest frag_a; Compact; Ingest frag_b]) /\
  (0 < List.length chr_demo)%nat /\
  Forall (fun sp => fst sp <= snd sp)
         (flat_map (spans_for Ch2 0) (ingested [Ingest frag_a; Compact; Ingest frag_b])) /\
  0 <= 120 <= 180 /\
  hist_sorted [] = true /\ hist_vals_ok [] = true /\
  exists s fm,
    run [Ingest frag_a; Compact; Ingest frag_b] (new_map chr_demo 0) = Some s /\
    sort_and_collapse_final s = Some fm /\
    hist_count 2 (updateCoverageHist fm [] 120 180 Ch2 0) =
    wrap32 (hist_count 2 [] +
            positions_at_depth
              (fun q => Z.of_nat (covering (flat_map (spans_for Ch2 0)
                          (ingested [Ingest frag_a; Compact; Ingest frag_b])) q))
              2 120 180).
Proof.
  assert (H1 : Forall (in_range (List.length chr_demo))
                      (ingested [Ingest frag_a; Compact; Ingest frag_b])).
  { repeat constructor. }
  assert (H2 : (0 < List.length chr_demo)%nat) by (simpl; lia).
  assert (H3 : Forall (fun sp => fst sp <= snd sp)
           (flat_map (spans_for Ch2 0) (ingested [Ingest frag_a; Compact; Ingest frag_b]))).
  { repeat constructor; vm_compute; discriminate. }
  assert (H4 : 0 <= 120 <= 180) by lia.
  split; [exact H1|split; [exact H2|split; [exact H3|split; [exact H4|
    split; [reflexivity|split; [reflexivity|]]]]]].
  exact (query_histogram_of_built_map chr_demo 0 [Ingest frag_a; Compact; Ingest frag_b]
           Ch2 0%nat [] 120 180 2 H1 H2 H3 H4 eq_refl eq_refl).
Defined.

(** ** Histograms of whole records *)

Lemma updateCoverageHist_total_mod : forall s h start end_ dir refID,
  (refID < List.length (sel dir (chrName_vec_final s)))%nat ->
  start < end_ ->
  wrap32 (hist_total (updateCoverageHist s h start end_ dir refID)) =
  wrap32 (hist_total h + (end_ - start)).
Proof.
  intros s h start end_ dir refID Hr Hs. unfold updateCoverageHist.
  destruct (nth_error (sel dir (chrName_vec_final s)) refID) as [it_chr|] eqn:E;
    [|apply nth_error_None in E; lia].
  destruct (Nat.eqb (upper_bound it_chr start) (List.length it_chr)).
  - rewrite hist_add_total_mod. apply wrap32_add_r. apply wrap32_idem.
  - rewrite walk_forward_total_mod. f_equal. lia.
Qed.

Lemma walk_forward_vals_ok : forall segs cursor d end_ h,
  hist_vals_ok h = true -> hist_vals_ok (walk_forward segs cursor d end_ h) = true.
Proof.
  induction segs as [|e segs IH]; intros cursor d end_ h Hok; cbn [walk_forward].
  - destruct (cursor <? end_); [apply hist_add_vals_ok|]; assumption.
  - destruct (cursor <? end_); [|assumption].
    destruct (fst e <=? cursor); apply IH; [|apply hist_add_vals_ok]; assumption.
Qed.

Lemma updateCoverageHist_vals_ok : forall s h start end_ dir refID,
  hist_vals_ok h = true ->
  hist_vals_ok (updateCoverageHist s h start end_ dir refID) = true.
Proof.
  intros s h start end_ dir refID Hok. unfold updateCoverageHist.
  destruct (nth_error (sel dir (chrName_vec_final s)) refID) as [it_chr|].
  - destruct (Nat.eqb (upper_bound it_chr start) (List.length it_chr));
      [apply hist_add_vals_ok|apply walk_forward_vals_ok]; assumption.
  - clear - Hok. induction h as [|[k1 v1] h IH]; [reflexivity|].
    cbn [hist_insert]. destruct (0 <? k1); [exact Hok|].
    destruct (0 =? k1); [exact Hok|].
    simpl in Hok |- *. apply andb_true_iff in Hok. destruct Hok as [Hv Hh].
    rewrite Hv. apply IH. exact Hh.
Qed.

Lemma hist_size_wrap : forall h acc,
  fold_left (fun size e => wrap32 (size + snd e)) h (wrap32 acc) =
  wrap32 (acc + hist_total h).
Proof.
  induction h as [|[k v] h IH]; intro acc.
  - simpl. unfold hist_total; simpl. rewrite Z.add_0_r. reflexivity.
  - cbn [fold_left snd].
    change (hist_total ((k, v) :: h)) with (v + hist_total h).
    rewrite (wrap32_add_l (wrap32 acc) acc v (wrap32_idem acc)).
    rewrite IH. f_equal. lia.
Qed.

Lemma fillHist_total_mod : forall s refID dir blocks h,
  (refID < List.length (sel dir (chrName_vec_final s)))%nat ->
  Forall (fun b => fst b < snd b) blocks ->
  wrap32 (hist_total (fillHist s h refID blocks dir)) =
  wrap32 (hist_total h + fold_right (fun b acc => (snd b - fst b) + acc) 0 blocks).
Proof.
  intros s refID dir blocks. unfold fillHist.
  induction blocks as [|b blocks IH]; intros h Hr Hb.
  - simpl. rewrite Z.add_0_r. reflexivity.
  - inversion Hb as [|? ? H1 Hrest]; subst. cbn [fold_left fold_right].
    rewrite IH by assumption.
    rewrite Z.add_assoc. apply wrap32_add_l.
    apply updateCoverageHist_total_mod; assumption.
Qed.

Lemma blocks_len_wrap : forall blocks acc,
  fold_left (fun len b => wrap32 (len + wrap32 (snd b - fst b))) blocks (wrap32 acc) =
  wrap32 (acc + fold_right (fun b acc => (snd b - fst b) + acc) 0 blocks).
Proof.
  induction blocks as [|b blocks IH]; intro acc.
  - simpl. rewrite Z.add_0_r. reflexivity.
  - cbn [fold_left fold_right].
    replace (wrap32 (wrap32 acc + wrap32 (snd b - fst b)))
      with (wrap32 (acc + (snd b - fst b))).
    + rewrite IH. f_equal. lia.
    + rewrite (wrap32_add_l (wrap32 acc) acc _ (wrap32_idem acc)).
      apply wrap32_add_r. symmetry. apply wrap32_idem.
Qed.

(** X11.  For a record on a chromosome within the array whose blocks are
    all non-empty, the number of positions of the histogram that [fillHist]
    builds from an empty one ([histPositions] of [WriteOutput]) equals the
    summed block lengths ([len]), both as [unsigned int]. *)
Theorem histogram_positions_equal_block_lengths :
  forall s refID dir blocks,
    (refID < List.length (sel dir (chrName_vec_final s)))%nat ->
    Forall (fun b => fst b < snd b) blocks ->
    hist_size (fillHist s [] refID blocks dir) = blocks_len blocks.
Proof.
  intros s refID dir blocks Hr Hb.
  unfold hist_size, blocks_len.
  change 0 with (wrap32 0).
  rewrite hist_size_wrap, blocks_len_wrap.
  rewrite !Z.add_0_l.
  rewrite (fillHist_total_mod s refID dir blocks [] Hr Hb).
  reflexivity.
Qed.

Lemma histogram_positions_equal_block_lengths_witness :
  (0 < List.length (sel Ch2 (chrName_vec_final demo_final)))%nat /\
  Forall (fun b => fst b < snd b) [(90, 120); (140, 210)] /\
  hist_size (fillHist demo_final [] 0 [(90, 120); (140, 210)] Ch2) =
  blocks_len [(90, 120); (140, 210)].
Proof.
  assert (H1 : (0 < List.length (sel Ch2 (chrName_vec_final demo_final)))%nat)
    by (simpl; lia).
  assert (H2 : Forall (fun b => fst b < snd b) [(90, 120); (140, 210)])
    by (repeat constructor).
  split; [exact H1|split; [exact H2|]].
  exact (histogram_positions_equal_block_lengths demo_final 0%nat Ch2
           [(90, 120); (140, 210)] H1 H2).
Defined.

Lemma fillHist_outside_array : forall s refID dir blocks h,
  nth_error (sel dir (chrName_vec_final s)) refID = None ->
  blocks <> [] ->
  fillHist s h refID blocks dir = hist_insert 0 0 h.
Proof.
  intros s refID dir blocks h Hn Hne. unfold fillHist.
  assert (Hstep : forall acc b,
            updateCoverageHist s acc (fst b) (snd b) dir refID = hist_insert 0 0 acc).
  { intros acc b. unfold updateCoverageHist. rewrite Hn. reflexivity. }
  assert (Hidem : forall acc, hist_insert 0 0 (hist_insert 0 0 acc) = hist_insert 0 0 acc).
  { induction acc as [|[k1 v1] acc IH]; [reflexivity|].
    cbn [hist_insert]. destruct (Z.ltb_spec 0 k1).
    - cbn [hist_insert]. rewrite Z.ltb_irrefl, Z.eqb_refl. reflexivity.
    - destruct (Z.eqb_spec 0 k1).
      + cbn [hist_insert]. destruct (Z.ltb_spec 0 k1); [lia|].
        destruct (Z.eqb_spec 0 k1); [reflexivity|lia].
      + cbn [hist_insert]. destruct (Z.ltb_spec 0 k1); [lia|].
        destruct (Z.eqb_spec 0 k1); [lia|]. rewrite IH. reflexivity. }
  destruct blocks as [|b blocks]; [contradiction|]. clear Hne.
  cbn [fold_left]. rewrite Hstep.
  induction blocks as [|b' blocks IH]; [reflexivity|].
  cbn [fold_left]. rewrite Hstep, Hidem. exact IH.
Qed.

(** X12.  For a record whose chromosome name is not registered, the lookup
    of [WriteOutput] yields [chrs.size()], which is outside the array: the
    histogram of any non-empty block list is [{0: 0}], on which the mean
    and the trimmed mean divide 0 by 0 and every percentile strictly between
    0 and 100 reads past the last bin. *)
Theorem summary_of_unregistered_chromosome :
  forall s chrs cur_chr dir blocks,
    (List.length (sel dir (chrName_vec_final s)) <= List.length chrs)%nat ->
    find (fun obj => String.eqb (chr_name obj) cur_chr) chrs = None ->
    blocks <> [] ->
    fillHist s [] (lookup_refID chrs cur_chr) blocks dir = [(0, 0)] /\
    meanFromHist [(0, 0)] = quotient 0 0 /\
    (forall centerPercent, trimmedMeanFromHist [(0, 0)] centerPercent = quotient 0 0) /\
    (forall percentile, 0 < percentile < 100 ->
       percentileFromHist [(0, 0)] percentile = ReadsPastEnd).
Proof.
  intros s chrs cur_chr dir blocks Hlen Hfind Hne.
  split; [|split; [reflexivity|split]].
  - rewrite fillHist_outside_array; [reflexivity| |exact Hne].
    unfold lookup_refID. rewrite Hfind. apply nth_error_None. exact Hlen.
  - intro cp. unfold trimmedMeanFromHist.
    change (hist_size [(0, 0)]) with 0. rewrite Z.mul_0_l. reflexivity.
  - intros p Hp. unfold percentileFromHist.
    change (wrap32 (hist_size [(0, 0)] + 1)) with 1. rewrite Z.mul_1_l.
    rewrite Z.div_small by lia. rewrite Z.mod_small by lia.
    destruct (Z.eqb_spec p 0); [lia|]. reflexivity.
Qed.

Lemma summary_of_unregistered_chromosome_witness :
  (List.length (sel Ch2 (chrName_vec_final demo_final)) <= List.length chr_demo)%nat /\
  find (fun obj => String.eqb (chr_name obj) "chrX"%string) chr_demo = None /\
  [(10, 30)] <> [] /\
  fillHist demo_final [] (lookup_refID chr_demo "chrX"%string) [(10, 30)] Ch2 = [(0, 0)] /\
  meanFromHist [(0, 0)] = quotient 0 0 /\
  (forall centerPercent, trimmedMeanFromHist [(0, 0)] centerPercent = quotient 0 0) /\
  (forall percentile, 0 < percentile < 100 ->
     percentileFromHist [(0, 0)] percentile = ReadsPastEnd).
Proof.
  assert (H1 : (List.length (sel Ch2 (chrName_vec_final demo_final)) <=
                List.length chr_demo)%nat) by (simpl; lia).
  assert (H2 : find (fun obj => String.eqb (chr_name obj) "chrX"%string) chr_demo = None)
    by reflexivity.
  assert (H3 : [(10, 30)] <> [] :> list (Z * Z)) by discriminate.
  split; [exact H1|split; [exact H2|split; [exact H3|]]].
  exact (summary_of_unregistered_chromosome demo_final chr_demo "chrX"%string Ch2
           [(10, 30)] H1 H2 H3).
Defined.

(** X13.  The cached chromosome index of a worker is coherent: after any
    sequence of records, it is the index that a fresh lookup of the last
    record's chromosome name gives, for every non-empty name. *)
Theorem cached_refID_is_coherent :
  forall chrs names chrName,
    chrName <> EmptyString ->
    fold_left (resolve_refID chrs) (names ++ [chrName]) resolve_start =
    (chrName, lookup_refID chrs chrName).
Proof.
  intros chrs names chrName Hne.
  assert (Hinv : forall l st,
            (st = resolve_start \/ snd st = lookup_refID chrs (fst st)) ->
            let st' := fold_left (resolve_refID chrs) l st in
            st' = resolve_start \/ snd st' = lookup_refID chrs (fst st')).
  { induction l as [|n l IH]; intros st H; [exact H|].
    cbn [fold_left]. apply IH. unfold resolve_refID.
    destruct (String.eqb n (fst st)); [exact H|]. right. reflexivity. }
  rewrite fold_left_app. cbn [fold_left].
  specialize (Hinv names resolve_start (or_introl eq_refl)). cbv zeta in Hinv.
  destruct (fold_left (resolve_refID chrs) names resolve_start) as [cur r].
  unfold resolve_refID. cbn [fst snd] in *.
  destruct (String.eqb_spec chrName cur) as [E|N]; [|reflexivity].
  subst cur. destruct Hinv as [H|H].
  - inversion H. contradiction.
  - rewrite H. reflexivity.
Qed.

Lemma cached_refID_is_coherent_witness :
  "chr2"%string <> EmptyString /\
  fold_left (resolve_refID chr_demo)
            (["chr1"%string; "chr1"%string; "chrX"%string; "chr2"%string] ++
             ["chr2"%string])
            resolve_start =
  ("chr2"%string, lookup_refID chr_demo "chr2"%string).
Proof.
  assert (H : "chr2"%string <> EmptyString) by discriminate.
  split; [exact H|].
  exact (cached_refID_is_coherent chr_demo
           ["chr1"%string; "chr1"%string; "chrX"%string; "chr2"%string]
           "chr2"%string H).
Defined.

(** ** The low-coverage regions *)

Lemma in_rows_snoc : forall rows r q,
  in_rows (rows ++ [r]) q = in_rows rows q || ((snd (fst r) <=? q) && (q <? snd r)).
Proof.
  intros rows r q. unfold in_rows. rewrite existsb_app. simpl.
  rewrite orb_false_r. reflexivity.
Qed.

Lemma in_rows_beyond : forall rows q,
  Forall (fun r => snd r <= q) rows -> in_rows rows q = false.
Proof.
  induction rows as [|r rows IH]; intros q H; [reflexivity|].
  inversion H as [|? ? Hr Hrest]; subst. simpl. rewrite (IH q Hrest).
  destruct (Z.ltb_spec q (snd r)); [lia|]. rewrite andb_false_r. reflexivity.
Qed.

Lemma ascending_last_max : forall l x,
  ascending (x :: l) -> Forall (fun e => fst e <= fst (last (x :: l) (0, 0))) (x :: l).
Proof.
  induction l as [|y l IH]; intros x H.
  - constructor; [simpl; lia|constructor].
  - destruct H as [Hxy Hl]. specialize (IH y Hl).
    change (last (x :: y :: l) (0, 0)) with (last (y :: l) (0, 0)).
    constructor; [|exact IH].
    pose proof (Forall_inv IH) as Hy. cbn beta in Hy. lia.
Qed.

Lemma ascending_snoc_inv : forall l x e,
  ascending ((x :: l) ++ [e]) ->
  ascending (x :: l) /\ fst (last (x :: l) (0, 0)) < fst e.
Proof.
  induction l as [|y l IH]; intros x e H.
  - simpl in H. destruct H as [H _]. split; [exact I|exact H].
  - change ((x :: y :: l) ++ [e]) with (x :: ((y :: l) ++ [e])) in H.
    change ((y :: l) ++ [e]) with (y :: (l ++ [e])) in H.
    destruct H as [Hxy Hl].
    change (y :: (l ++ [e])) with ((y :: l) ++ [e]) in Hl.
    destruct (IH y e Hl) as [Ha Hlt].
    split; [split; assumption|exact Hlt].
Qed.

Lemma export_inv_walk : forall name threshold rest d,
  ascending ((0, d) :: rest) ->
  export_inv name threshold ((0, d) :: rest)
    (fold_left (export_step name threshold) ((0, d) :: rest)
       (if (0 =? 0) && (threshold <? d) then (true, [])
        else (false, [RowStart name 0]))).
Proof.
  intros name thr rest d. induction rest as [|e rest IH] using rev_ind; intro Ha.
  - unfold export_inv, export_step. change (0 =? 0) with true.
    cbn [andb fold_left fst snd last].
    destruct (Z.ltb_spec thr d) as [Hd|Hd]; cbn [fst snd].
    + exists [], None. cbn [fold_left].
      split; [reflexivity|]. split; [reflexivity|].
      split; [reflexivity|]. split; [constructor|].
      intros q Hq. simpl. destruct (Z.leb_spec 0 q); [|lia].
      symmetry. apply Z.leb_gt. exact Hd.
    + exists [], (Some (name, 0)). cbn [fold_left parse_step].
      split; [reflexivity|]. split; [reflexivity|].
      split; [repeat split; lia|]. split; [constructor|].
      intros q Hq. simpl. destruct (Z.leb_spec 0 q); [|lia].
      symmetry. apply Z.leb_le. exact Hd.
  - change ((0, d) :: rest ++ [e]) with (((0, d) :: rest) ++ [e]) in *.
    destruct (ascending_snoc_inv _ _ _ Ha) as [Hpre Hlt].
    specialize (IH Hpre). rewrite fold_left_app. unfold entry in *.
    pose proof (ascending_last_max rest (0, d) Hpre) as Hmax.
    match goal with
    | |- context [fold_left _ [e] ?x] => set (st := x) in *
    end.
    clearbody st. cbn [fold_left]. destruct st as [covered os].
    destruct IH as (rows & open & Hparse & Hcov & Hopen & Hrows & Hlow).
    cbn [fst snd] in *. unfold entry in *.
    set (pre := (0, d) :: rest) in *.
    assert (Hbeyond : forall q, fst e <= q ->
              seg_lookup 0 pre q = snd (last pre (0, 0))).
    { intros q Hq. apply seg_lookup_last; [discriminate|].
      eapply Forall_impl; [|exact Hmax]. cbn beta. intros; lia. }
    assert (Hends : forall q, fst e <= q -> in_rows rows q = false).
    { intros q Hq. apply in_rows_beyond.
      eapply Forall_impl; [|exact Hrows]. cbn beta. intros r [_ Hr]. lia. }
    unfold export_inv, export_step. cbn [fst snd]. rewrite last_last.
    destruct (Z.ltb_spec thr (snd e)) as [Hd|Hd].
    + destruct covered.
      * (* stays covered *)
        destruct open as [[n a]|]; [destruct Hopen; discriminate|].
        exists rows, None. cbn [fst snd].
        split; [exact Hparse|]. split; [reflexivity|]. split; [reflexivity|].
        split.
        { eapply Forall_impl; [|exact Hrows]. cbn beta. intros r [? ?]. split; [assumption|lia]. }
        intros q Hq. rewrite seg_lookup_snoc.
        destruct (Z.leb_spec (fst e) q) as [Hp|Hp]; [|apply Hlow; exact Hq].
        rewrite orb_false_r, Hends by exact Hp.
        symmetry. apply Z.leb_gt. exact Hd.
      * (* the row ends *)
        destruct open as [[n a]|]; [|discriminate].
        destruct Hopen as (_ & Hn & Hle).
        exists (rows ++ [(n, a, fst e)]), None. cbn [fst snd].
        split; [rewrite fold_left_app, Hparse; reflexivity|].
        split; [reflexivity|]. split; [reflexivity|].
        split.
        { apply Forall_app. split.
          - eapply Forall_impl; [|exact Hrows]. cbn beta. intros r [? ?]. split; [assumption|lia].
          - constructor; [|constructor]. cbn [fst snd]. split; [exact Hn|lia]. }
        intros q Hq. rewrite seg_lookup_snoc, in_rows_snoc, orb_false_r. cbn [fst snd].
        destruct (Z.leb_spec (fst e) q) as [Hp|Hp].
        { rewrite Hends by exact Hp.
          destruct (Z.ltb_spec q (fst e)); [lia|]. rewrite andb_false_r.
          symmetry. apply Z.leb_gt. exact Hd. }
        { rewrite <- (Hlow q Hq).
          destruct (Z.ltb_spec q (fst e)); [|lia]. rewrite andb_true_r. reflexivity. }
    + destruct covered.
      * (* a row begins *)
        destruct open as [[n a]|]; [destruct Hopen; discriminate|].
        exists rows, (Some (name, fst e)). cbn [fst snd].
        split; [rewrite fold_left_app, Hparse; reflexivity|].
        split; [reflexivity|]. split; [repeat split; lia|].
        split.
        { eapply Forall_impl; [|exact Hrows]. cbn beta. intros r [? ?]. split; [assumption|lia]. }
        intros q Hq. rewrite seg_lookup_snoc.
        destruct (Z.leb_spec (fst e) q) as [Hp|Hp].
        { rewrite orb_true_r. symmetry. apply Z.leb_le. exact Hd. }
        { rewrite <- (Hlow q Hq). reflexivity. }
      * (* the row stays open *)
        destruct open as [[n a]|]; [|discriminate].
        destruct Hopen as (_ & Hn & Hle).
        exists rows, (Some (n, a)). cbn [fst snd].
        split; [exact Hparse|].
        split; [reflexivity|]. split; [repeat split; [exact Hn|lia]|].
        split.
        { eapply Forall_impl; [|exact Hrows]. cbn beta. intros r [? ?]. split; [assumption|lia]. }
        intros q Hq. rewrite seg_lookup_snoc.
        destruct (Z.leb_spec (fst e) q) as [Hp|Hp]; [|apply Hlow; exact Hq].
        destruct (Z.leb_spec a q); [|lia]. rewrite orb_true_r.
        symmetry. apply Z.leb_le. exact Hd.
Qed.

(** The rows written for one chromosome, on a sequence with strictly
    increasing positions that starts at position 0. *)
Lemma export_chr_rows : forall c segs threshold,
  ascending segs ->
  (exists d rest, segs = (0, d) :: rest) ->
  exists os rows,
    export_chr c segs threshold = Some os /\
    rows_of os = Some rows /\
    Forall (fun r : row => fst (fst r) = chr_name c) rows /\
    forall q, 0 <= q < chr_len c ->
      in_rows rows q = (seg_lookup 0 segs q <=? threshold).
Proof.
  intros c segs thr Ha (d & rest & E). subst segs.
  pose proof (export_inv_walk (chr_name c) thr rest d Ha) as Hinv.
  unfold export_chr. cbn [fst snd].
  destruct (fold_left (export_step (chr_name c) thr) ((0, d) :: rest) _) as [covered os].
  destruct Hinv as (rows & open & Hparse & Hcov & Hopen & Hrows & Hlow).
  cbn [fst snd] in *.
  destruct covered.
  - destruct open as [[n a]|]; [destruct Hopen; discriminate|].
    exists os, rows. split; [reflexivity|].
    split; [unfold rows_of; rewrite Hparse; reflexivity|].
    split; [eapply Forall_impl; [|exact Hrows]; cbn beta; intros r [? _]; assumption|].
    intros q Hq. rewrite <- Hlow by lia. rewrite orb_false_r. reflexivity.
  - destruct open as [[n a]|]; [|discriminate].
    destruct Hopen as (_ & Hn & Hle).
    exists (os ++ [RowEnd (chr_len c)]), (rows ++ [(n, a, chr_len c)]).
    split; [reflexivity|].
    split; [unfold rows_of; rewrite fold_left_app, Hparse; reflexivity|].
    split.
    + apply Forall_app. split.
      * eapply Forall_impl; [|exact Hrows]. cbn beta. intros r [? _]. assumption.
      * constructor; [exact Hn|constructor].
    + intros q Hq. rewrite <- Hlow by lia. rewrite in_rows_snoc. cbn [fst snd].
      destruct (Z.ltb_spec q (chr_len c)); [|lia]. rewrite andb_true_r. reflexivity.
Qed.

(** X14.  End to end: on a map built from fragments, whose chromosomes carry
    identifiers within the array, [FragmentsMap::WriteOutput] succeeds, and
    what it writes is, chromosome by chromosome in the order of [chrs], a
    sequence of complete rows under the name of the chromosome; a position
    within the chromosome length lies in a row exactly when at most
    [threshold] blocks cover it. *)
Theorem WriteOutput_rows_are_low_coverage :
  forall chrmap fc ops threshold,
    Forall (in_range (List.length chrmap)) (ingested ops) ->
    Forall (fun c => (refID c < List.length chrmap)%nat) chrmap ->
    Forall (fun sp => fst sp <= snd sp)
           (flat_map (fun b => spans_for Ch2 (chr_id b) b) (ingested ops)) ->
    exists s fm parts,
      run ops (new_map chrmap fc) = Some s /\
      FragmentsMap_WriteOutput s threshold = Some (fm, concat parts) /\
      Forall2 (fun c os =>
                 exists rows,
                   rows_of os = Some rows /\
                   Forall (fun r : row => fst (fst r) = chr_name c) rows /\
                   forall q, 0 <= q < chr_len c ->
                     in_rows rows q =
                     (Z.of_nat (covering (flat_map (spans_for Ch2 (refID c)) (ingested ops)) q)
                      <=? threshold))
              chrmap parts.
Proof.
  intros chrmap fc ops thr Hin Hid Hsp.
  destruct (built_final_sequence chrmap fc ops Hin) as (s & fm & E & Ef & Hc & Hseq).
  assert (Hspans : forall i,
            Forall (fun sp => fst sp <= snd sp)
                   (flat_map (spans_for Ch2 i) (ingested ops))).
  { intro i. clear - Hsp. induction (ingested ops) as [|b l IH]; [constructor|].
    simpl in Hsp |- *. apply Forall_app in Hsp. destruct Hsp as [Hb Hl].
    apply Forall_app. split; [|apply IH; exact Hl].
    unfold spans_for in *. rewrite Nat.eqb_refl in Hb.
    destruct (Nat.eqb (chr_id b) i); [exact Hb|constructor]. }
  assert (Hloop : forall cs,
            Forall (fun c => (refID c < List.length chrmap)%nat) cs ->
            exists parts,
              export_loop cs fm thr = Some (concat parts) /\
              Forall2 (fun c os =>
                 exists rows,
                   rows_of os = Some rows /\
                   Forall (fun r : row => fst (fst r) = chr_name c) rows /\
                   forall q, 0 <= q < chr_len c ->
                     in_rows rows q =
                     (Z.of_nat (covering (flat_map (spans_for Ch2 (refID c)) (ingested ops)) q)
                      <=? thr))
                 cs parts).
  { induction cs as [|c cs IH]; intro Hcs.
    - exists []. split; [reflexivity|constructor].
    - inversion Hcs as [|? ? Hr Hrest]; subst.
      destruct (IH Hrest) as (parts & El & Hparts).
      destruct (Hseq Ch2 (refID c) Hr) as (segs & Hn & Ha & Hz & _ & Hlook).
      destruct (export_chr_rows c segs thr Ha Hz) as (os & rows & Eo & Er & Hname & Hlow).
      exists (os :: parts). split.
      + cbn [export_loop concat].
        change (at2 (chrName_vec_final fm)) with (sel Ch2 (chrName_vec_final fm)).
        rewrite Hn, Eo, El. reflexivity.
      + constructor; [|exact Hparts].
        exists rows. split; [exact Er|]. split; [exact Hname|].
        intros q Hq. rewrite Hlow by exact Hq. f_equal.
        rewrite Hlook by lia. rewrite events_for_spans.
        apply delta_upto_covering. apply Hspans. }
  destruct (Hloop chrmap Hid) as (parts & El & Hparts).
  exists s, fm, parts. split; [exact E|]. split; [|exact Hparts].
  unfold FragmentsMap_WriteOutput. rewrite Ef, Hc, El. reflexivity.
Qed.

Lemma WriteOutput_rows_are_low_coverage_witness :
  Forall (in_range (List.length chr_demo)) (ingested [Ingest frag_a; Compact; Ingest frag_b]) /\
  Forall (fun c => (refID c < List.length chr_demo)%nat) chr_demo /\
  Forall (fun sp => fst sp <= snd sp)
         (flat_map (fun b => spans_for Ch2 (chr_id b) b)
                   (ingested [Ingest frag_a; Compact; Ingest frag_b])) /\
  exists s fm parts,
    run [Ingest frag_a; Compact; Ingest frag_b] (new_map chr_demo 0) = Some s /\
    FragmentsMap_WriteOutput s 1 = Some (fm, concat parts) /\
    Forall2 (fun c os =>
               exists rows,
                 rows_of os = Some rows /\
                 Forall (fun r : row => fst (fst r) = chr_name c) rows /\
                 forall q, 0 <= q < chr_len c ->
                   in_rows rows q =
                   (Z.of_nat (covering (flat_map (spans_for Ch2 (refID c))
                                (ingested [Ingest frag_a; Compact; Ingest frag_b])) q)
                    <=? 1))
            chr_demo parts.
Proof.
  assert (H1 : Forall (in_range (List.length chr_demo))
                      (ingested [Ingest frag_a; Compact; Ingest frag_b])).
  { repeat constructor. }
  assert (H2 : Forall (fun c => (refID c < List.length chr_demo)%nat) chr_demo).
  { repeat constructor. }
  assert (H3 : Forall (fun sp => fst sp <= snd sp)
                 (flat_map (fun b => spans_for Ch2 (chr_id b) b)
                           (ingested [Ingest frag_a; Compact; Ingest frag_b]))).
  { repeat constructor; vm_compute; discriminate. }
  split; [exact H1|split; [exact H2|split; [exact H3|]]].
  exact (WriteOutput_rows_are_low_coverage chr_demo 0
           [Ingest frag_a; Compact; Ingest frag_b] 1 H1 H2 H3).
Defined.

(** ** The trimmed mean *)

Lemma sum_list_app : forall l1 l2, sum_list (l1 ++ l2) = sum_list l1 + sum_list l2.
Proof.
  induction l1 as [|x l1 IH]; intro l2; [reflexivity|].
  unfold sum_list in *. simpl. rewrite IH. lia.
Qed.

Lemma sum_list_repeat : forall k n, sum_list (repeat k n) = k * Z.of_nat n.
Proof.
  induction n as [|n IH]; [unfold sum_list; simpl; lia|].
  unfold sum_list in *. cbn [repeat fold_right]. rewrite IH. lia.
Qed.

Lemma skipn_repeat_Z : forall (k : Z) a n, skipn a (repeat k n) = repeat k (n - a).
Proof.
  induction a as [|a IH]; intro n.
  - rewrite Nat.sub_0_r. reflexivity.
  - destruct n as [|n]; [reflexivity|]. simpl. apply IH.
Qed.

Lemma firstn_repeat_Z : forall (k : Z) b n, firstn b (repeat k n) = repeat k (Nat.min b n).
Proof.
  induction b as [|b IH]; intro n; [reflexivity|].
  destruct n as [|n]; [reflexivity|]. simpl. rewrite IH. reflexivity.
Qed.

Lemma slice_repeat_app : forall (k : Z) a b n l,
  firstn b (skipn a (repeat k n ++ l)) =
  repeat k (Nat.min b (n - a)) ++ firstn (b - (n - a)) (skipn (a - n) l).
Proof.
  intros k a b n l.
  rewrite skipn_app, firstn_app, skipn_repeat_Z, firstn_repeat_Z.
  rewrite !repeat_length. reflexivity.
Qed.

Lemma hist_total_app : forall h1 h2, hist_total (h1 ++ h2) = hist_total h1 + hist_total h2.
Proof.
  induction h1 as [|e h1 IH]; intro h2; [reflexivity|].
  unfold hist_total in *. simpl. rewrite IH. lia.
Qed.

Lemma hist_vals_ok_cons : forall k v h,
  hist_vals_ok ((k, v) :: h) = true -> 0 <= v < two32 /\ hist_vals_ok h = true.
Proof.
  intros k v h H. simpl in H. apply andb_true_iff in H. destruct H as [Hv Hh].
  rewrite andb_true_iff, Z.leb_le, Z.ltb_lt in Hv. simpl in Hv. auto.
Qed.

Lemma products_ok_cons : forall k v h,
  products_ok ((k, v) :: h) = true -> 0 <= k * v < two32 /\ products_ok h = true.
Proof.
  intros k v h H. simpl in H. apply andb_true_iff in H. destruct H as [Hv Hh].
  rewrite andb_true_iff, Z.leb_le, Z.ltb_lt in Hv. simpl in Hv. auto.
Qed.

Lemma hist_vals_ok_app : forall h1 h2,
  hist_vals_ok (h1 ++ h2) = true -> hist_vals_ok h1 = true /\ hist_vals_ok h2 = true.
Proof.
  intros h1 h2 H. unfold hist_vals_ok in *. rewrite forallb_app in H.
  apply andb_true_iff in H. exact H.
Qed.

Lemma expand_length : forall h,
  hist_vals_ok h = true -> Z.of_nat (List.length (expand h)) = hist_total h.
Proof.
  induction h as [|[k v] h IH]; intro Hok; [reflexivity|].
  destruct (hist_vals_ok_cons _ _ _ Hok) as [Hv Hh].
  change (expand ((k, v) :: h)) with (repeat k (Z.to_nat v) ++ expand h).
  change (hist_total ((k, v) :: h)) with (v + hist_total h).
  rewrite length_app, repeat_length, Nat2Z.inj_add, IH by exact Hh. lia.
Qed.

Lemma part_product_range : forall k v m,
  0 <= k * v < two32 -> 0 <= m <= v -> 0 <= k * m <= k * v.
Proof.
  intros k v m Hkv Hm.
  destruct (Z.eq_dec v 0) as [->|Hv].
  - assert (m = 0) by lia. subst m. lia.
  - assert (0 <= k) by nia. nia.
Qed.

Lemma overlap_range : forall count v lo hi, 0 <= v -> 0 <= overlap count v lo hi <= v.
Proof. intros. unfold overlap. lia. Qed.

Lemma window_sum_range : forall h count lo hi,
  hist_vals_ok h = true -> products_ok h = true ->
  0 <= window_sum h count lo hi <= hist_weighted h.
Proof.
  induction h as [|[k v] h IH]; intros count lo hi Hok Hp.
  - unfold hist_weighted; simpl; lia.
  - destruct (hist_vals_ok_cons _ _ _ Hok) as [Hv Hh].
    destruct (products_ok_cons _ _ _ Hp) as [Hkv Hph].
    change (hist_weighted ((k, v) :: h)) with (k * v + hist_weighted h).
    cbn [window_sum fst snd].
    specialize (IH (count + v) lo hi Hh Hph).
    pose proof (overlap_range count v lo hi (proj1 Hv)) as Ho.
    pose proof (part_product_range k v _ Hkv Ho). lia.
Qed.

Lemma window_sum_beyond : forall h count lo hi,
  hist_vals_ok h = true -> hi <= count -> window_sum h count lo hi = 0.
Proof.
  induction h as [|[k v] h IH]; intros count lo hi Hok Hc; [reflexivity|].
  destruct (hist_vals_ok_cons _ _ _ Hok) as [Hv Hh].
  cbn [window_sum fst snd]. rewrite IH by (auto; lia).
  unfold overlap. replace (Z.max 0 _) with 0 by lia. lia.
Qed.

(** The walk of [trimmedMeanFromHist], when neither the counts nor the
    products wrap around: its total is the sum of the depths over the ranks
    [skip .. size - skip), and where it returns a depth, the bin of this
    depth holds all these ranks. *)
Lemma trimmed_walk_spec : forall h size skip total count,
  hist_vals_ok h = true -> products_ok h = true ->
  0 <= count -> count + hist_total h = size -> 0 < size < two32 ->
  0 <= skip -> count <= size - skip ->
  0 <= total -> total + hist_weighted h < two64 ->
  match trimmed_walk h size skip total count with
  | inl t => t = total + window_sum h count skip (size - skip) /\ 0 < size - 2 * skip
  | inr k => exists pre v post,
               h = pre ++ (k, v) :: post /\
               count + hist_total pre <= skip /\
               size - skip < count + hist_total pre + v
  end.
Proof.
  induction h as [|[k v] h IH]; intros size skip total count Hok Hp Hc Hsz Hsize Hskip Hle Ht Hw.
  - cbn [trimmed_walk window_sum]. change (hist_total []) with 0 in Hsz. lia.
  - destruct (hist_vals_ok_cons _ _ _ Hok) as [Hv Hh].
    destruct (products_ok_cons _ _ _ Hp) as [Hkv Hph].
    pose proof (hist_total_nonneg h Hh) as Hpos.
    pose proof (window_sum_range h (count + v) skip (size - skip) Hh Hph) as Hws.
    change (hist_total ((k, v) :: h)) with (v + hist_total h) in Hsz.
    change (hist_weighted ((k, v) :: h)) with (k * v + hist_weighted h) in Hw.
    cbn [trimmed_walk window_sum fst snd].
    rewrite (wrap32_small (size - skip)) by lia.
    rewrite (wrap32_small (count + v)) by lia.
    destruct (Z.ltb_spec (size - skip) (count + v)) as [Hbreak|Hcont].
    + destruct (Z.ltb_spec skip count) as [Hin|Hout].
      * (* the last bin of the window *)
        rewrite (wrap32_small (size - skip - count)) by lia.
        pose proof (part_product_range k v (size - skip - count) Hkv ltac:(lia)) as Hpart.
        rewrite (wrap32_small (k * (size - skip - count))) by lia.
        unfold wrap64. rewrite Z.mod_small by lia.
        rewrite window_sum_beyond by (auto; lia).
        unfold overlap. split; [|lia].
        replace (Z.max 0 (Z.min (count + v) (size - skip) - Z.max count skip))
          with (size - skip - count) by lia.
        lia.
      * exists [], v, h. change (hist_total []) with 0. split; [reflexivity|lia].
    + assert (Hov : exists m, 0 <= m <= v /\ overlap count v skip (size - skip) = m /\
                (if skip <? count then wrap64 (total + wrap32 (k * v))
                 else if skip <? count + v
                      then wrap64 (total + wrap32 (k * wrap32 (count + v - skip)))
                      else total) = total + k * m).
      { destruct (Z.ltb_spec skip count) as [Hin|Hout].
        - exists v. split; [lia|]. split; [unfold overlap; lia|].
          rewrite (wrap32_small (k * v)) by lia.
          unfold wrap64. rewrite Z.mod_small by lia. reflexivity.
        - destruct (Z.ltb_spec skip (count + v)) as [Hpart|Hnone].
          + exists (count + v - skip). split; [lia|]. split; [unfold overlap; lia|].
            rewrite (wrap32_small (count + v - skip)) by lia.
            pose proof (part_product_range k v (count + v - skip) Hkv ltac:(lia)).
            rewrite (wrap32_small (k * (count + v - skip))) by lia.
            unfold wrap64. rewrite Z.mod_small by lia. reflexivity.
          + exists 0. split; [lia|]. split; [unfold overlap; lia|]. lia. }
      destruct Hov as (m & Hm & Eo & Et). rewrite Et, Eo.
      pose proof (part_product_range k v m Hkv Hm) as Hpart.
      specialize (IH size skip (total + k * m) (count + v) Hh Hph
                    ltac:(lia) ltac:(lia) Hsize Hskip ltac:(lia) ltac:(lia) ltac:(lia)).
      destruct (trimmed_walk h size skip (total + k * m) (count + v)) as [t|k'].
      * destruct IH as [-> Hden]. split; [lia|exact Hden].
      * destruct IH as (pre & v' & post & -> & H1 & H2).
        exists ((k, v) :: pre), v', post.
        change (hist_total ((k, v) :: pre)) with (v + hist_total pre).
        split; [reflexivity|lia].
Qed.

Lemma window_sum_expand : forall h count lo hi,
  hist_vals_ok h = true ->
  window_sum h count lo hi =
  sum_list (firstn (Z.to_nat (hi - Z.max lo count))
                   (skipn (Z.to_nat (lo - count)) (expand h))).
Proof.
  induction h as [|[k v] h IH]; intros count lo hi Hok.
  - cbn [window_sum expand flat_map]. rewrite skipn_nil, firstn_nil. reflexivity.
  - destruct (hist_vals_ok_cons _ _ _ Hok) as [Hv Hh].
    change (expand ((k, v) :: h)) with (repeat k (Z.to_nat v) ++ expand h).
    rewrite slice_repeat_app, sum_list_app, sum_list_repeat.
    cbn [window_sum fst snd]. rewrite (IH (count + v) lo hi Hh).
    f_equal.
    + f_equal. unfold overlap. lia.
    + f_equal. f_equal; [lia|]. f_equal. lia.
Qed.

(** X15.  On a non-empty histogram whose counts and products do not wrap
    around, [trimmedMeanFromHist] with a centre percentage of at most 100
    drops the [skip = floor (size * (100 - centerPercent) / 200)] lowest and
    the [skip] highest of the depths and returns the sum of the others
    divided by their number, which is positive; where it returns a depth
    without dividing, all the others have this depth. *)
Theorem trimmed_mean_is_mean_of_middle :
  forall h centerPercent,
    hist_vals_ok h = true -> products_ok h = true ->
    0 < hist_total h < two32 -> hist_weighted h < two64 ->
    0 <= centerPercent <= 100 ->
    let size := hist_total h in
    let skip := (size * (100 - centerPercent)) / 200 in
    Z.of_nat (List.length (middle h skip)) = size - 2 * skip /\
    ((0 < size - 2 * skip /\
      trimmedMeanFromHist h centerPercent =
      quotient (sum_list (middle h skip)) (size - 2 * skip)) \/
     (exists k, trimmedMeanFromHist h centerPercent = of_unsigned k /\
                middle h skip = repeat k (Z.to_nat (size - 2 * skip)))).
Proof.
  intros h cp Hok Hp Hsize Hw Hcp size skip.
  assert (Hskip : 0 <= skip /\ 2 * skip <= size).
  { unfold skip. split.
    - apply Z.div_pos; [|lia]. apply Z.mul_nonneg_nonneg; lia.
    - assert (size * (100 - cp) / 200 <= size * 100 / 200).
      { apply Z.div_le_mono; [lia|]. apply Z.mul_le_mono_nonneg_l; lia. }
      assert (size * 100 / 200 <= size / 2).
      { replace 200 with (100 * 2) by lia. rewrite <- Z.div_div by lia.
        rewrite Z.div_mul by lia. lia. }
      pose proof (Z.mul_div_le size 2 ltac:(lia)). lia. }
  pose proof (expand_length h Hok) as Hlen.
  split.
  { unfold middle. rewrite length_firstn, length_skipn. fold size. lia. }
  pose proof (trimmed_walk_spec h size skip 0 0 Hok Hp ltac:(lia) ltac:(unfold size; lia)
                Hsize (proj1 Hskip) ltac:(lia) ltac:(lia) ltac:(lia)) as Hwalk.
  unfold trimmedMeanFromHist. rewrite (hist_size_total h Hok) by lia.
  fold size. fold skip.
  destruct (trimmed_walk h size skip 0 0) as [t|k].
  - left. destruct Hwalk as [-> Hden]. split; [exact Hden|].
    rewrite (wrap32_small (size - 2 * skip)) by lia.
    rewrite window_sum_expand by exact Hok.
    unfold middle. fold size. rewrite Z.add_0_l.
    replace (size - skip - Z.max skip 0) with (size - 2 * skip) by lia.
    replace (skip - 0) with skip by lia. reflexivity.
  - right. exists k. split; [reflexivity|].
    destruct Hwalk as (pre & v & post & E & H1 & H2).
    assert (Hokpre : hist_vals_ok pre = true).
    { rewrite E in Hok. apply hist_vals_ok_app in Hok. apply Hok. }
    assert (Hv : 0 <= v).
    { rewrite E in Hok. apply hist_vals_ok_app in Hok. destruct Hok as [_ Hok].
      apply hist_vals_ok_cons in Hok. lia. }
    pose proof (expand_length pre Hokpre) as Hlpre.
    pose proof (hist_total_nonneg pre Hokpre) as Hpre0.
    unfold middle. fold size. rewrite E. unfold expand.
    rewrite flat_map_app. cbn [flat_map fst snd]. fold (expand pre). fold (expand post).
    rewrite skipn_app.
    rewrite (skipn_all2 (expand pre)) by lia.
    cbn [app]. rewrite slice_repeat_app.
    replace (Nat.min (Z.to_nat (size - 2 * skip))
               (Z.to_nat v - (Z.to_nat skip - List.length (expand pre))))%nat
      with (Z.to_nat (size - 2 * skip)) by lia.
    replace (Z.to_nat (size - 2 * skip) -
             (Z.to_nat v - (Z.to_nat skip - List.length (expand pre))))%nat with O by lia.
    cbn [firstn]. apply app_nil_r.
Qed.

Lemma trimmed_mean_is_mean_of_middle_witness :
  hist_vals_ok [(0, 10); (2, 20); (5, 20)] = true /\
  products_ok [(0, 10); (2, 20); (5, 20)] = true /\
  0 < hist_total [(0, 10); (2, 20); (5, 20)] < two32 /\
  hist_weighted [(0, 10); (2, 20); (5, 20)] < two64 /\
  0 <= 40 <= 100 /\
  let size := hist_total [(0, 10); (2, 20); (5, 20)] in
  let skip := (size * (100 - 40)) / 200 in
  Z.of_nat (List.length (middle [(0, 10); (2, 20); (5, 20)] skip)) = size - 2 * skip /\
  ((0 < size - 2 * skip /\
    trimmedMeanFromHist [(0, 10); (2, 20); (5, 20)] 40 =
    quotient (sum_list (middle [(0, 10); (2, 20); (5, 20)] skip)) (size - 2 * skip)) \/
   (exists k, trimmedMeanFromHist [(0, 10); (2, 20); (5, 20)] 40 = of_unsigned k /\
              middle [(0, 10); (2, 20); (5, 20)] skip = repeat k (Z.to_nat (size - 2 * skip)))).
Proof.
  assert (H1 : hist_vals_ok [(0, 10); (2, 20); (5, 20)] = true) by reflexivity.
  assert (H2 : products_ok [(0, 10); (2, 20); (5, 20)] = true) by reflexivity.
  assert (H3 : 0 < hist_total [(0, 10); (2, 20); (5, 20)] < two32)
    by (vm_compute; split; reflexivity).
  assert (H4 : hist_weighted [(0, 10); (2, 20); (5, 20)] < two64) by reflexivity.
  assert (H5 : 0 <= 40 <= 100) by lia.
  split; [exact H1|split; [exact H2|split; [exact H3|split; [exact H4|split; [exact H5|]]]]].
  exact (trimmed_mean_is_mean_of_middle [(0, 10); (2, 20); (5, 20)] 40 H1 H2 H3 H4 H5).
Defined.

(** ** The division of the records among the workers *)

Lemma job_loop_range : forall n fuel j hi size,
  0 <= j -> size < two32 ->
  n = Z.to_nat (Z.min hi size - j) -> (n < fuel)%nat ->
  job_loop fuel j hi size = Some (map Z.of_nat (seq (Z.to_nat j) n)).
Proof.
  induction n as [|n IH]; intros fuel j hi size Hj Hsize Hn Hfuel.
  - destruct fuel as [|fuel]; [lia|]. cbn [job_loop].
    destruct (Z.ltb_spec j hi); destruct (Z.ltb_spec j size); try reflexivity. lia.
  - destruct fuel as [|fuel]; [lia|]. cbn [job_loop].
    destruct (Z.ltb_spec j hi); [|lia]. destruct (Z.ltb_spec j size); [|lia].
    cbn [andb]. rewrite (wrap32_small (j + 1)) by lia.
    rewrite (IH fuel (j + 1) hi size) by lia.
    cbn [option_map seq map]. rewrite Z2Nat.id by lia.
    replace (Z.to_nat (j + 1)) with (S (Z.to_nat j)) by lia. reflexivity.
Qed.

Lemma blocks_of_indices : forall J N k,
  concat (map (fun i => seq (i * J) (Nat.min ((i + 1) * J) N - i * J)) (seq 0 k)) =
  seq 0 (Nat.min (k * J) N).
Proof.
  intros J N. induction k as [|k IH]; [reflexivity|].
  rewrite seq_S, map_app, concat_app, IH. cbn [map concat Nat.add].
  rewrite app_nil_r.
  destruct (Nat.le_gt_cases (k * J) N) as [Hle|Hgt].
  - rewrite (Nat.min_l (k * J) N) by exact Hle.
    replace (Nat.min ((S k) * J) N)
      with (k * J + (Nat.min ((k + 1) * J) N - k * J))%nat by nia.
    rewrite seq_app. reflexivity.
  - replace (Nat.min ((k + 1) * J) N - k * J)%nat with O by nia.
    rewrite app_nil_r. f_equal. nia.
Qed.

(** X16.  With at least one worker and fewer than 2^32 records and workers
    together, the loops of the workers of
    [CoverageBlocksIRFinder::WriteOutput] all end, and the records they
    visit, taken worker after worker as the outputs are appended, are the
    records [0 .. size - 1] in order: each record is visited once. *)
Theorem workers_visit_each_record_once :
  forall size n_threads,
    1 <= n_threads -> 0 <= size -> size + n_threads < two32 ->
    exists parts,
      map (fun i => worker_records size n_threads (Z.of_nat i))
          (seq 0 (Z.to_nat n_threads)) = map Some parts /\
      concat parts = map Z.of_nat (seq 0 (Z.to_nat size)).
Proof.
  intros size n Hn Hs Hlt.
  assert (Hj : n_jobs size n = 1 + size / n).
  { unfold n_jobs. apply wrap32_small.
    pose proof (Z.div_pos size n Hs ltac:(lia)).
    pose proof (Z.div_le_upper_bound size n size ltac:(lia) ltac:(nia)).
    unfold two32 in *. lia. }
  assert (Hcover : size < n * n_jobs size n /\ n * n_jobs size n <= size + n).
  { rewrite Hj. pose proof (Z.div_mod size n ltac:(lia)).
    pose proof (Z.mod_pos_bound size n ltac:(lia)). nia. }
  pose proof (Z.div_pos size n Hs ltac:(lia)) as Hq.
  set (J := Z.to_nat (n_jobs size n)). set (N := Z.to_nat size).
  exists (map (map Z.of_nat)
              (map (fun i => seq (i * J) (Nat.min ((i + 1) * J) N - i * J))
                   (seq 0 (Z.to_nat n)))).
  split.
  - rewrite !map_map. apply map_ext_in. intros i Hi. apply in_seq in Hi.
    unfold worker_records.
    assert (Hb : 0 <= Z.of_nat i * n_jobs size n /\
                 (Z.of_nat i + 1) * n_jobs size n <= n * n_jobs size n) by nia.
    rewrite (wrap32_small (Z.of_nat i * n_jobs size n)) by (unfold two32 in *; nia).
    rewrite (wrap32_small ((Z.of_nat i + 1) * n_jobs size n)) by (unfold two32 in *; nia).
    rewrite (job_loop_range
               (Z.to_nat (Z.min ((Z.of_nat i + 1) * n_jobs size n) size -
                          Z.of_nat i * n_jobs size n)));
      [|lia|unfold two32 in *; lia|reflexivity|nia].
    assert (EJ : n_jobs size n = Z.of_nat J) by (unfold J; lia).
    assert (EN : size = Z.of_nat N) by (unfold N; lia).
    rewrite EJ, EN. do 2 f_equal.
    replace ((Z.of_nat i + 1) * Z.of_nat J) with (Z.of_nat ((i + 1) * J)) by lia.
    rewrite <- !Nat2Z.inj_mul, <- Nat2Z.inj_min. rewrite Nat2Z.id.
    f_equal. lia.
  - rewrite <- concat_map. rewrite blocks_of_indices. do 2 f_equal.
    apply Nat.min_r. apply Nat2Z.inj_le. rewrite Nat2Z.inj_mul.
    unfold J, N. rewrite !Z2Nat.id by lia. lia.
Qed.

Lemma workers_visit_each_record_once_witness :
  1 <= 3 /\ 0 <= 10 /\ 10 + 3 < two32 /\
  exists parts,
    map (fun i => worker_records 10 3 (Z.of_nat i)) (seq 0 (Z.to_nat 3)) = map Some parts /\
    concat parts = map Z.of_nat (seq 0 (Z.to_nat 10)).
Proof.
  assert (H1 : 1 <= 3) by lia.
  assert (H2 : 0 <= 10) by lia.
  assert (H3 : 10 + 3 < two32) by reflexivity.
  split; [exact H1|split; [exact H2|split; [exact H3|]]].
  exact (workers_visit_each_record_once 10 3 H1 H2 H3).
Defined.

(** ** The histogram and the coverage of a record *)

Lemma count_from_range : forall f k n a, 0 <= count_from f k a n <= Z.of_nat n.
Proof.
  induction n as [|n IH]; intro a; [simpl; lia|].
  cbn [count_from]. specialize (IH (a + 1)).
  destruct (wrap32 (f a) =? k); lia.
Qed.

Lemma record_positions_at_depth_range : forall f k blocks,
  Forall (fun b => fst b <= snd b) blocks ->
  0 <= record_positions_at_depth f k blocks <= record_positions blocks.
Proof.
  induction blocks as [|b blocks IH]; intro H.
  - unfold record_positions_at_depth, record_positions. simpl. lia.
  - inversion H as [|? ? Hb Hrest]; subst. specialize (IH Hrest).
    assert (Hp : 0 <= positions_at_depth f k (fst b) (snd b) <= snd b - fst b).
    { unfold positions_at_depth.
      pose proof (count_from_range f k (Z.to_nat (snd b - fst b)) (fst b)). lia. }
    unfold record_positions_at_depth, record_positions in *. cbn [fold_right]. lia.
Qed.

Lemma walk_forward_sorted : forall segs cursor d end_ h,
  hist_sorted h = true -> hist_sorted (walk_forward segs cursor d end_ h) = true.
Proof.
  induction segs as [|e segs IH]; intros cursor d end_ h Hs; cbn [walk_forward].
  - destruct (cursor <? end_); [apply hist_add_sorted|]; exact Hs.
  - destruct (cursor <? end_); [|exact Hs].
    destruct (fst e <=? cursor); apply IH; [|apply hist_add_sorted]; exact Hs.
Qed.

Lemma fillHist_counts : forall s dir refID segs k blocks h,
  nth_error (sel dir (chrName_vec_final s)) refID = Some segs ->
  ascending segs ->
  (exists d rest, segs = (0, d) :: rest) ->
  snd (last segs (0, 0)) = 0 ->
  Forall (fun b => 0 <= fst b <= snd b) blocks ->
  hist_sorted h = true -> hist_vals_ok h = true ->
  hist_count k (fillHist s h refID blocks dir) =
  wrap32 (hist_count k h + record_positions_at_depth (seg_lookup 0 segs) k blocks).
Proof.
  intros s dir refID segs k blocks h Hn Ha Hz Hlast. revert h.
  unfold fillHist, record_positions_at_depth.
  induction blocks as [|b blocks IH]; intros h Hb Hs Hok.
  - simpl. rewrite Z.add_0_r. symmetry. apply wrap32_small.
    apply hist_count_range. exact Hok.
  - inversion Hb as [|? ? H1 Hrest]; subst. cbn [fold_left fold_right].
    assert (Hstep : hist_count k (updateCoverageHist s h (fst b) (snd b) dir refID) =
                    wrap32 (hist_count k h +
                            positions_at_depth (seg_lookup 0 segs) k (fst b) (snd b))).
    { unfold updateCoverageHist. rewrite Hn. apply query_branch_counts; assumption. }
    assert (Hs' : hist_sorted (updateCoverageHist s h (fst b) (snd b) dir refID) = true).
    { unfold updateCoverageHist. rewrite Hn.
      destruct (Nat.eqb _ _); [apply hist_add_sorted; exact Hs|].
      apply walk_forward_sorted. exact Hs. }
    rewrite IH; [|exact Hrest|exact Hs'|apply updateCoverageHist_vals_ok; exact Hok].
    rewrite Hstep. rewrite Z.add_assoc. apply wrap32_add_l. apply wrap32_idem.
Qed.

(** X17.  The histogram that [fillHist] builds for a record, on a run-length
    sequence with strictly increasing positions that starts at position 0
    and ends at depth 0, counts in the bin of every depth the positions of
    the blocks of the record that have this depth (modulo 2^32). *)
Theorem record_histogram_counts_positions :
  forall s dir refID segs k blocks,
    nth_error (sel dir (chrName_vec_final s)) refID = Some segs ->
    ascending segs ->
    (exists d rest, segs = (0, d) :: rest) ->
    snd (last segs (0, 0)) = 0 ->
    Forall (fun b => 0 <= fst b <= snd b) blocks ->
    hist_count k (fillHist s [] refID blocks dir) =
    wrap32 (record_positions_at_depth (seg_lookup 0 segs) k blocks).
Proof.
  intros s dir refID segs k blocks Hn Ha Hz Hlast Hb.
  rewrite (fillHist_counts s dir refID segs k blocks [] Hn Ha Hz Hlast Hb eq_refl eq_refl).
  reflexivity.
Qed.

Lemma record_histogram_counts_positions_witness :
  nth_error (sel Ch2 (chrName_vec_final demo_final)) 0 =
    Some [(0, 0); (100, 1); (150, 2); (200, 0)] /\
  ascending [(0, 0); (100, 1); (150, 2); (200, 0)] /\
  (exists d rest, [(0, 0); (100, 1); (150, 2); (200, 0)] = (0, d) :: rest) /\
  snd (last [(0, 0); (100, 1); (150, 2); (200, 0)] (0, 0)) = 0 /\
  Forall (fun b => 0 <= fst b <= snd b) [(90, 120); (140, 210)] /\
  hist_count 1 (fillHist demo_final [] 0 [(90, 120); (140, 210)] Ch2) =
  wrap32 (record_positions_at_depth
            (seg_lookup 0 [(0, 0); (100, 1); (150, 2); (200, 0)]) 1
            [(90, 120); (140, 210)]).
Proof.
  assert (H1 : nth_error (sel Ch2 (chrName_vec_final demo_final)) 0 =
               Some [(0, 0); (100, 1); (150, 2); (200, 0)]) by reflexivity.
  assert (H2 : ascending [(0, 0); (100, 1); (150, 2); (200, 0)])
    by (simpl; lia).
  assert (H3 : exists d rest,
             [(0, 0); (100, 1); (150, 2); (200, 0)] = (0, d) :: rest)
    by (eexists; eexists; reflexivity).
  assert (H4 : snd (last [(0, 0); (100, 1); (150, 2); (200, 0)] (0, 0)) = 0)
    by reflexivity.
  assert (H5 : Forall (fun b => 0 <= fst b <= snd b) [(90, 120); (140, 210)])
    by (repeat constructor; simpl; lia).
  split; [exact H1|split; [exact H2|split; [exact H3|split; [exact H4|split; [exact H5|]]]]].
  exact (record_histogram_counts_positions demo_final Ch2 0%nat _ 1
           [(90, 120); (140, 210)] H1 H2 H3 H4 H5).
Defined.

Lemma hist_count_absent : forall h k,
  existsb (fun e => fst e =? k) h = false -> hist_count k h = 0.
Proof.
  induction h as [|[k1 v1] h IH]; intros k H; [reflexivity|].
  simpl in H |- *. apply orb_false_iff in H. destruct H as [H1 H2].
  rewrite Z.eqb_sym in H1. rewrite H1. apply IH. exact H2.
Qed.

(** X18.  For a record of non-empty blocks with fewer than 2^32 positions in
    all, on such a sequence, the coverage that [coverageFromHist] computes
    from the histogram of [fillHist] is the number of positions of the
    blocks whose depth is not 0 divided by the number of positions; the
    function returns [1.0] without dividing only when no position has
    depth 0. *)
Theorem coverage_is_fraction_of_covered_positions :
  forall s dir refID segs blocks,
    nth_error (sel dir (chrName_vec_final s)) refID = Some segs ->
    ascending segs ->
    (exists d rest, segs = (0, d) :: rest) ->
    snd (last segs (0, 0)) = 0 ->
    Forall (fun b => 0 <= fst b < snd b) blocks ->
    record_positions blocks < two32 ->
    let zero := record_positions_at_depth (seg_lookup 0 segs) 0 blocks in
    let all := record_positions blocks in
    0 <= zero <= all /\
    (coverageFromHist (fillHist s [] refID blocks dir) = quotient (all - zero) all \/
     (zero = 0 /\ coverageFromHist (fillHist s [] refID blocks dir) = of_unsigned 1)).
Proof.
  intros s dir refID segs blocks Hn Ha Hz Hlast Hb Hlt zero all.
  assert (Hb1 : Forall (fun b => 0 <= fst b <= snd b) blocks).
  { eapply Forall_impl; [|exact Hb]. cbn beta. intros; lia. }
  assert (Hb2 : Forall (fun b => fst b <= snd b) blocks).
  { eapply Forall_impl; [|exact Hb]. cbn beta. intros; lia. }
  assert (Hb3 : Forall (fun b => fst b < snd b) blocks).
  { eapply Forall_impl; [|exact Hb]. cbn beta. intros; lia. }
  pose proof (record_positions_at_depth_range (seg_lookup 0 segs) 0 blocks Hb2) as Hrange.
  fold zero in Hrange. fold all in Hrange.
  split; [exact Hrange|].
  assert (Hr : (refID < List.length (sel dir (chrName_vec_final s)))%nat).
  { apply nth_error_Some. rewrite Hn. discriminate. }
  assert (Hcount : fold_left (fun count e => wrap32 (count + snd e))
                     (fillHist s [] refID blocks dir) 0 = all).
  { change 0 with (wrap32 0) at 1. rewrite hist_size_wrap, Z.add_0_l.
    rewrite (fillHist_total_mod s refID dir blocks [] Hr Hb3).
    change (hist_total []) with 0. rewrite Z.add_0_l.
    apply wrap32_small. fold (record_positions blocks). fold all. lia. }
  assert (Hzero : hist_count 0 (fillHist s [] refID blocks dir) = zero).
  { rewrite (fillHist_counts s dir refID segs 0 blocks [] Hn Ha Hz Hlast Hb1 eq_refl eq_refl).
    change (hist_count 0 []) with 0. rewrite Z.add_0_l.
    apply wrap32_small. fold zero. lia. }
  unfold coverageFromHist.
  destruct (existsb (fun e => fst e =? 0) (fillHist s [] refID blocks dir)) eqn:E.
  - left. rewrite Hcount, Hzero. rewrite wrap32_small by lia. reflexivity.
  - right. split; [|reflexivity].
    rewrite <- Hzero. apply hist_count_absent. exact E.
Qed.

Lemma coverage_is_fraction_of_covered_positions_witness :
  nth_error (sel Ch2 (chrName_vec_final demo_final)) 0 =
    Some [(0, 0); (100, 1); (150, 2); (200, 0)] /\
  ascending [(0, 0); (100, 1); (150, 2); (200, 0)] /\
  (exists d rest, [(0, 0); (100, 1); (150, 2); (200, 0)] = (0, d) :: rest) /\
  snd (last [(0, 0); (100, 1); (150, 2); (200, 0)] (0, 0)) = 0 /\
  Forall (fun b => 0 <= fst b < snd b) [(90, 120); (140, 210)] /\
  record_positions [(90, 120); (140, 210)] < two32 /\
  let zero := record_positions_at_depth
                (seg_lookup 0 [(0, 0); (100, 1); (150, 2); (200, 0)]) 0
                [(90, 120); (140, 210)] in
  let all := record_positions [(90, 120); (140, 210)] in
  0 <= zero <= all /\
  (coverageFromHist (fillHist demo_final [] 0 [(90, 120); (140, 210)] Ch2) =
     quotient (all - zero) all \/
   (zero = 0 /\
    coverageFromHist (fillHist demo_final [] 0 [(90, 120); (140, 210)] Ch2) = of_unsigned 1)).
Proof.
  assert (H1 : nth_error (sel Ch2 (chrName_vec_final demo_final)) 0 =
               Some [(0, 0); (100, 1); (150, 2); (200, 0)]) by reflexivity.
  assert (H2 : ascending [(0, 0); (100, 1); (150, 2); (200, 0)])
    by (simpl; lia).
  assert (H3 : exists d rest,
             [(0, 0); (100, 1); (150, 2); (200, 0)] = (0, d) :: rest)
    by (eexists; eexists; reflexivity).
  assert (H4 : snd (last [(0, 0); (100, 1); (150, 2); (200, 0)] (0, 0)) = 0)
    by reflexivity.
  assert (H5 : Forall (fun b => 0 <= fst b < snd b) [(90, 120); (140, 210)])
    by (repeat constructor; simpl; lia).
  assert (H6 : record_positions [(90, 120); (140, 210)] < two32) by reflexivity.
  split; [exact H1|split; [exact H2|split; [exact H3|split; [exact H4|
    split; [exact H5|split; [exact H6|]]]]]].
  exact (coverage_is_fraction_of_covered_positions demo_final Ch2 0%nat _
           [(90, 120); (140, 210)] H1 H2 H3 H4 H5 H6).
Defined.

(** ** Percentiles *)

Lemma nth_repeat_app_l : forall (k : Z) n l j,
  (j < n)%nat -> nth j (repeat k n ++ l) 0 = k.
Proof.
  intros k n l j Hj. rewrite app_nth1 by (rewrite repeat_length; exact Hj).
  apply nth_repeat_lt. exact Hj.
Qed.

Lemma nth_repeat_app_r : forall (k : Z) n l j,
  (n <= j)%nat -> nth j (repeat k n ++ l) 0 = nth (j - n) l 0.
Proof.
  intros k n l j Hj. rewrite app_nth2 by (rewrite repeat_length; exact Hj).
  rewrite repeat_length. reflexivity.
Qed.

(** The second loop of [percentileFromHist] on bins that are all positive:
    it stops in the bin of rank [index], and interpolates towards the depth
    of the next rank. *)
Lemma percentile_walk_spec : forall h count index fz n p,
  hist_vals_ok h = true -> Forall (fun e => 0 < snd e) h ->
  0 <= count -> count < index -> index < count + hist_total h ->
  count + hist_total h < two32 ->
  let j := Z.to_nat (index - count - 1) in
  (percentile_walk h count index fz n p = Returns (of_unsigned (nth j (expand h) 0)) /\
   (fz = true \/ nth j (expand h) 0 = nth (S j) (expand h) 0)) \/
  (percentile_walk h count index fz n p =
     Returns (interpolated (nth j (expand h) 0) (nth (S j) (expand h) 0) n p) /\
   fz = false).
Proof.
  induction h as [|[k v] h IH]; intros count index fz n p Hok Hpos Hc Hlo Hhi Hlt j.
  - change (hist_total []) with 0 in Hhi. lia.
  - destruct (hist_vals_ok_cons _ _ _ Hok) as [Hv Hh].
    inversion Hpos as [|? ? Hv0 Hposh]; subst. cbn [snd] in Hv0.
    pose proof (hist_total_nonneg h Hh) as Htot.
    change (hist_total ((k, v) :: h)) with (v + hist_total h) in *.
    change (expand ((k, v) :: h)) with (repeat k (Z.to_nat v) ++ expand h).
    cbn [percentile_walk fst snd]. rewrite (wrap32_small (count + v)) by lia.
    destruct (Z.leb_spec index (count + v)) as [Hin|Hout].
    + rewrite (nth_repeat_app_l k (Z.to_nat v) (expand h) j) by (unfold j; lia).
      destruct (Z.ltb_spec index (count + v)) as [Hlt'|Hge].
      * left. cbn [orb]. split; [reflexivity|]. right.
        symmetry. apply nth_repeat_app_l. unfold j. lia.
      * destruct fz.
        { left. split; [reflexivity|left; reflexivity]. }
        right. cbn [orb]. split; [|reflexivity].
        destruct h as [|[k' v'] h']; [change (hist_total []) with 0 in Hhi; lia|].
        inversion Hposh as [|? ? Hv0' _]; subst. cbn [snd] in Hv0'.
        rewrite (nth_repeat_app_r k (Z.to_nat v) _ (S j)) by (unfold j; lia).
        change (expand ((k', v') :: h')) with (repeat k' (Z.to_nat v') ++ expand h').
        rewrite (nth_repeat_app_l k' (Z.to_nat v')) by (unfold j; lia).
        reflexivity.
    + rewrite (nth_repeat_app_r k (Z.to_nat v) (expand h) j) by (unfold j; lia).
      rewrite (nth_repeat_app_r k (Z.to_nat v) (expand h) (S j)) by (unfold j; lia).
      specialize (IH (count + v) index fz n p Hh Hposh ltac:(lia) ltac:(lia) ltac:(lia)
                     ltac:(lia)).
      cbv zeta in IH.
      replace (Z.to_nat (index - (count + v) - 1)) with (j - Z.to_nat v)%nat in IH
        by (unfold j; lia).
      replace (S j - Z.to_nat v)%nat with (S (j - Z.to_nat v)) by (unfold j; lia).
      exact IH.
Qed.

(** X19.  On a histogram of positive bins with fewer than 2^32 - 1
    positions, a percentile whose rank [index = floor ((size + 1) *
    percentile / 100)] is below the size is the depth of that rank in
    ascending order of depth (the lowest depth for rank 0), interpolated
    towards the depth of the next rank when [(size + 1) * percentile / 100]
    has a fractional part and the walk stops at the last position of a
    bin. *)
Theorem percentile_is_interpolated_rank :
  forall h percentile,
    hist_vals_ok h = true -> Forall (fun e => 0 < snd e) h ->
    hist_total h + 1 < two32 -> 0 <= percentile ->
    let n := hist_total h + 1 in
    let index := (n * percentile) / 100 in
    index < hist_total h ->
    let i := Z.to_nat (index - 1) in
    let lower := nth i (expand h) 0 in
    let upper := nth (S i) (expand h) 0 in
    (percentileFromHist h percentile = Returns (of_unsigned lower) /\
     ((n * percentile) mod 100 = 0 \/ index = 0 \/ lower = upper)) \/
    (percentileFromHist h percentile = Returns (interpolated lower upper n percentile) /\
     (n * percentile) mod 100 <> 0 /\ 1 <= index).
Proof.
  intros h p Hok Hpos Hlt Hp n index Hidx i lower upper.
  pose proof (hist_total_nonneg h Hok) as Htot.
  assert (Hindex : 0 <= index).
  { unfold index. apply Z.div_pos; [|lia]. unfold n. apply Z.mul_nonneg_nonneg; lia. }
  unfold percentileFromHist.
  rewrite (hist_size_total h Hok) by lia.
  rewrite (wrap32_small (hist_total h + 1)) by lia.
  fold n. fold index.
  destruct (Z.eq_dec index 0) as [E0|N0].
  - left. split; [|right; left; exact E0].
    destruct h as [|[k v] h]; [change (hist_total []) with 0 in Hidx; lia|].
    inversion Hpos as [|? ? Hv0 _]; subst. cbn [snd] in Hv0.
    destruct (hist_vals_ok_cons _ _ _ Hok) as [Hv _].
    rewrite E0. cbn [percentile_walk fst snd]. rewrite (wrap32_small (0 + v)) by lia.
    destruct (Z.leb_spec 0 (0 + v)); [|lia].
    destruct (Z.ltb_spec 0 (0 + v)); [|lia]. cbn [orb].
    unfold lower, i. rewrite E0.
    change (expand ((k, v) :: h)) with (repeat k (Z.to_nat v) ++ expand h).
    rewrite nth_repeat_app_l by lia. reflexivity.
  - pose proof (percentile_walk_spec h 0 index ((n * p) mod 100 =? 0) n p Hok Hpos
                  ltac:(lia) ltac:(lia) ltac:(lia) ltac:(lia)) as Hwalk.
    cbv zeta in Hwalk. replace (index - 0 - 1) with (index - 1) in Hwalk by lia.
    fold i in Hwalk. fold lower in Hwalk. fold upper in Hwalk.
    destruct Hwalk as [[Hr Hc]|[Hr Hc]].
    + left. split; [exact Hr|].
      destruct Hc as [Hc|Hc]; [left; apply Z.eqb_eq; exact Hc|right; right; exact Hc].
    + right. split; [exact Hr|]. split; [apply Z.eqb_neq; exact Hc|lia].
Qed.

Lemma percentile_is_interpolated_rank_witness :
  hist_vals_ok [(1, 3); (4, 2); (9, 5)] = true /\
  Forall (fun e => 0 < snd e) [(1, 3); (4, 2); (9, 5)] /\
  hist_total [(1, 3); (4, 2); (9, 5)] + 1 < two32 /\ 0 <= 50 /\
  let n := hist_total [(1, 3); (4, 2); (9, 5)] + 1 in
  let index := (n * 50) / 100 in
  index < hist_total [(1, 3); (4, 2); (9, 5)] /\
  let i := Z.to_nat (index - 1) in
  let lower := nth i (expand [(1, 3); (4, 2); (9, 5)]) 0 in
  let upper := nth (S i) (expand [(1, 3); (4, 2); (9, 5)]) 0 in
  (percentileFromHist [(1, 3); (4, 2); (9, 5)] 50 = Returns (of_unsigned lower) /\
   ((n * 50) mod 100 = 0 \/ index = 0 \/ lower = upper)) \/
  (percentileFromHist [(1, 3); (4, 2); (9, 5)] 50 = Returns (interpolated lower upper n 50) /\
   (n * 50) mod 100 <> 0 /\ 1 <= index).
Proof.
  assert (H1 : hist_vals_ok [(1, 3); (4, 2); (9, 5)] = true) by reflexivity.
  assert (H2 : Forall (fun e => 0 < snd e) [(1, 3); (4, 2); (9, 5)])
    by (repeat constructor).
  assert (H3 : hist_total [(1, 3); (4, 2); (9, 5)] + 1 < two32) by reflexivity.
  assert (H4 : 0 <= 50) by lia.
  assert (H5 : (hist_total [(1, 3); (4, 2); (9, 5)] + 1) * 50 / 100 <
               hist_total [(1, 3); (4, 2); (9, 5)]) by reflexivity.
  split; [exact H1|split; [exact H2|split; [exact H3|split; [exact H4|]]]].
  split; [exact H5|].
  exact (percentile_is_interpolated_rank [(1, 3); (4, 2); (9, 5)] 50 H1 H2 H3 H4 H5).
Defined.

(** ** Merging finalised maps *)

(** Finalisation leaves the accumulated and the ingest buffers empty. *)
Lemma sort_and_collapse_final_cleared : forall s,
  well_formed s -> final_is_sorted s = false ->
  exists s',
    sort_and_collapse_final s = Some s' /\
    well_formed s' /\
    final_is_sorted s' = true /\
    chrs s' = chrs s /\
    (forall j i, content s' j i = []).
Proof.
  intros s Hwf Hfis.
  destruct (sort_and_collapse_temp_spec s Hwf)
    as (s1 & E1 & [Hsz1 Hpos1] & Hc1 & Hf1 & Hfin1 & _ & Pt & Pn).
  unfold sort_and_collapse_final. rewrite Hfis, E1.
  destruct (Hsz1 Ch0) as (F0 & N0 & T0); destruct (Hsz1 Ch1) as (F1 & N1 & T1);
    destruct (Hsz1 Ch2) as (F2 & N2 & T2); simpl in *.
  destruct (final_chan_spec (List.length (chrs s1)) _ _ N0 F0) as (n0 & f0 & E0 & M0 & L0 & Z0 & _).
  destruct (final_chan_spec (List.length (chrs s1)) _ _ N1 F1) as (n1 & f1 & E1' & M1 & L1 & Z1 & _).
  destruct (final_chan_spec (List.length (chrs s1)) _ _ N2 F2) as (n2 & f2 & E2 & M2 & L2 & Z2 & _).
  rewrite E0, E1', E2. simpl.
  eexists; split; [reflexivity|].
  split; [split|split; [reflexivity|split; [exact Hc1|]]].
  - intros []; simpl; repeat split; assumption.
  - intros j. split.
    + apply chrvec_ok_nth. intro i. destruct j; simpl; rewrite ?Z0, ?Z1, ?Z2; reflexivity.
    + simpl. apply (Hpos1 j).
  - intros j i. unfold content. simpl. rewrite Pt, app_nil_r.
    destruct j; simpl; [apply Z0|apply Z1|apply Z2].
Qed.

(** [Combine] on two finalised maps: the parent goes back to accumulating
    mode with the deltas it held. *)
Lemma Combine_finalised_spec : forall s c,
  well_formed s -> well_formed c ->
  List.length (chrs s) = List.length (chrs c) ->
  final_is_sorted s = true -> final_is_sorted c = true ->
  exists s' c',
    Combine s c = Some (s', c') /\
    well_formed s' /\
    chrs s' = chrs s /\
    final_is_sorted s' = false /\
    (forall j i, buf_equiv (content s' j i) (content s j i)).
Proof.
  intros s c Ws Wc Hlen As Ac.
  destruct (sort_and_collapse_temp_spec s Ws)
    as (s1 & Es & Ws1 & Hcs & Hfs & Hfin & _ & Pts & Pns).
  destruct (sort_and_collapse_temp_spec c Wc)
    as (c1 & Ec & Wc1 & Hcc & Hfc & Hfinc & _ & _ & _).
  pose proof (compaction_content s s1 Ws Es) as Cs.
  unfold Combine. rewrite Es, Ec, Hfs, Hfc, As, Ac. simpl.
  destruct Ws1 as [Sz1 Po1]. destruct Wc1 as [Szc Poc].
  assert (Hn : forall j, exists v,
             append_chan (List.length (chrs s1)) (sel j (chrName_vec_final s1))
                         (sel j (chrName_vec_final c1)) = Some v /\
             List.length v = List.length (chrs s1)).
  { intro j.
    destruct (append_chan_spec (List.length (chrs s1)) (sel j (chrName_vec_final s1))
                (sel j (chrName_vec_final c1))) as (v & E & L & _).
    - apply (Sz1 j).
    - destruct (Szc j) as (F & _ & _). rewrite F. congruence.
    - exists v. split; assumption. }
  destruct (Hn Ch0) as (v0 & E0 & L0).
  destruct (Hn Ch1) as (v1 & E1 & L1).
  destruct (Hn Ch2) as (v2 & E2 & L2).
  simpl in E0, E1, E2. unfold append_arr. rewrite E0, E1, E2.
  eexists; eexists; split; [reflexivity|].
  split; [split|split; [exact Hcs|split; [reflexivity|]]].
  - intros j; simpl. destruct (Sz1 j) as (F & N & T).
    repeat split; auto. destruct j; simpl; auto.
  - intros j; simpl. apply (Po1 j).
  - intros j i. unfold content at 1; simpl. apply Cs.
Qed.

(** X20.  When two accumulating maps are finalised and then merged,
    [Combine] puts the parent back in accumulating mode, and the next
    finalisation rebuilds every sequence from the accumulated buffers,
    which finalisation had emptied: every sequence of the merged map is
    [(0, 0)], the coverage of both operands is gone. *)
Theorem merging_finalised_maps_loses_coverage :
  forall s c,
    well_formed s -> well_formed c ->
    final_is_sorted s = false -> final_is_sorted c = false ->
    List.length (chrs s) = List.length (chrs c) ->
    exists fs fc m c' m',
      sort_and_collapse_final s = Some fs /\
      sort_and_collapse_final c = Some fc /\
      Combine fs fc = Some (m, c') /\
      final_is_sorted m = false /\
      sort_and_collapse_final m = Some m' /\
      forall j i, (i < List.length (chrs s))%nat ->
        nth_error (sel j (chrName_vec_final m')) i = Some [(0, 0)].
Proof.
  intros s c Ws Wc As Ac Hlen.
  destruct (sort_and_collapse_final_cleared s Ws As) as (fs & Efs & Wfs & Ffs & Cfs & Zfs).
  destruct (sort_and_collapse_final_cleared c Wc Ac) as (fc & Efc & Wfc & Ffc & Cfc & _).
  destruct (Combine_finalised_spec fs fc Wfs Wfc ltac:(congruence) Ffs Ffc)
    as (m & c' & Em & Wm & Cm & Fm & Hm).
  destruct (sort_and_collapse_final_spec m Wm Fm) as (m' & Em' & _ & _ & Lm' & Pm').
  exists fs, fc, m, c', m'.
  split; [exact Efs|]. split; [exact Efc|]. split; [exact Em|].
  split; [exact Fm|]. split; [exact Em'|].
  intros j i Hi.
  assert (Hi' : (i < List.length (chrs m))%nat) by congruence.
  assert (Hb : final_buf (content m j i) = final_buf []).
  { apply final_buf_ext.
    - apply content_ok. exact Wm.
    - reflexivity.
    - intros q _. rewrite (Hm j i q), Zfs. reflexivity. }
  assert (Hnth : nth i (sel j (chrName_vec_final m')) [] = [(0, 0)]).
  { rewrite (Pm' j i Hi'), Hb. reflexivity. }
  rewrite <- Hnth. apply nth_error_nth'. rewrite Lm'. exact Hi'.
Qed.

Lemma merging_finalised_maps_loses_coverage_witness :
  well_formed demo_accum /\
  well_formed (built (ingest_only [frag_c] (new_map chr_demo 0))) /\
  final_is_sorted demo_accum = false /\
  final_is_sorted (built (ingest_only [frag_c] (new_map chr_demo 0))) = false /\
  List.length (chrs demo_accum) =
    List.length (chrs (built (ingest_only [frag_c] (new_map chr_demo 0)))) /\
  exists fs fc m c' m',
    sort_and_collapse_final demo_accum = Some fs /\
    sort_and_collapse_final (built (ingest_only [frag_c] (new_map chr_demo 0))) = Some fc /\
    Combine fs fc = Some (m, c') /\
    final_is_sorted m = false /\
    sort_and_collapse_final m = Some m' /\
    forall j i, (i < List.length (chrs demo_accum))%nat ->
      nth_error (sel j (chrName_vec_final m')) i = Some [(0, 0)].
Proof.
  assert (W : well_formed demo_accum) by well_formed_by_computation.
  assert (Wc : well_formed (built (ingest_only [frag_c] (new_map chr_demo 0))))
    by well_formed_by_computation.
  split; [exact W|split; [exact Wc|split; [reflexivity|split; [reflexivity|
    split; [reflexivity|]]]]].
  exact (merging_finalised_maps_loses_coverage demo_accum
           (built (ingest_only [frag_c] (new_map chr_demo 0))) W Wc
           eq_refl eq_refl eq_refl).
Defined.

(** ** Edge cases of the operations *)

Lemma walk_forward_empty_range : forall segs cursor d end_ h,
  end_ <= cursor -> walk_forward segs cursor d end_ h = h.
Proof.
  intros [|e segs] cursor d end_ h H; cbn [walk_forward];
    destruct (Z.ltb_spec cursor end_); try lia; reflexivity.
Qed.

(** X21.  [updateCoverageHist] does not reject an empty or inverted range.
    On a sequence with strictly increasing positions, as finalisation
    produces, the histogram is left as it is when a segment lies beyond
    [start]; when none does, [end - start] is added to the bin of depth 0 as
    an [unsigned int], which for an inverted range is
    [2^32 - (start - end)] positions. *)
Theorem query_of_empty_or_inverted_range :
  forall s h start end_ dir refID segs,
    nth_error (sel dir (chrName_vec_final s)) refID = Some segs ->
    ascending segs ->
    end_ <= start ->
    updateCoverageHist s h start end_ dir refID =
    if existsb (fun e => start <? fst e) segs then h
    else hist_add 0 (wrap32 (end_ - start)) h.
Proof.
  intros s h start end_ dir refID segs Hn Ha Hle.
  unfold updateCoverageHist. rewrite Hn.
  destruct (ascending_partition segs start Ha) as (pre & post & E & H1 & H2).
  rewrite E, (upper_bound_partitioned pre post start H1 H2), existsb_app.
  assert (Hpre : existsb (fun e => start <? fst e) pre = false).
  { clear - H1. induction H1 as [|e pre He _ IH]; [reflexivity|].
    simpl. rewrite IH. destruct (Z.ltb_spec start (fst e)); [lia|reflexivity]. }
  unfold buf, entry in *. rewrite Hpre. cbn [orb].
  destruct post as [|e post].
  - rewrite app_nil_r, Nat.eqb_refl. reflexivity.
  - pose proof (Forall_inv H2) as He. cbn beta in He.
    cbn [existsb]. destruct (Z.ltb_spec start (fst e)); [|lia]. cbn [orb].
    replace (List.length pre =? List.length (pre ++ e :: post))%nat with false
      by (symmetry; apply Nat.eqb_neq; rewrite length_app; simpl; lia).
    apply walk_forward_empty_range. exact Hle.
Qed.

Lemma query_of_empty_or_inverted_range_witness :
  nth_error (sel Ch2 (chrName_vec_final demo_final)) 0 =
    Some [(0, 0); (100, 1); (150, 2); (200, 0)] /\
  ascending [(0, 0); (100, 1); (150, 2); (200, 0)] /\
  250 <= 300 /\
  updateCoverageHist demo_final [] 300 250 Ch2 0 =
  if existsb (fun e => 300 <? fst e) [(0, 0); (100, 1); (150, 2); (200, 0)] then []
  else hist_add 0 (wrap32 (250 - 300)) [].
Proof.
  assert (H1 : nth_error (sel Ch2 (chrName_vec_final demo_final)) 0 =
               Some [(0, 0); (100, 1); (150, 2); (200, 0)]) by reflexivity.
  assert (Ha : ascending [(0, 0); (100, 1); (150, 2); (200, 0)]) by (simpl; lia).
  assert (H2 : 250 <= 300) by lia.
  split; [exact H1|split; [exact Ha|split; [exact H2|]]].
  exact (query_of_empty_or_inverted_range demo_final [] 300 250 Ch2 0%nat _ H1 Ha H2).
Defined.

Lemma vec_push_outside : forall v i es,
  (List.length v <= i)%nat -> vec_push v i es = None.
Proof.
  induction v as [|x v IH]; intros i es H; [reflexivity|].
  destruct i as [|i]; [simpl in H; lia|].
  simpl in H |- *. rewrite IH by lia. reflexivity.
Qed.

(** X22.  A fragment with at least one block on a chromosome that is not
    registered makes [ProcessBlocks] throw at the first access to the ingest
    buffers: the fragment is not counted and no compaction runs. *)
Theorem ProcessBlocks_on_unregistered_chromosome :
  forall s blocks,
    well_formed s ->
    (List.length (chrs s) <= chr_id blocks)%nat ->
    frag_events blocks <> [] ->
    ProcessBlocks s blocks = None.
Proof.
  intros s blocks [Hsz _] Hout Hne. unfold ProcessBlocks, push_blocks.
  destruct (frag_events blocks) as [|e es]; [contradiction|].
  rewrite vec_push_outside; [reflexivity|].
  destruct (Hsz (dir_channel (direction blocks))) as (_ & _ & T). rewrite T. exact Hout.
Qed.

Lemma ProcessBlocks_on_unregistered_chromosome_witness :
  well_formed demo_accum /\
  (List.length (chrs demo_accum) <= chr_id frag_stray)%nat /\
  frag_events frag_stray <> [] /\
  ProcessBlocks demo_accum frag_stray = None.
Proof.
  assert (W : well_formed demo_accum) by well_formed_by_computation.
  assert (H : (List.length (chrs demo_accum) <= chr_id frag_stray)%nat) by (simpl; lia).
  assert (He : frag_events frag_stray <> []) by discriminate.
  split; [exact W|split; [exact H|split; [exact He|]]].
  exact (ProcessBlocks_on_unregistered_chromosome demo_accum frag_stray W H He).
Defined.

